(** * MiniVSFS: the image builder (mkfs_builder.c) and the file adder
      (mkfs_adder.c), embedded as functions over a flat byte buffer.

    The C programs overlay packed structs on a [uint8_t*] image.  The
    embedding keeps that view: an image is a list of bytes, a struct field
    is a little-endian load or store at a byte offset, and every unsigned
    C integer is a [Z] whose wrap-around is written out. *)

From Stdlib Require Import ZArith Lia List Bool Sorted.
From Stdlib Require String Ascii.
Import String.StringSyntax.
From stdpp Require Import base list.
Import ListNotations.
Local Open Scope Z_scope.

(* Lemmas in sections depend on the hypotheses their proofs use. *)
#[local] Unset Default Proof Using.

(** [lia] is to reason about division and remainder by constants. *)
Ltac Zify.zify_post_hook ::= Z.to_euclidean_division_equations.

(** ** Machine integers *)

Definition u8  (x : Z) : Z := x mod 2 ^ 8.
Definition u16 (x : Z) : Z := x mod 2 ^ 16.
Definition u32 (x : Z) : Z := x mod 2 ^ 32.
Definition u64 (x : Z) : Z := x mod 2 ^ 64.

Definition UINT32_MAX : Z := 4294967295.

(** ** The byte buffer *)

(** [len m]: number of bytes of the buffer. *)
Definition len (m : list Z) : Z := Z.of_nat (length m).

(** [bytes m a n]: the [n] bytes of [m] starting at offset [a]. *)
Definition bytes (m : list Z) (a n : Z) : list Z :=
  take (Z.to_nat n) (drop (Z.to_nat a) m).

(** [memcpy(m + a, d, |d|)].  A copy that does not fit in the buffer is
    undefined in C; here it leaves the buffer as it is. *)
Definition memcpy (m : list Z) (a : Z) (d : list Z) : list Z :=
  if (0 <=? a) && (a + len d <=? len m)
  then take (Z.to_nat a) m ++ d ++ drop (Z.to_nat a + length d) m
  else m.

(** [memset(m + a, v, n)]. *)
Definition memset (m : list Z) (a v n : Z) : list Z :=
  memcpy m a (replicate (Z.to_nat n) v).

(** Little-endian encoding of an [n]-byte unsigned field. *)
Fixpoint le_encode (n : nat) (v : Z) : list Z :=
  match n with
  | O => []
  | S k => v mod 256 :: le_encode k (v / 256)
  end.

Fixpoint le_decode (bs : list Z) : Z :=
  match bs with
  | [] => 0
  | b :: r => b + 256 * le_decode r
  end.

(** Load and store of an [n]-byte unsigned field at offset [a]. *)
Definition load (m : list Z) (a : Z) (n : nat) : Z :=
  le_decode (bytes m a (Z.of_nat n)).

Definition store (m : list Z) (a : Z) (n : nat) (v : Z) : list Z :=
  memcpy m a (le_encode n v).

(** [p[a]] for a [uint8_t* p]. *)
Definition peek (m : list Z) (a : Z) : Z := load m a 1.

(** ** Constants of both programs *)

Definition BS : Z := 4096.
Definition INODE_SIZE : Z := 128.
Definition ROOT_INO : Z := 1.
Definition DIRECT_MAX : Z := 12.
Definition DIRENT_SIZE : Z := 64.          (* sizeof(dirent64_t) *)
Definition SB_SIZE : Z := 116.             (* sizeof(superblock_t) *)
Definition MAGIC : Z := 0x4D565346.

(** Byte offsets of the packed [superblock_t] fields. *)
Module sb.
Definition magic : Z := 0.
Definition version : Z := 4.
Definition block_size : Z := 8.
Definition total_blocks : Z := 12.
Definition inode_count : Z := 20.
Definition inode_bitmap_start : Z := 28.
Definition inode_bitmap_blocks : Z := 36.
Definition data_bitmap_start : Z := 44.
Definition data_bitmap_blocks : Z := 52.
Definition inode_table_start : Z := 60.
Definition inode_table_blocks : Z := 68.
Definition data_region_start : Z := 76.
Definition data_region_blocks : Z := 84.
Definition root_inode : Z := 92.
Definition mtime_epoch : Z := 100.
Definition flags : Z := 108.
Definition checksum : Z := 112.
End sb.

(** Byte offsets of the packed [inode_t] fields. *)
Module ino.
Definition mode : Z := 0.
Definition links : Z := 2.
Definition uid : Z := 4.
Definition gid : Z := 8.
Definition size_bytes : Z := 12.
Definition atime : Z := 20.
Definition mtime : Z := 28.
Definition ctime : Z := 36.
Definition direct (i : Z) : Z := 44 + 4 * i.
Definition inode_crc : Z := 120.
End ino.

(** Byte offsets of the packed [dirent64_t] fields. *)
Module de.
Definition inode_no : Z := 0.
Definition type : Z := 4.
Definition name : Z := 5.
Definition checksum : Z := 63.
End de.

(** ** Checksums *)

(** One round of [crc32_init]'s inner loop:
    [c = (c&1) ? (0xEDB88320u ^ (c>>1)) : (c>>1)]. *)
Definition crc_round (c : Z) : Z :=
  if Z.eqb (Z.land c 1) 0 then Z.shiftr c 1
  else Z.lxor 0xEDB88320 (Z.shiftr c 1).

Definition crc_entry (i : Z) : Z :=
  crc_round (crc_round (crc_round (crc_round
    (crc_round (crc_round (crc_round (crc_round i))))))).

(** The table filled by [crc32_init]. *)
Definition CRC32_TAB : list Z :=
  Eval vm_compute in map (fun i => crc_entry (Z.of_nat i)) (seq 0 256).

(** [crc32(data, n)] with [n = |data|]:
    [c = CRC32_TAB[(c ^ p[i]) & 0xFF] ^ (c >> 8)]. *)
Definition crc32_step (c p : Z) : Z :=
  Z.lxor (nth (Z.to_nat (Z.land (Z.lxor c p) 255)) CRC32_TAB 0) (Z.shiftr c 8).

Definition crc32 (data : list Z) : Z :=
  Z.lxor (fold_left crc32_step data 0xFFFFFFFF) 0xFFFFFFFF.

(** [superblock_crc_finalize], on the 116 bytes of a local [superblock_t]:
    the checksum field is zeroed, the struct is copied into a zeroed block,
    and the CRC of the first [BS - 4] bytes of it is stored. *)
Definition superblock_crc_finalize (sbuf : list Z) : list Z :=
  let sbuf := store sbuf sb.checksum 4 0 in
  let block := memset (replicate (Z.to_nat BS) 0) 0 0 BS in
  let block := memcpy block 0 (bytes sbuf 0 SB_SIZE) in
  let s := crc32 (bytes block 0 (BS - 4)) in
  store sbuf sb.checksum 4 s.

(** [inode_crc_finalize(ino)] for the inode at offset [a] of buffer [m]. *)
Definition inode_crc_finalize (m : list Z) (a : Z) : list Z :=
  let tmp := bytes m a INODE_SIZE in
  let tmp := memset tmp 120 0 8 in
  let c := crc32 (bytes tmp 0 120) in
  store m (a + ino.inode_crc) 8 c.

(** [dirent_checksum_finalize(de)] on the 64 bytes of a local [dirent64_t]. *)
Definition dirent_checksum_finalize (d : list Z) : list Z :=
  let x := fold_left (fun x p => u8 (Z.lxor x p)) (bytes d 0 63) 0 in
  store d de.checksum 1 x.

(** ** Bitmaps *)

(** [test_bit(m + base, idx)]: [(bmap[idx >> 3] >> (idx & 7)) & 1u]. *)
Definition test_bit (m : list Z) (base idx : Z) : Z :=
  Z.land (Z.shiftr (peek m (base + Z.shiftr idx 3)) (Z.land idx 7)) 1.

(** [set_bit(m + base, idx)]: [bmap[idx >> 3] |= (uint8_t)(1u << (idx & 7))]. *)
Definition set_bit (m : list Z) (base idx : Z) : list Z :=
  let a := base + Z.shiftr idx 3 in
  store m a 1 (u8 (Z.lor (peek m a) (u8 (Z.shiftl 1 (Z.land idx 7))))).

(** ** mkfs_builder.c *)

Record builder_cli := { size_kib : Z; inodes : Z }.

(** The range checks of the builder's [parse_cli] on the parsed numbers. *)
Definition builder_cli_ok (c : builder_cli) : bool :=
  negb ((size_kib c <? 180) || (4096 <? size_kib c)
        || negb (size_kib c mod 4 =? 0))
  && negb ((inodes c <? 128) || (512 <? inodes c)).

(** The geometry computed at the head of the builder's [main]. *)
Definition total_blocks_of (c : builder_cli) : Z :=
  u64 (u64 (size_kib c * 1024) / BS).
Definition inodes_per_blk : Z := BS / INODE_SIZE.
Definition inode_tbl_blks_of (c : builder_cli) : Z :=
  u64 (u64 (inodes c + inodes_per_blk - 1) / inodes_per_blk).

(** The local [superblock_t sb] of the builder, checksummed. *)
Definition builder_superblock (c : builder_cli) (now : Z) : list Z :=
  let total_blocks := total_blocks_of c in
  let inode_tbl_blks := inode_tbl_blks_of c in
  let inode_table_start := 3 in
  let data_region_start := u64 (3 + inode_tbl_blks) in
  let data_region_blocks := u64 (total_blocks - data_region_start) in
  let s := replicate (Z.to_nat SB_SIZE) 0 in
  let s := store s sb.magic 4 MAGIC in
  let s := store s sb.version 4 1 in
  let s := store s sb.block_size 4 BS in
  let s := store s sb.total_blocks 8 total_blocks in
  let s := store s sb.inode_count 8 (inodes c) in
  let s := store s sb.inode_bitmap_start 8 1 in
  let s := store s sb.inode_bitmap_blocks 8 1 in
  let s := store s sb.data_bitmap_start 8 2 in
  let s := store s sb.data_bitmap_blocks 8 1 in
  let s := store s sb.inode_table_start 8 inode_table_start in
  let s := store s sb.inode_table_blocks 8 inode_tbl_blks in
  let s := store s sb.data_region_start 8 data_region_start in
  let s := store s sb.data_region_blocks 8 data_region_blocks in
  let s := store s sb.root_inode 8 ROOT_INO in
  let s := store s sb.mtime_epoch 8 (u64 now) in
  let s := store s sb.flags 4 0 in
  superblock_crc_finalize s.

(** The local [inode_t root] of the builder, checksummed. *)
Definition builder_root_inode (data_region_start now : Z) : list Z :=
  let r := replicate (Z.to_nat INODE_SIZE) 0 in
  let r := store r ino.mode 2 0x4000 in (* 0040000: directory *)
  let r := store r ino.links 2 2 in
  let r := store r ino.uid 4 0 in
  let r := store r ino.gid 4 0 in
  let r := store r ino.ctime 8 (u64 now) in
  let r := store r ino.mtime 8 (u64 now) in
  let r := store r ino.atime 8 (u64 now) in
  let r := store r ino.size_bytes 8 (2 * DIRENT_SIZE) in
  let r := store r (ino.direct 0) 4 (u32 (data_region_start + 0)) in
  inode_crc_finalize r 0.

(** The two local [dirent64_t de] values of the builder: "." and "..". *)
Definition builder_dot : list Z :=
  let d := replicate (Z.to_nat DIRENT_SIZE) 0 in
  let d := store d de.inode_no 4 ROOT_INO in
  let d := store d de.type 1 2 in
  let d := memset d de.name 0 58 in
  let d := store d (de.name + 0) 1 46 in
  dirent_checksum_finalize d.

Definition builder_dotdot : list Z :=
  let d := replicate (Z.to_nat DIRENT_SIZE) 0 in
  let d := store d de.inode_no 4 ROOT_INO in
  let d := store d de.type 1 2 in
  let d := store d (de.name + 0) 1 46 in
  let d := store d (de.name + 1) 1 46 in
  dirent_checksum_finalize d.

(** The image buffer of the builder's [main], from [calloc] to the last
    [memcpy].  [t_sb] and [t_root] are the values of the two [time(NULL)]
    calls. *)
Definition builder_image (c : builder_cli) (t_sb t_root : Z) : list Z :=
  let total_blocks := total_blocks_of c in
  let inode_tbl_blks := inode_tbl_blks_of c in
  (* calloc(total_blocks, BS) *)
  let img := replicate (Z.to_nat (total_blocks * BS)) 0 in
  let blk0 := BS * 0 in
  let blk1 := BS * 1 in
  let blk2 := BS * 2 in
  let inode_table_start := 3 in
  let data_region_start := u64 (3 + inode_tbl_blks) in
  (* superblock *)
  let sbuf := builder_superblock c t_sb in
  let img := memset img blk0 0 BS in
  let img := memcpy img blk0 sbuf in
  (* bitmaps *)
  let img := memset img blk1 0 BS in
  let img := memset img blk2 0 BS in
  let img := set_bit img blk1 0 in
  let img := set_bit img blk2 0 in
  (* inode table *)
  let itbl := u64 (BS * inode_table_start) in
  let img := memset img itbl 0 (inode_tbl_blks * BS) in
  let root := builder_root_inode data_region_start t_root in
  let img := memcpy img (itbl + 0 * INODE_SIZE) root in
  (* root directory block *)
  let rootblk := u32 (BS * load root (ino.direct 0) 4) in
  let img := memset img rootblk 0 BS in
  let img := memcpy img (rootblk + 0 * DIRENT_SIZE) builder_dot in
  memcpy img (rootblk + 1 * DIRENT_SIZE) builder_dotdot.

(** The builder's [main] after argument parsing: the exit code and, when the
    image file is written, its bytes.  Opening and writing the image file
    are taken to succeed. *)
Definition mkfs_builder (c : builder_cli) (t_sb t_root : Z)
  : Z * option (list Z) :=
  if negb (builder_cli_ok c) then (2, None) else
  let total_blocks := total_blocks_of c in
  let inode_tbl_blks := inode_tbl_blks_of c in
  if total_blocks <? u64 (3 + inode_tbl_blks + 1) then (3, None) else
  let img := builder_image c t_sb t_root in
  (0, Some (bytes img 0 (BS * total_blocks))).

(** ** mkfs_adder.c *)

(** What [stat] and the later [fread]s see of the [--file] argument. *)
Record file := { st_isreg : bool; st_size : Z; f_data : list Z }.

(** The outcome of a run of the adder: the exit code, the in-memory image
    buffer when [main] returns, the bytes written to [--output] (if any),
    and the locals [new_ino_idx], [db_idxs] and (root extension) [free_idx]. *)
Record result := {
  exit_code : Z;
  buffer : list Z;
  output : option (list Z);
  new_ino_idx : Z;
  db_idxs : list Z;
  free_idx : option Z
}.

(** A [return code;] before the output image is opened. *)
Definition stop (code : Z) (m : list Z) (idx : Z) (dbs : list Z) : result :=
  {| exit_code := code; buffer := m; output := None;
     new_ino_idx := idx; db_idxs := dbs; free_idx := None |}.

(** The final [return 0;], after [out] has been written to [--output]. *)
Definition finish (m out : list Z) (idx : Z) (dbs : list Z) (fi : option Z)
  : result :=
  {| exit_code := 0; buffer := m; output := Some out;
     new_ino_idx := idx; db_idxs := dbs; free_idx := fi |}.

(** [base_name]: the part of the path after its last '/'. *)
Fixpoint base_name (path : list Z) : list Z :=
  match path with
  | [] => []
  | c :: rest =>
      if existsb (Z.eqb 47) rest then base_name rest
      else if c =? 47 then rest else path
  end.

(** [strlen] of a C string held as the list of its bytes. *)
Fixpoint strlen (s : list Z) : Z :=
  match s with
  | [] => 0
  | c :: rest => if c =? 0 then 0 else 1 + strlen rest
  end.

(** [need_blocks = (uint32_t)((fsize + BS - 1) / BS)]. *)
Definition need_blocks (fsize : Z) : Z :=
  u32 (u64 (fsize + BS - 1) / BS).

(** First-fit scan [for (i = i0; i < i0 + n; i++) if (!test_bit(bmap, i))
    { idx = i; break; }]; [UINT32_MAX] when the loop finds nothing. *)
Fixpoint first_free (m : list Z) (base i : Z) (n : nat) : Z :=
  match n with
  | O => UINT32_MAX
  | S n' => if test_bit m base i =? 0 then i
            else first_free m base (i + 1) n'
  end.

(** [for (i = i0; i < limit && found < need; i++)
       if (!test_bit(data_bmap, i)) db_idxs[found++] = i;]
    with [want = need - found]. *)
Fixpoint scan_free (m : list Z) (base i : Z) (n : nat) (want : Z) : list Z :=
  match n with
  | O => []
  | S n' =>
      if want <=? 0 then []
      else if test_bit m base i =? 0
           then i :: scan_free m base (i + 1) n' (want - 1)
           else scan_free m base (i + 1) n' want
  end.

(** [for (i = 0; i < need_blocks; i++) set_bit(data_bmap, db_idxs[i]);] *)
Definition set_bits (m : list Z) (base : Z) (idxs : list Z) : list Z :=
  fold_left (fun m i => set_bit m base i) idxs m.

(** [for (i = i0; i < need_blocks; i++)
       ino->direct[i] = (uint32_t)(sb->data_region_start + db_idxs[i]);] *)
Fixpoint set_direct (m : list Z) (ino_a i : Z) (idxs : list Z) : list Z :=
  match idxs with
  | [] => m
  | x :: rest =>
      let v := u32 (u64 (load m sb.data_region_start 8 + x)) in
      set_direct (store m (ino_a + ino.direct i) 4 v) ino_a (i + 1) rest
  end.

(** The "Build inode" paragraph, on the inode at offset [ino_a]. *)
Definition build_inode (m : list Z) (ino_a fsize now : Z) (idxs : list Z)
  : list Z :=
  let m := memset m ino_a 0 INODE_SIZE in
  let m := store m (ino_a + ino.mode) 2 0x8000 in   (* 0100000: regular *)
  let m := store m (ino_a + ino.links) 2 1 in
  let m := store m (ino_a + ino.uid) 4 0 in
  let m := store m (ino_a + ino.gid) 4 0 in
  let m := store m (ino_a + ino.size_bytes) 8 fsize in
  let m := store m (ino_a + ino.ctime) 8 now in
  let m := store m (ino_a + ino.mtime) 8 now in
  let m := store m (ino_a + ino.atime) 8 now in
  let m := set_direct m ino_a 0 idxs in
  inode_crc_finalize m ino_a.

(** The "Write file data" loop from block [i] on, [n] blocks to go; [data]
    is what is left of the file stream.  The boolean is false when an
    [fread] comes back short (exit code 4). *)
Fixpoint write_blocks (m : list Z) (ino_a fsize need : Z) (data : list Z)
    (i : Z) (n : nat) : list Z * bool :=
  match n with
  | O => (m, true)
  | S n' =>
      let blk := u32 (BS * load m (ino_a + ino.direct i) 4) in
      let m := memset m blk 0 BS in
      let toread := if i + 1 <? need then BS
                    else u64 (fsize - u64 (i * BS)) in
      let chunk := take (Z.to_nat toread) data in
      let m := memcpy m blk chunk in
      if (0 <? toread) && negb (len chunk =? toread) then (m, false)
      else write_blocks m ino_a fsize need (drop (Z.to_nat toread) data)
                        (i + 1) n'
  end.

(** The local [dirent64_t ne] for the new file. *)
Definition new_dirent (ino_no : Z) (namebuf : list Z) (namelen : Z)
  : list Z :=
  let ne := replicate (Z.to_nat DIRENT_SIZE) 0 in
  let ne := store ne de.inode_no 4 ino_no in
  let ne := store ne de.type 1 1 in
  let ne := memcpy ne de.name (bytes namebuf 0 namelen) in
  dirent_checksum_finalize ne.

(** Inner loop of the directory scan: the offset of the first entry of the
    block at [blk], from slot [i] on, whose [inode_no] is 0. *)
Fixpoint find_free_dirent (m : list Z) (blk i : Z) (n : nat) : option Z :=
  match n with
  | O => None
  | S n' =>
      let e := blk + i * DIRENT_SIZE in
      if load m e 4 =? 0 then Some e
      else find_free_dirent m blk (i + 1) n'
  end.

(** Outer loop of the directory scan over [root->direct[d]]. *)
Fixpoint find_root_slot (m : list Z) (root d : Z) (n : nat) : option Z :=
  match n with
  | O => None
  | S n' =>
      let p := load m (root + ino.direct d) 4 in
      if p =? 0 then None
      else match find_free_dirent m (u32 (BS * p)) 0 64 with
           | Some e => Some e
           | None => find_root_slot m root (d + 1) n'
           end
  end.

(** [for (d = d0; d < DIRECT_MAX; d++) if (root->direct[d] == 0)
    { slot = d; break; }]; -1 when there is none. *)
Fixpoint find_direct_slot (m : list Z) (root d : Z) (n : nat) : Z :=
  match n with
  | O => -1
  | S n' => if load m (root + ino.direct d) 4 =? 0 then d
            else find_direct_slot m root (d + 1) n'
  end.

(** The four root updates that follow the insertion of an entry. *)
Definition touch_root (m : list Z) (root now : Z) : list Z :=
  let m := store m (root + ino.size_bytes) 8
             (u64 (load m (root + ino.size_bytes) 8 + DIRENT_SIZE)) in
  let m := store m (root + ino.ctime) 8 now in
  let m := store m (root + ino.mtime) 8 now in
  let m := store m (root + ino.links) 2
             (u16 (load m (root + ino.links) 2 + 1)) in
  inode_crc_finalize m root.

(** The adder's [main] after argument parsing.  [img] is the content of
    [--input], [src] what [stat] finds at [--file] ([None]: [stat] fails),
    [path] the [--file] string, [t_ino] and [t_dir] the two [time(NULL)]
    values.  Opening and writing [--output] are taken to succeed. *)
Definition mkfs_adder (img : list Z) (src : option file) (path : list Z)
    (t_ino t_dir : Z) : result :=
  let img_bytes := len img in
  if negb (img_bytes mod BS =? 0) then stop 1 img UINT32_MAX [] else
  let total_blocks := img_bytes / BS in
  (* Map SB and validate *)
  if negb (load img sb.magic 4 =? MAGIC)
     || negb (load img sb.version 4 =? 1)
     || negb (load img sb.block_size 4 =? BS)
  then stop 3 img UINT32_MAX [] else
  if negb (load img sb.total_blocks 8 =? total_blocks)
  then stop 3 img UINT32_MAX [] else
  let inode_bmap := u64 (BS * load img sb.inode_bitmap_start 8) in
  let data_bmap := u64 (BS * load img sb.data_bitmap_start 8) in
  let itbl := u64 (BS * load img sb.inode_table_start 8) in
  (* Read file to add *)
  match src with
  | None => stop 4 img UINT32_MAX []
  | Some f =>
  if negb (st_isreg f) then stop 4 img UINT32_MAX [] else
  let fsize := u64 (st_size f) in
  let need := need_blocks fsize in
  if DIRECT_MAX <? need then stop 5 img UINT32_MAX [] else
  (* First-fit free inode *)
  let idx := first_free img inode_bmap 0
               (Z.to_nat (u32 (load img sb.inode_count 8))) in
  if idx =? UINT32_MAX then stop 6 img idx [] else
  let new_ino_no := u32 (idx + 1) in
  (* First-fit free data blocks in data region *)
  let dbs := if need =? 0 then []
             else scan_free img data_bmap 0
                    (Z.to_nat (u32 (load img sb.data_region_blocks 8))) need in
  if negb (need =? 0) && (len dbs <? need) then stop 6 img idx dbs else
  (* Allocate bits *)
  let m := set_bit img inode_bmap idx in
  let m := set_bits m data_bmap dbs in
  (* Build inode *)
  let ino_a := itbl + INODE_SIZE * idx in
  let m := build_inode m ino_a fsize (u64 t_ino) dbs in
  (* Write file data *)
  let wb :=
    if need =? 0 then (m, true)
    else write_blocks m ino_a fsize need (f_data f) 0 (Z.to_nat need) in
  let m := fst wb in
  if negb (snd wb) then stop 4 m idx dbs else
  (* Add directory entry into root *)
  let root := itbl + INODE_SIZE * 0 in
  let now := u64 t_dir in
  let base := base_name path in
  let namelen := Z.min (strlen base) 58 in
  let namebuf := memcpy (replicate 58 0) 0 (bytes base 0 namelen) in
  let ne := new_dirent new_ino_no namebuf namelen in
  (* fwrite(img, BS, total_blocks, fo) *)
  let written (m : list Z) (fi : option Z) :=
    finish m (bytes m 0 (BS * total_blocks)) idx dbs fi in
  match find_root_slot m root 0 (Z.to_nat DIRECT_MAX) with
  | Some e =>
      let m := memcpy m e ne in
      let m := touch_root m root now in
      written m None
  | None =>
      (* Need to extend root with a new data block *)
      let slot := find_direct_slot m root 0 (Z.to_nat DIRECT_MAX) in
      if slot <? 0 then stop 7 m idx dbs else
      let fi := first_free m data_bmap 0
                  (Z.to_nat (u32 (load m sb.data_region_blocks 8))) in
      if fi =? UINT32_MAX then stop 7 m idx dbs else
      let m := set_bit m data_bmap fi in
      let abs := u32 (u64 (load m sb.data_region_start 8 + fi)) in
      let m := store m (root + ino.direct slot) 4 abs in
      let blk := u32 (BS * abs) in
      let m := memset m blk 0 BS in
      let m := memcpy m blk ne in
      let m := touch_root m root now in
      written m (Some fi)
  end
  end.

(** ** The shape of the images the two programs produce *)

(** [inode_no] of slot [s] of the block that [root->direct[d]] names. *)
Definition dirent_ino (m : list Z) (d s : Z) : Z :=
  load m (BS * load m (3 * BS + ino.direct d) 4 + DIRENT_SIZE * s) 4.

(** [image_inv m tb ic itb k j r c]: [m] is an image of [tb] blocks with
    [ic] inodes in [itb] inode-table blocks, laid out as the builder does;
    inodes [0 .. k-1] and data blocks [0 .. j-1] are the allocated ones;
    the root directory owns [r] blocks, all full but the last, whose first
    [c] slots are the occupied ones. *)
Record image_inv (m : list Z) (tb ic itb k j r c : Z) : Prop := {
  inv_len : len m = BS * tb;
  inv_magic : load m sb.magic 4 = MAGIC;
  inv_version : load m sb.version 4 = 1;
  inv_block_size : load m sb.block_size 4 = BS;
  inv_total_blocks : load m sb.total_blocks 8 = tb;
  inv_inode_count : load m sb.inode_count 8 = ic;
  inv_inode_bitmap_start : load m sb.inode_bitmap_start 8 = 1;
  inv_data_bitmap_start : load m sb.data_bitmap_start 8 = 2;
  inv_inode_table_start : load m sb.inode_table_start 8 = 3;
  inv_inode_table_blocks : load m sb.inode_table_blocks 8 = itb;
  inv_data_region_start : load m sb.data_region_start 8 = 3 + itb;
  inv_data_region_blocks : load m sb.data_region_blocks 8 = tb - (3 + itb);
  inv_root_inode : load m sb.root_inode 8 = ROOT_INO;
  inv_geom : 1 <= ic <= 32768 /\ ic * INODE_SIZE <= itb * BS /\
             3 + itb < tb <= 32768;
  inv_k : 1 <= k <= ic;
  inv_ibits : forall i, 0 <= i < ic ->
      test_bit m BS i = (if i <? k then 1 else 0);
  inv_j : 1 <= j <= tb - (3 + itb);
  inv_dbits : forall i, 0 <= i < tb - (3 + itb) ->
      test_bit m (2 * BS) i = (if i <? j then 1 else 0);
  inv_r : 1 <= r <= DIRECT_MAX;
  inv_c : 1 <= c <= 64;
  inv_count : 64 * (r - 1) + c = k + 1;
  inv_links : load m (3 * BS + ino.links) 2 = k + 1;
  inv_size : load m (3 * BS + ino.size_bytes) 8 = DIRENT_SIZE * (k + 1);
  inv_direct_used : forall d, 0 <= d < r ->
      3 + itb <= load m (3 * BS + ino.direct d) 4 < 3 + itb + j;
  inv_direct_inj : forall d d', 0 <= d < r -> 0 <= d' < r ->
      load m (3 * BS + ino.direct d) 4 = load m (3 * BS + ino.direct d') 4 ->
      d = d';
  inv_direct_free : forall d, r <= d < DIRECT_MAX ->
      load m (3 * BS + ino.direct d) 4 = 0;
  inv_full : forall d s, 0 <= d < r - 1 -> 0 <= s < 64 ->
      1 <= dirent_ino m d s <= k;
  inv_last_used : forall s, 0 <= s < c -> 1 <= dirent_ino m (r - 1) s <= k;
  inv_last_free : forall s, c <= s < 64 -> dirent_ino m (r - 1) s = 0;
  inv_root_mode : load m (3 * BS + ino.mode) 2 = 0x4000;
  inv_dot : dirent_ino m 0 0 = ROOT_INO;
  inv_dotdot : dirent_ino m 0 1 = ROOT_INO
}.

(** The bytes of the block that [direct[d]] of the inode at offset [ino_a]
    names (nothing for a null pointer), and their concatenation in pointer
    order. *)
Definition block_of (m : list Z) (ino_a d : Z) : list Z :=
  let p := load m (ino_a + ino.direct d) 4 in
  if p =? 0 then [] else bytes m (BS * p) BS.

Definition inode_blocks (m : list Z) (ino_a : Z) : list Z :=
  concat (map (block_of m ino_a) (seqZ 0 DIRECT_MAX)).

(** [added out res tb ic itb k j r c fsize]: [res] is the outcome of a run
    of the adder that, on an image of shape [image_inv _ tb ic itb k j r c]
    and for a file of [fsize] bytes, wrote the image [out]. *)
Record added (out : list Z) (res : result) (tb ic itb k j r c fsize : Z)
  : Prop := {
  add_exit : exit_code res = 0;
  add_buffer : buffer res = out;
  add_ino_idx : new_ino_idx res = k;
  add_db_idxs : db_idxs res = seqZ j (need_blocks fsize);
  add_free_idx :
    free_idx res = if c <? 64 then None else Some (j + need_blocks fsize);
  add_inv :
    image_inv out tb ic itb (k + 1)
      (j + need_blocks fsize + (if c <? 64 then 0 else 1))
      (if c <? 64 then r else r + 1)
      (if c <? 64 then c + 1 else 1);
  add_dirent :
    dirent_ino out (if c <? 64 then r - 1 else r) (if c <? 64 then c else 0)
    = k + 1;
  add_mode : load out (3 * BS + INODE_SIZE * k + ino.mode) 2 = 0x8000;
  add_links : load out (3 * BS + INODE_SIZE * k + ino.links) 2 = 1;
  add_size : load out (3 * BS + INODE_SIZE * k + ino.size_bytes) 8 = fsize;
  add_direct : forall d, 0 <= d < DIRECT_MAX ->
    load out (3 * BS + INODE_SIZE * k + ino.direct d) 4 =
    if d <? need_blocks fsize then 3 + itb + j + d else 0
}.

(** The entry the adder's [main] builds for the file at [path], to which
    it gave inode number [ino_no]: the base name, cut to the 58 bytes of
    the name field. *)
Definition adder_dirent (ino_no : Z) (path : list Z) : list Z :=
  let base := base_name path in
  let namelen := Z.min (strlen base) 58 in
  let namebuf := memcpy (replicate 58 0) 0 (bytes base 0 namelen) in
  new_dirent ino_no namebuf namelen.

(** [direct[d]] of inode index [i], and the offset of slot [s] of the root
    directory block [d]. *)
Definition direct_ptr (m : list Z) (i d : Z) : Z :=
  load m (3 * BS + INODE_SIZE * i + ino.direct d) 4.

Definition root_slot (m : list Z) (d s : Z) : Z :=
  BS * direct_ptr m 0 d + DIRENT_SIZE * s.

(** The byte [dirent_checksum_finalize] computes over the first 63 bytes
    of an entry. *)
Definition xor_bytes (bs : list Z) : Z :=
  fold_left (fun x p => u8 (Z.lxor x p)) bs 0.

(** [image_sound m tb ic itb k j r c]: on top of [image_inv], what the
    file inodes, the directory entries and the stored checksums of such an
    image satisfy.  Entry number [t >= 2] of the root directory names inode
    number [t]; a file inode has as many direct pointers as its size asks
    for; no block has two owners, and every block in use has one; every
    stored checksum is that of the bytes it covers. *)
Record image_sound (m : list Z) (tb ic itb k j r c : Z) : Prop := {
  snd_inv : image_inv m tb ic itb k j r c;
  snd_ic : ic <= 512;
  snd_entry : forall d s, 0 <= d < r -> 0 <= s < 64 ->
      2 <= 64 * d + s <= k -> dirent_ino m d s = 64 * d + s;
  snd_type : forall d s, 0 <= d < r -> 0 <= s < 64 -> 64 * d + s <= k ->
      load m (root_slot m d s + de.type) 1 =
      if 64 * d + s <? 2 then 2 else 1;
  snd_mode : forall i, 1 <= i < k ->
      load m (3 * BS + INODE_SIZE * i + ino.mode) 2 = 0x8000;
  snd_links : forall i, 1 <= i < k ->
      load m (3 * BS + INODE_SIZE * i + ino.links) 2 = 1;
  snd_direct : forall i d, 1 <= i < k -> 0 <= d < DIRECT_MAX ->
      if d <? need_blocks (load m (3 * BS + INODE_SIZE * i + ino.size_bytes) 8)
      then 3 + itb <= direct_ptr m i d < 3 + itb + j
      else direct_ptr m i d = 0;
  snd_apart : forall i d i' d', 0 <= i < k -> 0 <= i' < k ->
      0 <= d < DIRECT_MAX -> 0 <= d' < DIRECT_MAX ->
      direct_ptr m i d = direct_ptr m i' d' -> direct_ptr m i d <> 0 ->
      i = i' /\ d = d';
  snd_owned : forall b, 3 + itb <= b < 3 + itb + j ->
      exists i d, 0 <= i < k /\ 0 <= d < DIRECT_MAX /\ direct_ptr m i d = b;
  snd_sb_crc :
      load m sb.checksum 4 =
      crc32 (bytes (store m sb.checksum 4 0) 0 (BS - 4));
  snd_inode_crc : forall i, 0 <= i < k ->
      load m (3 * BS + INODE_SIZE * i + ino.inode_crc) 8 =
      crc32 (bytes m (3 * BS + INODE_SIZE * i) 120);
  snd_dirent_sum : forall d s, 0 <= d < r -> 0 <= s < 64 ->
      64 * d + s <= k ->
      load m (root_slot m d s + de.checksum) 1 =
      xor_bytes (bytes m (root_slot m d s) 63)
}.

(** The indices below [n] whose bit is clear in the bitmap at [base], in
    ascending order: what a first-fit scan can find. *)
Definition free_bits (m : list Z) (base n : Z) : list Z :=
  filter (fun i => test_bit m base i = 0) (seqZ 0 n).

(** ** Sequences of runs *)

(** The arguments of one run of the adder, besides the input image. *)
Record add_call := {
  a_src : option file;
  a_path : list Z;
  a_t_ino : Z;
  a_t_dir : Z
}.

Definition run_adder (img : list Z) (a : add_call) : result :=
  mkfs_adder img (a_src a) (a_path a) (a_t_ino a) (a_t_dir a).

(** The image on disk after a run: what the run wrote, or, when it wrote
    nothing, the image it was given. *)
Definition image_after (img : list Z) (res : result) : list Z :=
  match output res with Some out => out | None => img end.

(** The outcomes of a sequence of runs of [run], each on the image the runs
    before it left. *)
Section Runs.
Variable run : list Z -> add_call -> result.

Fixpoint outcomes (img : list Z) (calls : list add_call) : list result :=
  match calls with
  | [] => []
  | a :: rest =>
      let res := run img a in
      res :: outcomes (image_after img res) rest
  end.
End Runs.

Definition add_files : list Z -> list add_call -> list result :=
  outcomes run_adder.

(** The image a sequence of runs leaves. *)
Definition final_image (img : list Z) (calls : list add_call) : list Z :=
  fold_left (fun im a => image_after im (run_adder im a)) calls img.

Definition succeeded (res : result) : bool := exit_code res =? 0.

(** The data-bitmap indices a run marked: those of the file's blocks, then
    that of the block the root directory grew by. *)
Definition allocated_blocks (res : result) : list Z :=
  db_idxs res ++ match free_idx res with Some x => [x] | None => [] end.

(** A regular file holding [data], and a run that adds it at time 0. *)
Definition file_of (data : list Z) : file :=
  {| st_isreg := true; st_size := len data; f_data := data |}.

Definition call_of (data : list Z) (path : list Z) : add_call :=
  {| a_src := Some (file_of data); a_path := path;
     a_t_ino := 0; a_t_dir := 0 |}.

(** Two geometries the builder accepts: the smallest image with the fewest
    inodes, and the smallest image with the most inodes. *)
Definition small_cli : builder_cli := {| size_kib := 180; inodes := 128 |}.
Definition tight_cli : builder_cli := {| size_kib := 180; inodes := 512 |}.

(** The images the builder writes, and those the adder writes from them. *)
Inductive reachable : list Z -> Prop :=
| reach_format c t_sb t_root img :
    mkfs_builder c t_sb t_root = (0, Some img) -> reachable img
| reach_add img a out :
    reachable img -> output (run_adder img a) = Some out -> reachable out.

(** [same_outside lo hi m m']: [m'] has the size of [m] and agrees with it
    on every byte outside [[lo, hi)]. *)
Definition same_outside (lo hi : Z) (m m' : list Z) : Prop :=
  len m' = len m /\
  forall b n, 0 <= b -> b + n <= lo \/ hi <= b -> bytes m' b n = bytes m b n.

(** ** Command lines *)

(** A C string as the list of its bytes, without the terminating NUL. *)
Definition str (s : String.string) : list Z :=
  map (fun a => Z.of_N (Ascii.N_of_ascii a)) (String.list_ascii_of_string s).
Arguments str s%_string_scope.

(** [!strcmp(a, b)]. *)
Definition streq (a b : list Z) : bool := bool_decide (a = b).




(** The builder's [cli_t] during the parse: [image] is [NULL] and the two
    numbers are 0 after the [memset]. *)
Record builder_args := {
  image : option (list Z);
  numbers : builder_cli
}.

Section BuilderCli.
(** [strtoul(s, NULL, 10)], a value of type [unsigned long]. *)
Variable strtoul : list Z -> Z.

(** The loop of the builder's [parse_cli]; the numbers are stored as
    [(uint32_t)strtoul(...)]. *)
Fixpoint builder_parse_args (args : list (list Z)) (c : builder_args)
  : option builder_args :=
  match args with
  | [] => Some c
  | a :: rest =>
      match rest with
      | v :: rest' =>
          if streq a (str "--image") then
            builder_parse_args rest'
              {| image := Some v; numbers := numbers c |}
          else if streq a (str "--size-kib") then
            builder_parse_args rest'
              {| image := image c;
                 numbers := {| size_kib := u32 (strtoul v);
                               inodes := inodes (numbers c) |} |}
          else if streq a (str "--inodes") then
            builder_parse_args rest'
              {| image := image c;
                 numbers := {| size_kib := size_kib (numbers c);
                               inodes := u32 (strtoul v) |} |}
          else None
      | [] => None
      end
  end.

(** The builder's [parse_cli]: the image path and the two numbers for a
    return of 0, [None] for [-1] (on which [main] returns 2). *)
Definition builder_parse_cli (argv : list (list Z))
  : option (list Z * builder_cli) :=
  match builder_parse_args (tail argv)
          {| image := None;
             numbers := {| size_kib := 0; inodes := 0 |} |} with
  | Some {| image := Some p; numbers := c |} =>
      if builder_cli_ok c then Some (p, c) else None
  | _ => None
  end.

(** The builder's [main] from [argv]: exit code and bytes written. *)
Definition builder_main (argv : list (list Z)) (t_sb t_root : Z)
  : Z * option (list Z) :=
  match builder_parse_cli argv with
  | None => (2, None)
  | Some (_, c) => mkfs_builder c t_sb t_root
  end.
End BuilderCli.

(** ** minivsfs_ls.c *)

(** What the lister prints on [stdout], one constructor per [printf] with
    the values of its arguments: the geometry line, the line of the root
    inode, the note on a root without a block, and one line per entry. *)
Inductive ls_line :=
| ls_header (blocks inode_cnt tbl_start tbl_end data_start : Z)
| ls_root (links size first_blk : Z)
| ls_no_block
| ls_entry (i ino_no type : Z) (name : list Z).

(** [(long)x] for an unsigned 64-bit [x], [long] having 64 bits. *)
Definition to_long (x : Z) : Z := if x <? 2 ^ 63 then x else x - 2 ^ 64.

(** What [%.*s] with precision [n] prints of a [char] array: its bytes up
    to the first NUL, [n] of them at most. *)
Fixpoint print_str (n : nat) (s : list Z) : list Z :=
  match n, s with
  | S n', ch :: rest => if ch =? 0 then [] else ch :: print_str n' rest
  | _, _ => []
  end.

(** [fread(buf, 1, n, f)] at offset [pos] of a file holding [file]: the
    bytes read, fewer than [n] where the file ends. *)
Definition fread (file : list Z) (pos n : Z) : list Z := bytes file pos n.

(** The loop over the entries of the first root directory block, from
    entry [i] on, the file position being [pos]: a short read ends the
    loop, an entry with [inode_no == 0] is skipped. *)
Fixpoint ls_entries (file : list Z) (pos i : Z) (n : nat) : list ls_line :=
  match n with
  | O => []
  | S n' =>
      let e := fread file pos DIRENT_SIZE in
      if negb (len e =? DIRENT_SIZE) then [] else
      let rest := ls_entries file (pos + DIRENT_SIZE) (i + 1) n' in
      if load e de.inode_no 4 =? 0 then rest
      else ls_entry i (load e de.inode_no 4) (load e de.type 1)
             (print_str 58 (bytes e de.name 58)) :: rest
  end.

(** [main] of the lister: the exit code and the lines printed.  [file] is
    the content of [argv[1]], [None] when it cannot be opened.  [fseek]
    fails on a negative offset and on no other. *)
Definition minivsfs_ls (argc : Z) (file : option (list Z))
  : Z * list ls_line :=
  if negb (argc =? 2) then (1, []) else
  match file with
  | None => (1, [])
  | Some f =>
  let sbuf := fread f 0 SB_SIZE in
  if negb (len sbuf =? SB_SIZE) then (1, []) else
  if negb (load sbuf sb.magic 4 =? MAGIC)
     || negb (load sbuf sb.block_size 4 =? BS)
  then (2, []) else
  let tbl := load sbuf sb.inode_table_start 8 in
  let header :=
    ls_header (load sbuf sb.total_blocks 8) (load sbuf sb.inode_count 8)
      tbl (u64 (tbl + load sbuf sb.inode_table_blocks 8))
      (load sbuf sb.data_region_start 8) in
  (* read inode #1 (index 0) *)
  let off := to_long (u64 (tbl * BS)) in
  if off <? 0 then (3, [header]) else
  let ibuf := fread f off INODE_SIZE in
  if negb (len ibuf =? INODE_SIZE) then (3, [header]) else
  let first := load ibuf (ino.direct 0) 4 in
  let root :=
    ls_root (load ibuf ino.links 2) (load ibuf ino.size_bytes 8) first in
  (* dump first root dir block *)
  if first =? 0 then (0, [header; root; ls_no_block]) else
  let off := u32 (first * BS) in
  if off <? 0 then (4, [header; root]) else
  (0, header :: root :: ls_entries f off 0 64)
  end.

(** The line the lister prints for entry [s] of the block at [blk]. *)
Definition entry_line (m : list Z) (blk s : Z) : ls_line :=
  let e := blk + DIRENT_SIZE * s in
  ls_entry s (load m (e + de.inode_no) 4) (load m (e + de.type) 1)
    (print_str 58 (bytes m (e + de.name) 58)).

(** ** Lemmas on the byte buffer *)

Lemma len_nonneg m : 0 <= len m.
Proof. unfold len. lia. Qed.

Lemma len_cons (x : Z) l : len (x :: l) = 1 + len l.
Proof. unfold len. cbn [length]. lia. Qed.

Lemma len_seqZ a n : 0 <= n -> len (seqZ a n) = n.
Proof. intros. unfold len. rewrite length_seqZ. lia. Qed.

Lemma len_replicate n (x : Z) : 0 <= n -> len (replicate (Z.to_nat n) x) = n.
Proof. intros. unfold len. rewrite length_replicate. lia. Qed.

Lemma memcpy_fits m a d :
  0 <= a -> a + len d <= len m ->
  memcpy m a d = take (Z.to_nat a) m ++ d ++ drop (Z.to_nat a + length d) m.
Proof.
  intros. unfold memcpy.
  destruct (Z.leb_spec 0 a); [|lia].
  destruct (Z.leb_spec (a + len d) (len m)); [done|lia].
Qed.

Lemma memcpy_cases m a d :
  (0 <= a /\ a + len d <= len m /\
   memcpy m a d = take (Z.to_nat a) m ++ d ++ drop (Z.to_nat a + length d) m)
  \/ memcpy m a d = m.
Proof.
  unfold memcpy.
  destruct (Z.leb_spec 0 a); [|by right].
  destruct (Z.leb_spec (a + len d) (len m)); [left|by right]. done.
Qed.

Lemma len_memcpy m a d : len (memcpy m a d) = len m.
Proof.
  destruct (memcpy_cases m a d) as [(Ha & Hb & ->)| ->]; [|done].
  unfold len in *. rewrite !length_app, length_take, length_drop. lia.
Qed.

Lemma len_memset m a v n : len (memset m a v n) = len m.
Proof. apply len_memcpy. Qed.

Lemma len_bytes m a n :
  0 <= a -> 0 <= n -> a + n <= len m -> len (bytes m a n) = n.
Proof.
  unfold len, bytes. intros.
  rewrite length_take, length_drop. lia.
Qed.

Lemma length_le_encode n v : length (le_encode n v) = n.
Proof. revert v. induction n; intros; simpl; [done | by rewrite IHn]. Qed.

Lemma len_le_encode n v : len (le_encode n v) = Z.of_nat n.
Proof. unfold len. by rewrite length_le_encode. Qed.

Lemma len_store m a n v : len (store m a n v) = len m.
Proof. apply len_memcpy. Qed.

Lemma lookup_memcpy_lt m a d (i : nat) :
  Z.of_nat i < a -> memcpy m a d !! i = m !! i.
Proof.
  intros Hi. destruct (memcpy_cases m a d) as [(Ha & Hb & ->)| ->]; [|done].
  unfold len in *.
  rewrite lookup_app_l by (rewrite length_take; lia).
  apply lookup_take_lt. lia.
Qed.

Lemma lookup_memcpy_ge m a d (i : nat) :
  a + len d <= Z.of_nat i -> memcpy m a d !! i = m !! i.
Proof.
  intros Hi. destruct (memcpy_cases m a d) as [(Ha & Hb & ->)| ->]; [|done].
  unfold len in *.
  rewrite lookup_app_r by (rewrite length_take; lia).
  rewrite lookup_app_r by (rewrite length_take; lia).
  rewrite lookup_drop. f_equal. rewrite length_take. lia.
Qed.

Lemma lookup_memcpy_in m a d (i : nat) :
  0 <= a -> a + len d <= len m -> a <= Z.of_nat i < a + len d ->
  memcpy m a d !! i = d !! (i - Z.to_nat a)%nat.
Proof.
  intros Ha Hb Hi. rewrite memcpy_fits by done. unfold len in *.
  rewrite lookup_app_r by (rewrite length_take; lia).
  rewrite lookup_app_l by (rewrite length_take; lia).
  f_equal. rewrite length_take. lia.
Qed.

Lemma lookup_bytes m a n (i : nat) :
  0 <= a -> (Z.of_nat i < n) ->
  bytes m a n !! i = m !! (Z.to_nat a + i)%nat.
Proof.
  unfold bytes. intros Ha Hi.
  rewrite lookup_take_lt by lia. by rewrite lookup_drop.
Qed.

Lemma bytes_ext m1 m2 a n :
  0 <= a ->
  (forall i : nat, a <= Z.of_nat i < a + n -> m1 !! i = m2 !! i) ->
  bytes m1 a n = bytes m2 a n.
Proof.
  intros Ha H. apply list_eq. intros i. unfold bytes.
  destruct (decide (i < Z.to_nat n)%nat) as [Hi|Hi].
  - rewrite !lookup_take_lt by lia. rewrite !lookup_drop. apply H. lia.
  - rewrite !lookup_take_ge by lia. done.
Qed.

(** A copy leaves every range that it does not touch as it was. *)
Lemma bytes_memcpy_disj m a d b n :
  0 <= b -> b + n <= a \/ a + len d <= b ->
  bytes (memcpy m a d) b n = bytes m b n.
Proof.
  intros Hb0 Hd. apply bytes_ext; [done|]. intros i Hi.
  destruct Hd.
  - apply lookup_memcpy_lt; lia.
  - apply lookup_memcpy_ge; lia.
Qed.

(** Reading inside the copied range gives the copied bytes. *)
Lemma bytes_memcpy_in m a d b n :
  0 <= a -> a + len d <= len m -> a <= b -> 0 <= n -> b + n <= a + len d ->
  bytes (memcpy m a d) b n = bytes d (b - a) n.
Proof.
  intros Ha Hb Hab Hn Hbn. apply list_eq. intros i.
  destruct (decide (i < Z.to_nat n)%nat) as [Hi|Hi].
  - rewrite !lookup_bytes by lia.
    rewrite lookup_memcpy_in by lia. f_equal. lia.
  - unfold bytes. rewrite !lookup_take_ge by lia. done.
Qed.

Lemma bytes_all d : bytes d 0 (len d) = d.
Proof.
  unfold bytes, len. rewrite Nat2Z.id. simpl. apply take_ge. lia.
Qed.

Lemma bytes_memcpy_same m a d :
  0 <= a -> a + len d <= len m ->
  bytes (memcpy m a d) a (len d) = d.
Proof.
  intros. pose proof (len_nonneg d).
  rewrite bytes_memcpy_in by lia.
  replace (a - a) with 0 by lia. apply bytes_all.
Qed.

Lemma bytes_bytes m a n b k :
  0 <= a -> 0 <= b -> 0 <= k -> b + k <= n ->
  bytes (bytes m a n) b k = bytes m (a + b) k.
Proof.
  intros. apply list_eq. intros i.
  destruct (decide (i < Z.to_nat k)%nat) as [Hi|Hi].
  - rewrite !lookup_bytes by lia. f_equal. lia.
  - unfold bytes. rewrite !lookup_take_ge by lia. done.
Qed.

Lemma bytes_replicate n (x : Z) b k :
  0 <= b -> 0 <= k -> b + k <= n ->
  bytes (replicate (Z.to_nat n) x) b k = replicate (Z.to_nat k) x.
Proof.
  intros. apply list_eq. intros i.
  destruct (decide (i < Z.to_nat k)%nat) as [Hi|Hi].
  - rewrite lookup_bytes by lia.
    rewrite !lookup_replicate_2 by lia. done.
  - unfold bytes. rewrite lookup_take_ge by lia.
    symmetry. apply lookup_replicate_None. lia.
Qed.

Lemma memcpy_nil m a : memcpy m a [] = m.
Proof.
  destruct (memcpy_cases m a []) as [(Ha & Hb & ->)| ->]; [|done].
  simpl. rewrite Nat.add_0_r. apply take_drop.
Qed.

Lemma le_decode_encode n v :
  le_decode (le_encode n v) = v mod 256 ^ Z.of_nat n.
Proof.
  revert v. induction n as [|n IH]; intros v.
  - simpl. by rewrite Z.mod_1_r.
  - cbn [le_encode le_decode]. rewrite IH.
    rewrite Nat2Z.inj_succ, Z.pow_succ_r by lia.
    rewrite Z.rem_mul_r by lia. lia.
Qed.

Lemma load_store_same m a n v :
  0 <= a -> a + Z.of_nat n <= len m ->
  load (store m a n v) a n = v mod 256 ^ Z.of_nat n.
Proof.
  intros. unfold load, store.
  pose proof (bytes_memcpy_same m a (le_encode n v)) as E.
  rewrite len_le_encode in E. rewrite E by lia.
  apply le_decode_encode.
Qed.

Lemma load_store_disj m a n v b k :
  0 <= b -> b + Z.of_nat k <= a \/ a + Z.of_nat n <= b ->
  load (store m a n v) b k = load m b k.
Proof.
  intros. unfold load, store.
  rewrite bytes_memcpy_disj by (rewrite ?len_le_encode; lia). done.
Qed.

Lemma load_in_bytes m a n b k :
  0 <= a -> 0 <= b -> b + Z.of_nat k <= n ->
  load (bytes m a n) b k = load m (a + b) k.
Proof. intros. unfold load. rewrite bytes_bytes by lia. done. Qed.

Lemma load_memcpy_in m a d b k :
  0 <= a -> a + len d <= len m -> a <= b -> b + Z.of_nat k <= a + len d ->
  load (memcpy m a d) b k = load d (b - a) k.
Proof. intros. unfold load. rewrite bytes_memcpy_in by lia. done. Qed.

Lemma load_memcpy_disj m a d b k :
  0 <= b -> b + Z.of_nat k <= a \/ a + len d <= b ->
  load (memcpy m a d) b k = load m b k.
Proof. intros. unfold load. rewrite bytes_memcpy_disj by lia. done. Qed.

Lemma load_zeros n b k :
  0 <= b -> b + Z.of_nat k <= n ->
  load (replicate (Z.to_nat n) 0) b k = 0.
Proof.
  intros. unfold load. rewrite bytes_replicate by lia.
  rewrite Nat2Z.id. clear. induction k; simpl; [done | lia].
Qed.

Lemma load_memset_in m a n b k :
  0 <= a -> 0 <= n -> a + n <= len m -> a <= b -> b + Z.of_nat k <= a + n ->
  load (memset m a 0 n) b k = 0.
Proof.
  intros. unfold memset.
  rewrite load_memcpy_in by (rewrite ?len_replicate; lia).
  apply load_zeros; lia.
Qed.

Lemma load_memset_disj m a v n b k :
  0 <= n -> 0 <= b -> b + Z.of_nat k <= a \/ a + n <= b ->
  load (memset m a v n) b k = load m b k.
Proof.
  intros. unfold memset.
  apply load_memcpy_disj; rewrite ?len_replicate; lia.
Qed.

Lemma load_nonneg_bound m a n :
  Forall (fun b => 0 <= b < 256) m ->
  0 <= load m a n < 256 ^ Z.of_nat n.
Proof.
  intros Hm. unfold load.
  assert (Hb : Forall (fun b => 0 <= b < 256) (bytes m a (Z.of_nat n))).
  { unfold bytes. by apply Forall_take, Forall_drop. }
  assert (Hl : (length (bytes m a (Z.of_nat n)) <= n)%nat).
  { unfold bytes. rewrite length_take. lia. }
  revert Hb Hl. generalize (bytes m a (Z.of_nat n)). clear.
  induction n as [|n IH]; intros l Hb Hl.
  - destruct l; simpl in *; [lia|lia].
  - destruct l as [|b l]; simpl le_decode.
    + split; [lia|]. apply Z.pow_pos_nonneg; lia.
    + inversion Hb; subst. simpl in Hl.
      specialize (IH l ltac:(done) ltac:(lia)).
      rewrite Nat2Z.inj_succ, Z.pow_succ_r by lia. lia.
Qed.

(** ** Frames: what a write leaves alone *)

Lemma same_outside_refl lo hi m : same_outside lo hi m m.
Proof. split; done. Qed.

Lemma same_outside_trans lo hi m1 m2 m3 :
  same_outside lo hi m1 m2 -> same_outside lo hi m2 m3 ->
  same_outside lo hi m1 m3.
Proof.
  intros [L1 F1] [L2 F2]. split; [congruence|].
  intros b n Hb Hd. rewrite F2, F1; done.
Qed.

Lemma same_outside_weaken lo hi lo' hi' m m' :
  same_outside lo hi m m' -> lo' <= lo -> hi <= hi' ->
  same_outside lo' hi' m m'.
Proof.
  intros [L F] Hlo Hhi. split; [done|].
  intros b n Hb Hd. apply F; lia.
Qed.

Lemma same_outside_memcpy m a d :
  same_outside a (a + len d) m (memcpy m a d).
Proof.
  split; [by apply len_memcpy|].
  intros b n Hb Hd. apply bytes_memcpy_disj; done.
Qed.

Lemma same_outside_memset m a v n :
  0 <= n -> same_outside a (a + n) m (memset m a v n).
Proof.
  intros. unfold memset.
  pose proof (same_outside_memcpy m a (replicate (Z.to_nat n) v)) as S.
  rewrite len_replicate in S by lia. apply S; lia.
Qed.

Lemma same_outside_store m a n v :
  same_outside a (a + Z.of_nat n) m (store m a n v).
Proof.
  unfold store.
  pose proof (same_outside_memcpy m a (le_encode n v)) as S.
  rewrite len_le_encode in S. apply S; lia.
Qed.

Lemma load_frame lo hi m m' a n :
  same_outside lo hi m m' -> 0 <= a ->
  a + Z.of_nat n <= lo \/ hi <= a ->
  load m' a n = load m a n.
Proof. intros [_ F] Ha Hd. unfold load. by rewrite F. Qed.

Lemma bytes_frame lo hi m m' a n :
  same_outside lo hi m m' -> 0 <= a ->
  a + n <= lo \/ hi <= a ->
  bytes m' a n = bytes m a n.
Proof. intros [_ F] Ha Hd. by apply F. Qed.

Lemma len_frame lo hi m m' : same_outside lo hi m m' -> len m' = len m.
Proof. by intros [L _]. Qed.

(** ** Bitmaps *)

Lemma shiftr3 i : Z.shiftr i 3 = i / 8.
Proof. by rewrite Z.shiftr_div_pow2. Qed.

Lemma land7 i : Z.land i 7 = i mod 8.
Proof. change 7 with (Z.ones 3). by rewrite Z.land_ones. Qed.

Lemma test_bit_spec m base i :
  test_bit m base i =
  Z.b2z (Z.testbit (peek m (base + i / 8)) (i mod 8)).
Proof.
  unfold test_bit. rewrite shiftr3, land7.
  pose proof (Z.mod_pos_bound i 8).
  rewrite Z.testbit_spec' by lia.
  change 1 with (Z.ones 1). rewrite Z.land_ones by lia.
  rewrite Z.shiftr_div_pow2 by lia. done.
Qed.

Lemma test_bit_01 m base i : test_bit m base i = 0 \/ test_bit m base i = 1.
Proof. rewrite test_bit_spec. destruct (Z.testbit _ _); auto. Qed.

Lemma test_bit_frame lo hi m m' base i :
  same_outside lo hi m m' -> 0 <= base -> 0 <= i ->
  base + i / 8 < lo \/ hi <= base + i / 8 ->
  test_bit m' base i = test_bit m base i.
Proof.
  intros S Hb Hi Hd. rewrite !test_bit_spec. unfold peek.
  pose proof (Z.div_pos i 8).
  rewrite (load_frame lo hi m m') by (try done; lia). done.
Qed.

Lemma same_outside_set_bit m base i :
  same_outside (base + i / 8) (base + i / 8 + 1) m (set_bit m base i).
Proof.
  unfold set_bit. rewrite shiftr3.
  apply (same_outside_store m _ 1).
Qed.

Lemma len_set_bit m base i : len (set_bit m base i) = len m.
Proof. apply len_store. Qed.

Lemma peek_set_bit m base i :
  0 <= base -> 0 <= i -> base + i / 8 < len m ->
  peek (set_bit m base i) (base + i / 8) =
  Z.lor (peek m (base + i / 8)) (2 ^ (i mod 8)) mod 256.
Proof.
  intros. unfold set_bit, peek. rewrite shiftr3, land7.
  pose proof (Z.div_pos i 8). pose proof (Z.mod_pos_bound i 8).
  rewrite load_store_same by lia.
  unfold u8. change (256 ^ Z.of_nat 1) with 256. change (2 ^ 8) with 256.
  rewrite Z.mod_mod by lia.
  rewrite Z.shiftl_1_l.
  rewrite (Z.mod_small (2 ^ (i mod 8))); [done|].
  split; [lia|]. change 256 with (2 ^ 8). apply Z.pow_lt_mono_r; lia.
Qed.

Lemma test_bit_set_bit_same m base i :
  0 <= base -> 0 <= i -> base + i / 8 < len m ->
  test_bit (set_bit m base i) base i = 1.
Proof.
  intros. rewrite test_bit_spec, peek_set_bit by done.
  pose proof (Z.mod_pos_bound i 8).
  change 256 with (2 ^ 8).
  rewrite Z.mod_pow2_bits_low by lia.
  rewrite Z.lor_spec, Z.pow2_bits_true by lia.
  by rewrite orb_true_r.
Qed.

Lemma test_bit_set_bit_other m base i i' :
  0 <= base -> 0 <= i -> 0 <= i' -> i <> i' ->
  test_bit (set_bit m base i) base i' = test_bit m base i'.
Proof.
  intros Hb Hi Hi' Hne.
  destruct (decide (i / 8 = i' / 8)) as [E|E].
  - destruct (decide (base + i / 8 < len m)) as [Hl|Hl].
    + rewrite !test_bit_spec. rewrite <- E.
      rewrite peek_set_bit by done.
      pose proof (Z.mod_pos_bound i 8). pose proof (Z.mod_pos_bound i' 8).
      change 256 with (2 ^ 8).
      rewrite Z.mod_pow2_bits_low by lia.
      rewrite Z.lor_spec, Z.pow2_bits_false; [by rewrite orb_false_r|].
      intros E'. apply Hne.
      rewrite (Z.div_mod i 8), (Z.div_mod i' 8) by lia. congruence.
    + unfold set_bit, store. rewrite shiftr3.
      unfold memcpy. rewrite len_le_encode.
      destruct (Z.leb_spec (base + i / 8 + Z.of_nat 1) (len m));
        [lia|]. by rewrite andb_false_r.
  - pose proof (Z.div_pos i 8). pose proof (Z.div_pos i' 8).
    eapply test_bit_frame; [by apply same_outside_set_bit| done | done |lia].
Qed.

(** ** Machine integers in range *)

Lemma u64_small x : 0 <= x < 2 ^ 64 -> u64 x = x.
Proof. intros. unfold u64. by apply Z.mod_small. Qed.

Lemma u32_small x : 0 <= x < 2 ^ 32 -> u32 x = x.
Proof. intros. unfold u32. by apply Z.mod_small. Qed.

Lemma u16_small x : 0 <= x < 2 ^ 16 -> u16 x = x.
Proof. intros. unfold u16. by apply Z.mod_small. Qed.

Lemma u8_small x : 0 <= x < 2 ^ 8 -> u8 x = x.
Proof. intros. unfold u8. by apply Z.mod_small. Qed.

Create HintDb consts.
#[local] Hint Unfold BS INODE_SIZE ROOT_INO DIRECT_MAX DIRENT_SIZE SB_SIZE
  MAGIC UINT32_MAX
  sb.magic sb.version sb.block_size sb.total_blocks sb.inode_count
  sb.inode_bitmap_start sb.inode_bitmap_blocks sb.data_bitmap_start
  sb.data_bitmap_blocks sb.inode_table_start sb.inode_table_blocks
  sb.data_region_start sb.data_region_blocks sb.root_inode sb.mtime_epoch
  sb.flags sb.checksum
  ino.mode ino.links ino.uid ino.gid ino.size_bytes ino.atime ino.mtime
  ino.ctime ino.direct ino.inode_crc
  de.inode_no de.type de.name de.checksum inodes_per_blk : consts.

Ltac consts := repeat autounfold with consts in *.

Create Rewrite HintDb len.
#[local] Hint Rewrite len_store len_memcpy len_memset len_set_bit
  len_le_encode : len.

(** Side conditions of the buffer lemmas: constants unfolded, sizes
    rewritten, linear arithmetic. *)
Ltac side :=
  consts; autorewrite with len;
  rewrite ?len_replicate by lia;
  try lia.

Lemma load_store_same1 m a v :
  0 <= a -> a + 1 <= len m -> load (store m a 1 v) a 1 = u8 v.
Proof. intros. rewrite load_store_same by lia. done. Qed.

Lemma load_store_same2 m a v :
  0 <= a -> a + 2 <= len m -> load (store m a 2 v) a 2 = u16 v.
Proof. intros. rewrite load_store_same by lia. done. Qed.

Lemma load_store_same4 m a v :
  0 <= a -> a + 4 <= len m -> load (store m a 4 v) a 4 = u32 v.
Proof. intros. rewrite load_store_same by lia. done. Qed.

Lemma load_store_same8 m a v :
  0 <= a -> a + 8 <= len m -> load (store m a 8 v) a 8 = u64 v.
Proof. intros. rewrite load_store_same by lia. done. Qed.

Lemma load_set_bit_disj m base i b k :
  0 <= b -> b + Z.of_nat k <= base + i / 8 \/ base + i / 8 + 1 <= b ->
  load (set_bit m base i) b k = load m b k.
Proof.
  intros. eapply load_frame; [apply same_outside_set_bit|done|done].
Qed.

Lemma test_bit_same_byte m m' base i :
  peek m' (base + i / 8) = peek m (base + i / 8) ->
  test_bit m' base i = test_bit m base i.
Proof. intros E. by rewrite !test_bit_spec, E. Qed.

Lemma test_bit_memcpy_disj m a d base i :
  0 <= base -> 0 <= i ->
  base + i / 8 < a \/ a + len d <= base + i / 8 ->
  test_bit (memcpy m a d) base i = test_bit m base i.
Proof.
  intros. apply test_bit_same_byte. unfold peek.
  apply load_memcpy_disj; lia.
Qed.

Lemma test_bit_memset_disj m a v n base i :
  0 <= n -> 0 <= base -> 0 <= i ->
  base + i / 8 < a \/ a + n <= base + i / 8 ->
  test_bit (memset m a v n) base i = test_bit m base i.
Proof.
  intros. apply test_bit_same_byte. unfold peek.
  apply load_memset_disj; lia.
Qed.

Lemma test_bit_store_disj m a n v base i :
  0 <= base -> 0 <= i ->
  base + i / 8 < a \/ a + Z.of_nat n <= base + i / 8 ->
  test_bit (store m a n v) base i = test_bit m base i.
Proof.
  intros. apply test_bit_same_byte. unfold peek.
  apply load_store_disj; lia.
Qed.

Lemma test_bit_set_bit_disj m base' i' base i :
  0 <= base -> 0 <= i ->
  base + i / 8 < base' + i' / 8 \/ base' + i' / 8 + 1 <= base + i / 8 ->
  test_bit (set_bit m base' i') base i = test_bit m base i.
Proof.
  intros. apply test_bit_same_byte. unfold peek.
  apply load_set_bit_disj; lia.
Qed.

Lemma test_bit_memset_in m a n base i :
  0 <= a -> 0 <= n -> a + n <= len m -> 0 <= i ->
  a <= base + i / 8 < a + n ->
  test_bit (memset m a 0 n) base i = 0.
Proof.
  intros. rewrite test_bit_spec. unfold peek.
  rewrite load_memset_in by lia. by rewrite Z.bits_0.
Qed.

Ltac peel_bit :=
  repeat first
    [ rewrite test_bit_store_disj by side
    | rewrite test_bit_memcpy_disj by side
    | rewrite test_bit_memset_disj by side
    | rewrite test_bit_set_bit_disj by side ].

(** Peel the writes that do not touch the loaded field. *)
Ltac peel :=
  repeat first
    [ rewrite load_store_disj by side
    | rewrite load_memcpy_disj by side
    | rewrite load_memset_disj by side
    | rewrite load_set_bit_disj by side ].

(** A copy into a zeroed range. *)
Lemma bytes_memcpy_memset m a n d :
  0 <= a -> a + n <= len m -> len d <= n ->
  bytes (memcpy (memset m a 0 n) a d) a n =
  d ++ replicate (Z.to_nat (n - len d)) 0.
Proof.
  intros Ha Hfit Hd. pose proof (len_nonneg d).
  apply list_eq. intros i.
  destruct (decide (Z.of_nat i < n)) as [Hi|Hi].
  - rewrite lookup_bytes by lia.
    destruct (decide (Z.of_nat i < len d)) as [Hid|Hid].
    + rewrite lookup_memcpy_in by (rewrite ?len_memset; lia).
      rewrite lookup_app_l by (unfold len in *; lia). f_equal. lia.
    + rewrite lookup_memcpy_ge by lia.
      unfold memset.
      rewrite lookup_memcpy_in by (rewrite ?len_replicate; lia).
      rewrite lookup_app_r by (unfold len in *; lia).
      rewrite !lookup_replicate_2; [done| |]; unfold len in *; lia.
  - unfold bytes. rewrite lookup_take_ge by lia.
    symmetry. apply lookup_ge_None.
    rewrite length_app, length_replicate. unfold len in *. lia.
Qed.

Lemma bytes_memset_disj m a v n b k :
  0 <= n -> 0 <= b -> b + k <= a \/ a + n <= b ->
  bytes (memset m a v n) b k = bytes m b k.
Proof.
  intros. eapply bytes_frame; [by apply same_outside_memset|done|done].
Qed.

Lemma bytes_set_bit_disj m base i b k :
  0 <= b -> b + k <= base + i / 8 \/ base + i / 8 + 1 <= b ->
  bytes (set_bit m base i) b k = bytes m b k.
Proof.
  intros. eapply bytes_frame; [apply same_outside_set_bit|done|done].
Qed.

(** Peel the writes that do not touch the range read. *)
Ltac peel_bytes :=
  repeat first
    [ rewrite bytes_memcpy_disj by side
    | rewrite bytes_memset_disj by side
    | rewrite bytes_set_bit_disj by side ].

(** ** Checksums written by the finalizers *)

Lemma lxor_range a b n :
  0 <= n -> 0 <= a < 2 ^ n -> 0 <= b < 2 ^ n -> 0 <= Z.lxor a b < 2 ^ n.
Proof.
  intros Hn Ha Hb.
  assert (H0 : 0 <= Z.lxor a b) by (apply Z.lxor_nonneg; lia).
  split; [done|].
  destruct (decide (Z.lxor a b = 0)) as [->|Hne]; [lia|].
  apply Z.log2_lt_pow2; [lia|].
  pose proof (Z.log2_lxor a b ltac:(lia) ltac:(lia)) as L.
  assert (La : Z.log2 a < n \/ a = 0).
  { destruct (decide (a = 0)); [by right|left].
    apply Z.log2_lt_pow2; lia. }
  assert (Lb : Z.log2 b < n \/ b = 0).
  { destruct (decide (b = 0)); [by right|left].
    apply Z.log2_lt_pow2; lia. }
  destruct La as [La| ->], Lb as [Lb| ->].
  - lia.
  - rewrite Z.lxor_0_r in *. lia.
  - rewrite Z.lxor_0_l in *. lia.
  - rewrite Z.lxor_0_l in Hne. done.
Qed.

Lemma CRC32_TAB_range i : 0 <= nth i CRC32_TAB 0 < 2 ^ 32.
Proof.
  assert (H : Forall (fun x => 0 <= x < 2 ^ 32) CRC32_TAB).
  { apply Forall_forall. intros x Hx.
    assert (forallb (fun x => (0 <=? x) && (x <? 2 ^ 32)) CRC32_TAB = true)
      as F by (vm_compute; reflexivity).
    rewrite forallb_forall in F. apply list_elem_of_In in Hx.
    specialize (F x Hx). lia. }
  destruct (nth_in_or_default i CRC32_TAB 0) as [Hin| ->]; [|lia].
  rewrite Forall_forall in H. apply H. by apply list_elem_of_In.
Qed.

Lemma crc32_step_range c p :
  0 <= c < 2 ^ 32 -> 0 <= crc32_step c p < 2 ^ 32.
Proof.
  intros Hc. unfold crc32_step. apply lxor_range; [lia| |].
  - apply CRC32_TAB_range.
  - rewrite Z.shiftr_div_pow2 by lia. lia.
Qed.

(** The 32-bit accumulator of [crc32] never leaves 32 bits. *)
Lemma crc32_range data : 0 <= crc32 data < 2 ^ 32.
Proof.
  unfold crc32. apply lxor_range; [lia| |lia].
  assert (H : forall c, 0 <= c < 2 ^ 32 ->
            0 <= fold_left crc32_step data c < 2 ^ 32).
  { induction data as [|p data IH]; intros c Hc; [done|].
    cbn [fold_left]. apply IH. by apply crc32_step_range. }
  apply H. lia.
Qed.

(** After [inode_crc_finalize] the stored CRC is that of the first 120
    bytes of the inode. *)
Lemma inode_crc_finalize_ok m a :
  0 <= a -> a + INODE_SIZE <= len m ->
  load (inode_crc_finalize m a) (a + ino.inode_crc) 8 =
  crc32 (bytes (inode_crc_finalize m a) a 120).
Proof.
  intros Ha Hfit. unfold inode_crc_finalize. cbv zeta.
  assert (E : bytes (memset (bytes m a INODE_SIZE) 120 0 8) 0 120 =
              bytes m a 120).
  { unfold memset. rewrite bytes_memcpy_disj by side.
    rewrite bytes_bytes by side. f_equal. lia. }
  rewrite E. rewrite load_store_same8 by side.
  unfold store. rewrite bytes_memcpy_disj by side.
  apply u64_small. pose proof (crc32_range (bytes m a 120)). lia.
Qed.

Lemma xor_fold_range l x :
  0 <= x < 256 -> 0 <= fold_left (fun x p => u8 (Z.lxor x p)) l x < 256.
Proof.
  revert x. induction l as [|p l IH]; intros x Hx; [done|].
  cbn [fold_left]. apply IH. unfold u8. lia.
Qed.

(** After [dirent_checksum_finalize] the last byte of the entry is the XOR
    of the 63 bytes before it. *)
Lemma dirent_checksum_finalize_ok d :
  len d = DIRENT_SIZE ->
  load (dirent_checksum_finalize d) de.checksum 1 =
  fold_left (fun x p => u8 (Z.lxor x p))
    (bytes (dirent_checksum_finalize d) 0 63) 0.
Proof.
  intros Hd. unfold dirent_checksum_finalize. cbv zeta.
  rewrite load_store_same1 by side.
  unfold store. rewrite bytes_memcpy_disj by side.
  apply u8_small. apply xor_fold_range. lia.
Qed.

(** Buffers as lists: a write into the first part of an append, and a
    prefix of a written buffer. *)
Lemma memcpy_app_l x y a d :
  0 <= a -> a + len d <= len x ->
  memcpy (x ++ y) a d = memcpy x a d ++ y.
Proof.
  intros Ha Hfit. pose proof (len_nonneg d).
  rewrite !memcpy_fits by (unfold len in *; rewrite ?length_app; lia).
  unfold len in *.
  rewrite take_app_le by lia.
  rewrite drop_app_le by lia.
  by rewrite <- !app_assoc.
Qed.

Lemma bytes_app_l x y n :
  0 <= n <= len x -> bytes (x ++ y) 0 n = bytes x 0 n.
Proof.
  intros Hn. unfold bytes, len in *. rewrite !drop_0.
  apply take_app_le. lia.
Qed.

Lemma load_app_l x y a n :
  0 <= a -> a + Z.of_nat n <= len x -> load (x ++ y) a n = load x a n.
Proof.
  intros Ha Hfit. unfold load, bytes, len in *.
  rewrite drop_app_le by lia. rewrite take_app_le; [done|].
  rewrite length_drop. lia.
Qed.

Lemma bytes_memcpy_prefix m a d n :
  0 <= a -> a + len d <= n -> n <= len m ->
  bytes (memcpy m a d) 0 n = memcpy (bytes m 0 n) a d.
Proof.
  intros Ha Hfit Hn. pose proof (len_nonneg d).
  rewrite <- (take_drop (Z.to_nat n) m) at 1.
  rewrite memcpy_app_l by (unfold len in *; rewrite ?length_take; lia).
  rewrite bytes_app_l.
  - unfold bytes at 2. rewrite drop_0.
    pose proof (bytes_all (memcpy (take (Z.to_nat n) m) a d)) as E.
    rewrite len_memcpy in E. unfold len in E at 1.
    rewrite length_take in E.
    replace (Z.of_nat (Z.to_nat n `min` length m)) with n in E
      by (unfold len in *; lia).
    exact E.
  - rewrite len_memcpy. unfold len in *. rewrite length_take. lia.
Qed.

Lemma memcpy_memcpy m a d d' :
  len d' = len d -> memcpy (memcpy m a d) a d' = memcpy m a d'.
Proof.
  intros Hd. destruct (memcpy_cases m a d) as [(Ha & Hb & E)|E].
  - rewrite E. rewrite memcpy_fits.
    2: done.
    2:{ rewrite <- E, len_memcpy. lia. }
    rewrite (memcpy_fits m a d') by lia.
    unfold len in *.
    rewrite take_app_le by (rewrite length_take; lia).
    rewrite take_take.
    rewrite drop_app_ge by (rewrite length_take; lia).
    rewrite drop_app_ge by (rewrite length_take; lia).
    rewrite drop_drop. rewrite length_take.
    f_equal; [f_equal; lia|]. f_equal. f_equal. lia.
  - by rewrite E.
Qed.

(** The checksum [superblock_crc_finalize] stores, when block 0 of the
    image is the finalized struct followed by zeros: the CRC of the first
    [BS - 4] bytes of the block, the checksum field taken as zero. *)
Lemma superblock_crc_finalize_ok s img :
  len s = SB_SIZE -> BS <= len img ->
  bytes img 0 BS =
    superblock_crc_finalize s ++ replicate (Z.to_nat (BS - SB_SIZE)) 0 ->
  load img sb.checksum 4 =
  crc32 (bytes (store img sb.checksum 4 0) 0 (BS - 4)).
Proof.
  intros Hs Himg Hblk.
  set (s' := store s sb.checksum 4 0).
  assert (Hs' : len s' = 116) by (unfold s'; side).
  set (zs := replicate (Z.to_nat (BS - SB_SIZE)) 0) in *.
  assert (Hzs : len zs = 3980) by (unfold zs; side).
  set (cs := crc32 (bytes (memcpy (memset (replicate (Z.to_nat BS) 0) 0 0 BS)
                             0 (bytes s' 0 SB_SIZE)) 0 (BS - 4))).
  assert (HF : superblock_crc_finalize s = store s' sb.checksum 4 cs) by done.
  rewrite HF in Hblk.
  assert (Hcs : cs = crc32 (bytes (s' ++ zs) 0 (BS - 4))).
  { unfold cs. f_equal.
    replace (bytes s' 0 SB_SIZE) with s'
      by (change SB_SIZE with 116; rewrite <- Hs'; symmetry; apply bytes_all).
    rewrite <- (bytes_bytes _ 0 BS 0 (BS - 4)) by side.
    rewrite bytes_memcpy_memset by side.
    rewrite Hs'. done. }
  assert (L : load img sb.checksum 4 = cs).
  { pose proof (load_in_bytes img 0 BS sb.checksum 4) as X.
    rewrite Z.add_0_l in X. rewrite <- X by side. clear X.
    rewrite Hblk. rewrite load_app_l by side.
    rewrite load_store_same4 by side.
    apply u32_small. unfold cs. apply crc32_range. }
  rewrite L, Hcs. f_equal.
  pose proof (bytes_bytes (store img sb.checksum 4 0) 0 BS 0 (BS - 4)) as X.
  change (0 + 0) with 0 in X. rewrite <- X by side. clear X.
  pose proof (bytes_bytes (s' ++ zs) 0 BS 0 (BS - 4)) as X.
  change (0 + 0) with 0 in X. rewrite <- X by side. clear X.
  f_equal.
  replace (bytes (s' ++ zs) 0 BS) with (s' ++ zs).
  2:{ symmetry. replace BS with (len (s' ++ zs)); [apply bytes_all|].
      unfold len in *. rewrite length_app. side. }
  unfold store at 1. rewrite bytes_memcpy_prefix by side.
  rewrite Hblk. rewrite memcpy_app_l by side.
  f_equal. unfold store. rewrite memcpy_memcpy by side.
  unfold s', store. by rewrite memcpy_memcpy by side.
Qed.

(** ** The builder *)

Section Builder.
Variable c : builder_cli.
Variables t_sb t_root : Z.
Hypothesis Hok : builder_cli_ok c = true.

Let tb := total_blocks_of c.
Let itb := inode_tbl_blks_of c.

Lemma cli_bounds :
  180 <= size_kib c <= 4096 /\ size_kib c mod 4 = 0 /\
  128 <= inodes c <= 512.
Proof.
  unfold builder_cli_ok in Hok.
  apply andb_prop in Hok as [H1 H2].
  apply negb_true_iff in H1, H2.
  apply orb_false_elim in H1 as [H1 H3].
  apply orb_false_elim in H1 as [H1 H4].
  apply orb_false_elim in H2 as [H2 H5].
  apply negb_false_iff in H3.
  lia.
Qed.

Lemma tb_eq : tb = size_kib c / 4.
Proof.
  pose proof cli_bounds. unfold tb, total_blocks_of. consts.
  rewrite (u64_small (size_kib c * 1024)) by lia.
  pose proof (Z.div_mod (size_kib c) 4).
  replace (size_kib c * 1024) with (size_kib c / 4 * 4096) by lia.
  rewrite Z.div_mul by lia. apply u64_small. lia.
Qed.

Lemma itb_eq : itb = (inodes c + 31) / 32.
Proof.
  pose proof cli_bounds. unfold itb, inode_tbl_blks_of. consts.
  change (4096 / 128) with 32.
  rewrite (u64_small (inodes c + 32 - 1)) by lia.
  rewrite u64_small; [f_equal; lia | lia].
Qed.

Lemma geom_bounds :
  45 <= tb <= 1024 /\ 4 <= itb <= 16 /\
  inodes c <= 32 * itb < inodes c + 32.
Proof.
  pose proof cli_bounds. rewrite tb_eq, itb_eq.
  pose proof (Z.div_mod (size_kib c) 4).
  pose proof (Z.mod_pos_bound (inodes c + 31) 32).
  pose proof (Z.div_mod (inodes c + 31) 32). lia.
Qed.

Lemma len_builder_superblock : len (builder_superblock c t_sb) = 116.
Proof. unfold builder_superblock, superblock_crc_finalize. side. Qed.

Lemma len_builder_root_inode a t : len (builder_root_inode a t) = 128.
Proof. unfold builder_root_inode, inode_crc_finalize. side. Qed.

Lemma len_builder_dot : len builder_dot = 64.
Proof. unfold builder_dot, dirent_checksum_finalize. side. Qed.

Lemma len_builder_dotdot : len builder_dotdot = 64.
Proof. unfold builder_dotdot, dirent_checksum_finalize. side. Qed.

Section RootInode.
Variables a t : Z.
Let root := builder_root_inode a t.

Lemma root_mode : load root ino.mode 2 = 0x4000.
Proof.
  unfold root, builder_root_inode, inode_crc_finalize. cbv zeta. peel.
  rewrite load_store_same2 by side. done.
Qed.

Lemma root_links : load root ino.links 2 = 2.
Proof.
  unfold root, builder_root_inode, inode_crc_finalize. cbv zeta. peel.
  rewrite load_store_same2 by side. done.
Qed.

Lemma root_size_bytes : load root ino.size_bytes 8 = 2 * DIRENT_SIZE.
Proof.
  unfold root, builder_root_inode, inode_crc_finalize. cbv zeta. peel.
  rewrite load_store_same8 by side. done.
Qed.

Lemma root_direct0 : load root (ino.direct 0) 4 = u32 (a + 0).
Proof.
  unfold root, builder_root_inode, inode_crc_finalize. cbv zeta. peel.
  rewrite load_store_same4 by side. unfold u32.
  apply Z.mod_mod. lia.
Qed.

Lemma root_direct_rest d :
  1 <= d < DIRECT_MAX -> load root (ino.direct d) 4 = 0.
Proof.
  intros Hd.
  unfold root, builder_root_inode, inode_crc_finalize. cbv zeta. peel.
  apply load_zeros; side.
Qed.
End RootInode.

Section Superblock.
Let s := builder_superblock c t_sb.

Ltac sb_field :=
  unfold s, builder_superblock, superblock_crc_finalize; cbv zeta; peel;
  first [ rewrite load_store_same4 by side
        | rewrite load_store_same8 by side ].

Lemma sb_magic : load s sb.magic 4 = MAGIC.
Proof. sb_field. done. Qed.

Lemma sb_version : load s sb.version 4 = 1.
Proof. sb_field. done. Qed.

Lemma sb_block_size : load s sb.block_size 4 = BS.
Proof. sb_field. done. Qed.

Lemma sb_total_blocks : load s sb.total_blocks 8 = tb.
Proof.
  sb_field. pose proof geom_bounds. apply u64_small. subst tb. lia.
Qed.

Lemma sb_inode_count : load s sb.inode_count 8 = inodes c.
Proof.
  sb_field. pose proof cli_bounds. apply u64_small. lia.
Qed.

Lemma sb_inode_bitmap_start : load s sb.inode_bitmap_start 8 = 1.
Proof. sb_field. done. Qed.

Lemma sb_inode_bitmap_blocks : load s sb.inode_bitmap_blocks 8 = 1.
Proof. sb_field. done. Qed.

Lemma sb_data_bitmap_start : load s sb.data_bitmap_start 8 = 2.
Proof. sb_field. done. Qed.

Lemma sb_data_bitmap_blocks : load s sb.data_bitmap_blocks 8 = 1.
Proof. sb_field. done. Qed.

Lemma sb_inode_table_start : load s sb.inode_table_start 8 = 3.
Proof. sb_field. done. Qed.

Lemma sb_inode_table_blocks : load s sb.inode_table_blocks 8 = itb.
Proof.
  sb_field. pose proof geom_bounds. apply u64_small. subst itb. lia.
Qed.

Lemma sb_data_region_start : load s sb.data_region_start 8 = 3 + itb.
Proof.
  sb_field. pose proof geom_bounds. fold itb.
  rewrite (u64_small (3 + itb)) by lia. apply u64_small. lia.
Qed.

Lemma sb_data_region_blocks :
  load s sb.data_region_blocks 8 = tb - (3 + itb).
Proof.
  sb_field. pose proof geom_bounds. fold itb tb.
  rewrite (u64_small (3 + itb)) by lia.
  rewrite (u64_small (tb - (3 + itb))) by lia. apply u64_small. lia.
Qed.

Lemma sb_root_inode : load s sb.root_inode 8 = ROOT_INO.
Proof. sb_field. done. Qed.
End Superblock.

Lemma dot_inode_no : load builder_dot de.inode_no 4 = ROOT_INO.
Proof.
  unfold builder_dot, dirent_checksum_finalize. cbv zeta. peel.
  rewrite load_store_same4 by side. done.
Qed.

Lemma dotdot_inode_no : load builder_dotdot de.inode_no 4 = ROOT_INO.
Proof.
  unfold builder_dotdot, dirent_checksum_finalize. cbv zeta. peel.
  rewrite load_store_same4 by side. done.
Qed.


Let B := builder_image c t_sb t_root.
Let sbuf := builder_superblock c t_sb.
Let root := builder_root_inode (3 + itb) t_root.

Lemma builder_image_eq :
  B =
  memcpy (memcpy (memset (memcpy (memset
    (set_bit (set_bit (memset (memset (memcpy (memset
       (replicate (Z.to_nat (tb * 4096)) 0) 0 0 4096) 0 sbuf)
       4096 0 4096) 8192 0 4096) 4096 0) 8192 0)
    12288 0 (itb * 4096)) 12288 root)
    (4096 * (3 + itb)) 0 4096)
    (4096 * (3 + itb)) builder_dot)
    (4096 * (3 + itb) + 64) builder_dotdot.
Proof.
  pose proof geom_bounds as G.
  unfold B, builder_image. cbv zeta. fold tb itb sbuf.
  rewrite (u64_small (3 + itb)) by (subst itb; lia). fold root.
  pose proof (root_direct0 (3 + itb) t_root) as R. fold root in R.
  rewrite !R. clear R.
  change (BS * 0) with 0. change (BS * 1) with 4096.
  change (BS * 2) with 8192. change (u64 (BS * 3)) with 12288.
  change (0 * INODE_SIZE) with 0. change (0 * DIRENT_SIZE) with 0.
  change (1 * DIRENT_SIZE) with 64. change BS with 4096.
  rewrite !Z.add_0_r.
  rewrite (u32_small (3 + itb)) by (subst itb; lia).
  rewrite (u32_small (4096 * (3 + itb))) by (subst itb; lia).
  done.
Qed.

Lemma len_sbuf : len sbuf = 116.
Proof. apply len_builder_superblock. Qed.

Lemma len_root : len root = 128.
Proof. apply len_builder_root_inode. Qed.

#[local] Hint Rewrite len_sbuf len_root
  len_builder_dot len_builder_dotdot : len.

Lemma len_builder_image : len B = BS * tb.
Proof.
  pose proof geom_bounds. rewrite builder_image_eq. side.
Qed.

(** Block 0 holds the local superblock. *)
Lemma builder_sb_field off n :
  0 <= off -> off + Z.of_nat n <= 116 ->
  load B off n = load sbuf off n.
Proof.
  intros. pose proof geom_bounds. rewrite builder_image_eq. peel.
  rewrite load_memcpy_in by side. f_equal. lia.
Qed.

(** Slot 0 of the inode table holds the local root inode. *)
Lemma builder_root_field off n :
  0 <= off -> off + Z.of_nat n <= 128 ->
  load B (3 * BS + off) n = load root off n.
Proof.
  intros. pose proof geom_bounds. rewrite builder_image_eq. peel.
  rewrite load_memcpy_in by side. f_equal. side.
Qed.

(** The first data block holds "." and ".." and zeros. *)
Lemma builder_dot_field off n :
  0 <= off -> off + Z.of_nat n <= 64 ->
  load B (BS * (3 + itb) + off) n = load builder_dot off n.
Proof.
  intros. pose proof geom_bounds. rewrite builder_image_eq. peel.
  rewrite load_memcpy_in by side. f_equal. side.
Qed.

Lemma builder_dotdot_field off n :
  0 <= off -> off + Z.of_nat n <= 64 ->
  load B (BS * (3 + itb) + 64 + off) n = load builder_dotdot off n.
Proof.
  intros. pose proof geom_bounds. rewrite builder_image_eq.
  rewrite load_memcpy_in by side. f_equal. side.
Qed.

Lemma builder_dot_bytes : bytes B (BS * (3 + itb)) 64 = builder_dot.
Proof.
  pose proof geom_bounds. rewrite builder_image_eq.
  rewrite bytes_memcpy_disj by side.
  match goal with |- bytes (memcpy ?M ?a ?d) _ _ = _ =>
    pose proof (bytes_memcpy_same M a d) as E end.
  rewrite len_builder_dot in E. apply E; side.
Qed.

Lemma builder_dotdot_bytes :
  bytes B (BS * (3 + itb) + 64) 64 = builder_dotdot.
Proof.
  pose proof geom_bounds. rewrite builder_image_eq.
  match goal with |- bytes (memcpy ?M ?a ?d) _ _ = _ =>
    pose proof (bytes_memcpy_same M a d) as E end.
  rewrite len_builder_dotdot in E. apply E; side.
Qed.

Lemma builder_rootblk_rest a n :
  BS * (3 + itb) + 128 <= a -> a + Z.of_nat n <= BS * (3 + itb) + BS ->
  load B a n = 0.
Proof.
  intros. pose proof geom_bounds. rewrite builder_image_eq. peel.
  apply load_memset_in; side.
Qed.

Lemma builder_ibits i :
  0 <= i < 32768 -> test_bit B BS i = (if i <? 1 then 1 else 0).
Proof.
  intros. pose proof geom_bounds. rewrite builder_image_eq.
  change BS with 4096. peel_bit.
  destruct (Z.ltb_spec i 1).
  - assert (i = 0) as -> by lia. apply test_bit_set_bit_same; side.
  - rewrite test_bit_set_bit_other by lia. peel_bit.
    apply test_bit_memset_in; side.
Qed.

Lemma builder_dbits i :
  0 <= i < 32768 -> test_bit B (2 * BS) i = (if i <? 1 then 1 else 0).
Proof.
  intros. pose proof geom_bounds. rewrite builder_image_eq.
  change (2 * BS) with 8192. peel_bit.
  destruct (Z.ltb_spec i 1).
  - assert (i = 0) as -> by lia. apply test_bit_set_bit_same; side.
  - rewrite test_bit_set_bit_other by lia. peel_bit.
    apply test_bit_memset_in; side.
Qed.

Lemma builder_dot_eq :
  builder_dot = [1; 0; 0; 0; 2; 46] ++ replicate 57 0 ++ [45].
Proof. vm_compute. reflexivity. Qed.

Lemma builder_dotdot_eq :
  builder_dotdot = [1; 0; 0; 0; 2; 46; 46] ++ replicate 56 0 ++ [3].
Proof. vm_compute. reflexivity. Qed.

Lemma builder_dirent_ino s :
  0 <= s < 64 -> dirent_ino B 0 s = (if s <? 2 then ROOT_INO else 0).
Proof.
  intros Hs. pose proof geom_bounds. unfold dirent_ino.
  rewrite (builder_root_field (ino.direct 0) 4) by side.
  unfold root. rewrite root_direct0.
  rewrite Z.add_0_r, u32_small by lia.
  destruct (Z.ltb_spec s 2).
  - assert (s = 0 \/ s = 1) as [-> | ->] by lia.
    + change (DIRENT_SIZE * 0) with 0.
      rewrite (builder_dot_field 0 4) by lia. apply dot_inode_no.
    + change (DIRENT_SIZE * 1) with (64 + 0). rewrite Z.add_assoc.
      rewrite (builder_dotdot_field 0 4) by lia. apply dotdot_inode_no.
  - apply builder_rootblk_rest; side.
Qed.

(** The image the builder writes has the shape [image_inv] describes,
    with one inode and one data block in use and two entries in the
    root directory. *)
Lemma builder_inv : image_inv B tb (inodes c) itb 1 1 1 2.
Proof.
  pose proof geom_bounds as G. pose proof cli_bounds as C.
  constructor.
  - apply len_builder_image.
  - rewrite builder_sb_field by side. apply sb_magic.
  - rewrite builder_sb_field by side. apply sb_version.
  - rewrite builder_sb_field by side. apply sb_block_size.
  - rewrite builder_sb_field by side. by apply sb_total_blocks.
  - rewrite builder_sb_field by side. by apply sb_inode_count.
  - rewrite builder_sb_field by side. apply sb_inode_bitmap_start.
  - rewrite builder_sb_field by side. apply sb_data_bitmap_start.
  - rewrite builder_sb_field by side. apply sb_inode_table_start.
  - rewrite builder_sb_field by side. by apply sb_inode_table_blocks.
  - rewrite builder_sb_field by side. by apply sb_data_region_start.
  - rewrite builder_sb_field by side. by apply sb_data_region_blocks.
  - rewrite builder_sb_field by side. apply sb_root_inode.
  - side.
  - lia.
  - intros i Hi. apply builder_ibits. lia.
  - lia.
  - intros i Hi. apply builder_dbits. lia.
  - side.
  - lia.
  - lia.
  - rewrite builder_root_field by side. apply root_links.
  - rewrite builder_root_field by side. apply root_size_bytes.
  - intros d Hd. assert (d = 0) as -> by lia.
    rewrite builder_root_field by side. unfold root.
    rewrite root_direct0, Z.add_0_r, u32_small; lia.
  - intros d d' Hd Hd' _. lia.
  - intros d Hd. rewrite builder_root_field by side.
    apply root_direct_rest. lia.
  - intros d s Hd. lia.
  - intros s Hs. change (1 - 1) with 0. rewrite builder_dirent_ino by lia.
    destruct (Z.ltb_spec s 2); side.
  - intros s Hs. change (1 - 1) with 0. rewrite builder_dirent_ino by lia.
    destruct (Z.ltb_spec s 2); side.
  - rewrite builder_root_field by side. apply root_mode.
  - by rewrite builder_dirent_ino by lia.
  - by rewrite builder_dirent_ino by lia.
Qed.

(** The checksums the builder stores are those of what it wrote. *)
Lemma builder_block0 :
  bytes B 0 BS = sbuf ++ replicate (Z.to_nat (BS - SB_SIZE)) 0.
Proof.
  pose proof geom_bounds as G. rewrite builder_image_eq.
  change BS with 4096. peel_bytes.
  rewrite bytes_memcpy_memset by side. by rewrite len_sbuf.
Qed.

Lemma builder_sb_crc :
  load B sb.checksum 4 = crc32 (bytes (store B sb.checksum 4 0) 0 (BS - 4)).
Proof.
  pose proof geom_bounds as G.
  eapply superblock_crc_finalize_ok;
    [|rewrite len_builder_image; side|apply builder_block0].
  unfold superblock_crc_finalize. side.
Qed.

Lemma builder_root_bytes : bytes B (3 * BS) INODE_SIZE = root.
Proof.
  pose proof geom_bounds. rewrite builder_image_eq. peel_bytes.
  match goal with |- bytes (memcpy ?M ?a ?d) _ _ = _ =>
    pose proof (bytes_memcpy_same M a d) as E end.
  rewrite len_root in E. apply E; side.
Qed.

Lemma builder_root_crc :
  load B (3 * BS + ino.inode_crc) 8 = crc32 (bytes B (3 * BS) 120).
Proof.
  pose proof geom_bounds.
  rewrite (builder_root_field ino.inode_crc 8) by side.
  pose proof (bytes_bytes B (3 * BS) INODE_SIZE 0 120) as E.
  rewrite Z.add_0_r in E. rewrite <- E by side.
  rewrite builder_root_bytes.
  unfold root, builder_root_inode. cbv zeta.
  pose proof (inode_crc_finalize_ok) as F.
  specialize (F (store
    (store (store (store (store (store (store (store (store
      (replicate (Z.to_nat INODE_SIZE) 0) ino.mode 2 0x4000) ino.links 2 2)
      ino.uid 4 0) ino.gid 4 0) ino.ctime 8 (u64 t_root))
      ino.mtime 8 (u64 t_root)) ino.atime 8 (u64 t_root))
      ino.size_bytes 8 (2 * DIRENT_SIZE))
    (ino.direct 0) 4 (u32 (3 + itb + 0))) 0).
  rewrite Z.add_0_l in F. apply F; side.
Qed.

Lemma mkfs_builder_ok : mkfs_builder c t_sb t_root = (0, Some B).
Proof.
  pose proof geom_bounds as G.
  unfold mkfs_builder. rewrite Hok. cbn [negb]. fold tb itb.
  rewrite (u64_small (3 + itb + 1)) by lia.
  destruct (Z.ltb_spec tb (3 + itb + 1)); [lia|].
  fold B. rewrite <- len_builder_image. by rewrite bytes_all.
Qed.
End Builder.

(** ** The first-fit scans *)

Lemma first_free_hit m base i0 n kk :
  (forall i, i0 <= i < kk -> test_bit m base i = 1) ->
  test_bit m base kk = 0 ->
  i0 <= kk < i0 + Z.of_nat n ->
  first_free m base i0 n = kk.
Proof.
  revert i0. induction n as [|n IH]; intros i0 H1 H0 Hk; [lia|].
  cbn [first_free].
  destruct (decide (i0 = kk)) as [->|Hne].
  - by rewrite H0.
  - rewrite H1 by lia. cbn. apply IH; [|done|lia].
    intros i Hi. apply H1. lia.
Qed.

Lemma first_free_miss m base i0 n :
  (forall i, i0 <= i < i0 + Z.of_nat n -> test_bit m base i = 1) ->
  first_free m base i0 n = UINT32_MAX.
Proof.
  revert i0. induction n as [|n IH]; intros i0 H1; [done|].
  cbn [first_free]. rewrite H1 by lia. cbn. apply IH.
  intros i Hi. apply H1. lia.
Qed.

Lemma scan_free_skip m base i0 n jj want :
  (forall i, i0 <= i < jj -> test_bit m base i = 1) ->
  i0 <= jj <= i0 + Z.of_nat n ->
  scan_free m base i0 n want =
  scan_free m base jj (n - Z.to_nat (jj - i0)) want.
Proof.
  revert i0. induction n as [|n IH]; intros i0 H1 Hj.
  - assert (jj = i0) as -> by lia. done.
  - destruct (decide (i0 = jj)) as [->|Hne].
    + rewrite Z.sub_diag. done.
    + cbn [scan_free]. rewrite H1 by lia. cbn.
      replace (S n - Z.to_nat (jj - i0))%nat
        with (n - Z.to_nat (jj - (i0 + 1)))%nat by lia.
      destruct (want <=? 0) eqn:E.
      * by destruct (n - Z.to_nat (jj - (i0 + 1)))%nat; cbn; rewrite ?E.
      * apply IH; [|lia]. intros i Hi. apply H1. lia.
Qed.

Lemma scan_free_zeros m base i0 n want :
  (forall i, i0 <= i < i0 + Z.of_nat n -> test_bit m base i = 0) ->
  scan_free m base i0 n want = seqZ i0 (Z.min want (Z.of_nat n)).
Proof.
  revert i0 want. induction n as [|n IH]; intros i0 want H0.
  - cbn. by rewrite seqZ_nil by lia.
  - cbn [scan_free]. destruct (Z.leb_spec want 0).
    + by rewrite seqZ_nil by lia.
    + rewrite H0 by lia. cbn.
      rewrite (seqZ_cons i0) by lia. f_equal.
      rewrite IH by (intros i Hi; apply H0; lia).
      f_equal; lia.
Qed.

(** ** Marking several data blocks *)

Lemma len_set_bits m base idxs : len (set_bits m base idxs) = len m.
Proof.
  revert m. induction idxs as [|x l IH]; intros m; [done|].
  cbn. unfold set_bits in IH. by rewrite IH, len_set_bit.
Qed.

Lemma same_outside_set_bits m base idxs lo hi :
  Forall (fun x => lo <= base + x / 8 < hi) idxs ->
  same_outside lo hi m (set_bits m base idxs).
Proof.
  revert m. induction idxs as [|x l IH]; intros m Hall.
  - apply same_outside_refl.
  - inversion Hall as [|? ? Hx Hl]; subst. cbn.
    eapply same_outside_trans; [|apply IH; done].
    eapply same_outside_weaken; [apply same_outside_set_bit|lia|lia].
Qed.

Lemma test_bit_set_bits_keep m base idxs i :
  0 <= base -> 0 <= i -> Forall (fun x => 0 <= x) idxs ->
  Forall (fun x => base + x / 8 < len m) idxs ->
  test_bit m base i = 1 ->
  test_bit (set_bits m base idxs) base i = 1.
Proof.
  intros Hb Hi. revert m.
  induction idxs as [|x l IH]; intros m Hpos Hin H1; [done|].
  inversion Hpos; inversion Hin; subst. cbn. apply IH; [done| |].
  - eapply Forall_impl; [eassumption|]. intros y Hy. cbn in Hy.
    by rewrite len_set_bit.
  - destruct (decide (x = i)) as [->|Hne].
    + by apply test_bit_set_bit_same.
    + by rewrite test_bit_set_bit_other.
Qed.

Lemma test_bit_set_bits_in m base idxs i :
  0 <= base -> Forall (fun x => 0 <= x) idxs ->
  Forall (fun x => base + x / 8 < len m) idxs ->
  i ∈ idxs ->
  test_bit (set_bits m base idxs) base i = 1.
Proof.
  intros Hb. revert m.
  induction idxs as [|x l IH]; intros m Hpos Hin Hel.
  - by apply elem_of_nil in Hel.
  - inversion Hpos; inversion Hin; subst. cbn.
    assert (Hin' : Forall (fun y => base + y / 8 < len (set_bit m base x)) l).
    { eapply Forall_impl; [eassumption|]. intros y Hy. cbn in Hy.
      by rewrite len_set_bit. }
    apply elem_of_cons in Hel as [->|Hel].
    + apply test_bit_set_bits_keep; try done.
      by apply test_bit_set_bit_same.
    + by apply IH.
Qed.

Lemma test_bit_set_bits_notin m base idxs i :
  0 <= base -> 0 <= i -> Forall (fun x => 0 <= x) idxs ->
  i ∉ idxs ->
  test_bit (set_bits m base idxs) base i = test_bit m base i.
Proof.
  intros Hb Hi. revert m.
  induction idxs as [|x l IH]; intros m Hpos Hel; [done|].
  inversion Hpos; subst. cbn.
  apply not_elem_of_cons in Hel as [Hne Hel].
  unfold set_bits in IH. rewrite IH by done.
  by rewrite test_bit_set_bit_other.
Qed.

(** ** Building the new inode *)

Lemma len_inode_crc_finalize m a : len (inode_crc_finalize m a) = len m.
Proof. unfold inode_crc_finalize. apply len_store. Qed.

Lemma len_set_direct m ino_a i idxs : len (set_direct m ino_a i idxs) = len m.
Proof.
  revert m i. induction idxs as [|x l IH]; intros m i; [done|].
  cbn. by rewrite IH, len_store.
Qed.

Lemma len_build_inode m ino_a fsize now idxs :
  len (build_inode m ino_a fsize now idxs) = len m.
Proof.
  unfold build_inode. rewrite len_inode_crc_finalize, len_set_direct.
  by autorewrite with len.
Qed.

#[local] Hint Rewrite len_set_bits len_inode_crc_finalize len_set_direct
  len_build_inode : len.

Lemma same_outside_set_direct m ino_a i idxs :
  same_outside (ino_a + ino.direct i) (ino_a + ino.direct i + 4 * len idxs)
    m (set_direct m ino_a i idxs).
Proof.
  revert m i. induction idxs as [|x l IH]; intros m i.
  - apply same_outside_refl.
  - cbn [set_direct].
    eapply (same_outside_trans _ _ _ (store m (ino_a + ino.direct i) 4 _)).
    + eapply same_outside_weaken; [apply same_outside_store| |].
      * lia.
      * rewrite len_cons. pose proof (len_nonneg l). lia.
    + eapply same_outside_weaken; [apply IH| |].
      * consts. lia.
      * rewrite len_cons. consts. lia.
Qed.

Lemma load_set_direct m ino_a i idxs (t : nat) x :
  0 <= ino_a -> 0 <= i ->
  sb.data_region_start + 8 <= ino_a + ino.direct i ->
  ino_a + ino.direct i + 4 * len idxs <= len m ->
  idxs !! t = Some x ->
  load (set_direct m ino_a i idxs) (ino_a + ino.direct (i + Z.of_nat t)) 4 =
  u32 (u64 (load m sb.data_region_start 8 + x)).
Proof.
  revert m i t. induction idxs as [|y l IH]; intros m i t Ha Hi Hsb Hlen Ht.
  - done.
  - cbn [set_direct]. rewrite len_cons in Hlen. pose proof (len_nonneg l).
    destruct t as [|t].
    + injection Ht as ->. rewrite Z.add_0_r.
      rewrite (load_frame _ _ _ _ _ _
                 (same_outside_set_direct _ ino_a (i + 1) l)) by side.
      rewrite load_store_same4 by side.
      unfold u32. apply Z.mod_mod. lia.
    + cbn in Ht.
      replace (i + Z.of_nat (S t)) with (i + 1 + Z.of_nat t) by lia.
      rewrite (IH (store m (ino_a + ino.direct i) 4 _) (i + 1) t);
        [|lia|lia|consts; lia|side|done].
      rewrite load_store_disj by side. done.
Qed.

Section BuildInode.
Variables (m : list Z) (ino_a fsize now : Z) (idxs : list Z).
Hypothesis Ha : BS <= ino_a.
Hypothesis Hfit : ino_a + INODE_SIZE <= len m.
Hypothesis Hn : len idxs <= DIRECT_MAX.

Let m' := build_inode m ino_a fsize now idxs.

Lemma same_outside_build_inode :
  same_outside ino_a (ino_a + INODE_SIZE) m m'.
Proof.
  unfold m', build_inode, inode_crc_finalize. cbv zeta.
  pose proof (len_nonneg idxs).
  repeat (eapply same_outside_trans;
          [|eapply same_outside_weaken;
            [first [apply same_outside_store | apply same_outside_set_direct]
            |side|side]]).
  apply same_outside_memset. side.
Qed.

Lemma build_inode_mode : load m' (ino_a + ino.mode) 2 = 0x8000.
Proof.
  unfold m', build_inode, inode_crc_finalize. cbv zeta.
  pose proof (len_nonneg idxs). peel.
  rewrite (load_frame _ _ _ _ _ _ (same_outside_set_direct _ _ _ _))
    by side.
  peel. rewrite load_store_same2 by side. done.
Qed.

Lemma build_inode_links : load m' (ino_a + ino.links) 2 = 1.
Proof.
  unfold m', build_inode, inode_crc_finalize. cbv zeta.
  pose proof (len_nonneg idxs). peel.
  rewrite (load_frame _ _ _ _ _ _ (same_outside_set_direct _ _ _ _))
    by side.
  peel. rewrite load_store_same2 by side. done.
Qed.

Lemma build_inode_size_bytes :
  load m' (ino_a + ino.size_bytes) 8 = u64 fsize.
Proof.
  unfold m', build_inode, inode_crc_finalize. cbv zeta.
  pose proof (len_nonneg idxs). peel.
  rewrite (load_frame _ _ _ _ _ _ (same_outside_set_direct _ _ _ _))
    by side.
  peel. rewrite load_store_same8 by side. done.
Qed.

Lemma build_inode_direct_used (t : nat) x :
  idxs !! t = Some x ->
  load m' (ino_a + ino.direct (Z.of_nat t)) 4 =
  u32 (u64 (load m sb.data_region_start 8 + x)).
Proof.
  intros Ht. unfold m', build_inode, inode_crc_finalize. cbv zeta.
  pose proof (len_nonneg idxs).
  assert (Z.of_nat t < len idxs).
  { apply lookup_lt_Some in Ht. unfold len. lia. }
  peel.
  rewrite (load_set_direct _ ino_a 0 idxs t x); [|side..|done].
  peel. done.
Qed.

Lemma build_inode_direct_free d :
  len idxs <= d < DIRECT_MAX ->
  load m' (ino_a + ino.direct d) 4 = 0.
Proof.
  intros Hd. unfold m', build_inode, inode_crc_finalize. cbv zeta.
  pose proof (len_nonneg idxs). peel.
  rewrite (load_frame _ _ _ _ _ _ (same_outside_set_direct _ _ _ _))
    by side.
  peel. apply load_memset_in; side.
Qed.
Lemma build_inode_times :
  load m' (ino_a + ino.atime) 8 = u64 now /\
  load m' (ino_a + ino.mtime) 8 = u64 now /\
  load m' (ino_a + ino.ctime) 8 = u64 now.
Proof.
  unfold m', build_inode, inode_crc_finalize. cbv zeta.
  pose proof (len_nonneg idxs). repeat split.
  - peel.
    rewrite (load_frame _ _ _ _ _ _ (same_outside_set_direct _ _ _ _))
      by side.
    peel. rewrite load_store_same8 by side. done.
  - peel.
    rewrite (load_frame _ _ _ _ _ _ (same_outside_set_direct _ _ _ _))
      by side.
    peel. rewrite load_store_same8 by side. done.
  - peel.
    rewrite (load_frame _ _ _ _ _ _ (same_outside_set_direct _ _ _ _))
      by side.
    peel. rewrite load_store_same8 by side. done.
Qed.

Lemma build_inode_owner :
  load m' (ino_a + ino.uid) 4 = 0 /\ load m' (ino_a + ino.gid) 4 = 0.
Proof.
  unfold m', build_inode, inode_crc_finalize. cbv zeta.
  pose proof (len_nonneg idxs). split.
  - peel.
    rewrite (load_frame _ _ _ _ _ _ (same_outside_set_direct _ _ _ _))
      by side.
    peel. rewrite load_store_same4 by side. done.
  - peel.
    rewrite (load_frame _ _ _ _ _ _ (same_outside_set_direct _ _ _ _))
      by side.
    peel. rewrite load_store_same4 by side. done.
Qed.
End BuildInode.

(** ** Writing the file data *)

Lemma same_outside_memcpy_tail m a d lo :
  lo <= a -> same_outside lo (len m) m (memcpy m a d).
Proof.
  intros. destruct (memcpy_cases m a d) as [(Ha & Hb & _)|E].
  - eapply same_outside_weaken; [apply same_outside_memcpy|lia|lia].
  - rewrite E. apply same_outside_refl.
Qed.

Lemma len_write_blocks m ino_a fsize need data i n :
  len (fst (write_blocks m ino_a fsize need data i n)) = len m.
Proof.
  revert m data i. induction n as [|n IH]; intros m data i; [done|].
  cbn [write_blocks]. cbv zeta.
  destruct (_ && _); cbn [fst]; [|rewrite IH]; by autorewrite with len.
Qed.

(** Whatever the file holds, the loop writes nowhere below the lowest
    block the new inode names. *)
Lemma same_outside_write_blocks lo ino_a fsize need n :
  forall m data i,
  0 <= ino_a -> 0 <= i -> i + Z.of_nat n <= DIRECT_MAX ->
  ino_a + INODE_SIZE <= lo ->
  (forall i', i <= i' < i + Z.of_nat n ->
     lo <= u32 (BS * load m (ino_a + ino.direct i') 4)) ->
  same_outside lo (len m) m (fst (write_blocks m ino_a fsize need data i n)).
Proof.
  induction n as [|n IH]; intros m data i Ha Hi Hin Hlo Hp.
  - apply same_outside_refl.
  - cbn [write_blocks]. cbv zeta.
    set (blk := u32 (BS * load m (ino_a + ino.direct i) 4)).
    set (toread := if i + 1 <? need then BS else _).
    set (m2 := memcpy (memset m blk 0 BS) blk (take (Z.to_nat toread) data)).
    assert (Hblk : lo <= blk) by (apply Hp; lia).
    assert (S2 : same_outside lo (len m) m m2).
    { apply (same_outside_trans _ _ _ (memset m blk 0 BS)).
      - apply same_outside_memcpy_tail. done.
      - rewrite <- (len_memset m blk 0 BS).
        apply same_outside_memcpy_tail. done. }
    destruct (_ && _); cbn [fst]; [done|].
    eapply same_outside_trans; [exact S2|].
    rewrite <- (len_frame _ _ _ _ S2).
    apply IH; [done|lia|lia|done|].
    intros i' Hi'.
    rewrite (load_frame _ _ _ _ _ _ S2) by side.
    apply Hp. lia.
Qed.

Lemma bytes_app_zeros_head data n :
  0 <= n ->
  bytes (data ++ replicate (Z.to_nat n) 0) 0 n =
  take (Z.to_nat n) data ++ replicate (Z.to_nat (n - len (take (Z.to_nat n) data))) 0.
Proof.
  intros Hn. unfold bytes. rewrite drop_0.
  rewrite take_app. f_equal.
  rewrite take_replicate. f_equal.
  unfold len. rewrite length_take. lia.
Qed.

Lemma bytes_drop data a b n :
  0 <= a -> 0 <= b ->
  bytes (drop (Z.to_nat a) data) b n = bytes data (a + b) n.
Proof.
  intros. unfold bytes. rewrite drop_drop. do 2 f_equal. lia.
Qed.

Section WriteProper.
Variables (ino_a b0 fsize need : Z).
Hypothesis Ha : 0 <= ino_a.
Hypothesis Hb0 : ino_a + INODE_SIZE <= BS * b0.
Hypothesis Hneed : 1 <= need <= DIRECT_MAX.
Hypothesis Hsize : (need - 1) * BS < fsize <= need * BS.
Hypothesis H32 : BS * (b0 + need) < 2 ^ 32.

(** With a file as long as [stat] said, every [fread] is complete, and
    block [i'] of the inode ends up holding bytes [BS*i' ..] of the file,
    zero-padded. *)
Lemma write_blocks_proper n :
  forall m data i,
  0 <= i -> i + Z.of_nat n = need ->
  len data = fsize - i * BS ->
  BS * (b0 + need) <= len m ->
  (forall i', i <= i' < need ->
     load m (ino_a + ino.direct i') 4 = b0 + i') ->
  snd (write_blocks m ino_a fsize need data i n) = true /\
  forall i', i <= i' < need ->
    bytes (fst (write_blocks m ino_a fsize need data i n))
          (BS * (b0 + i')) BS =
    bytes (data ++ replicate (Z.to_nat BS) 0) (BS * (i' - i)) BS.
Proof.
  induction n as [|n IH]; intros m data i Hi Hin Hlen Hfit Hp.
  - split; [done|]. intros i' Hi'. lia.
  - cbn [write_blocks]. cbv zeta.
    rewrite (Hp i) by lia.
    rewrite (u32_small (BS * (b0 + i))) by side.
    set (blk := BS * (b0 + i)).
    set (toread := if i + 1 <? need then BS else _).
    assert (Ht : 0 < toread <= BS /\ toread <= len data /\
                 (i + 1 < need -> toread = BS) /\
                 (need <= i + 1 -> toread = len data)).
    { subst toread. destruct (Z.ltb_spec (i + 1) need).
      - consts. lia.
      - rewrite (u64_small (i * BS)) by side.
        rewrite u64_small by side. consts. lia. }
    destruct Ht as (Ht1 & Ht2 & Ht3 & Ht4).
    set (chunk := take (Z.to_nat toread) data).
    assert (Hchunk : len chunk = toread).
    { unfold chunk, len in *. rewrite length_take. lia. }
    rewrite Hchunk, Z.eqb_refl, andb_false_r.
    set (m2 := memcpy (memset m blk 0 BS) blk chunk).
    assert (Hm2 : bytes m2 blk BS =
                  bytes (data ++ replicate (Z.to_nat BS) 0) 0 BS).
    { unfold m2. rewrite bytes_memcpy_memset by (subst blk; side).
      rewrite bytes_app_zeros_head by side.
      destruct (decide (i + 1 < need)) as [Hlt|Hge].
      - unfold chunk. by rewrite Ht3.
      - unfold chunk. rewrite Ht4 by lia.
        rewrite !take_ge by (unfold len in *; lia). done. }
    assert (Hp2 : forall i', i + 1 <= i' < need ->
               load m2 (ino_a + ino.direct i') 4 = b0 + i').
    { intros i' Hi'. unfold m2.
      rewrite load_memcpy_disj by (subst blk; side).
      rewrite load_memset_disj by (subst blk; side). apply Hp. lia. }
    assert (Hframe : same_outside (BS * (b0 + i + 1)) (len m2) m2
              (fst (write_blocks m2 ino_a fsize need
                      (drop (Z.to_nat toread) data) (i + 1) n))).
    { apply same_outside_write_blocks; [done|lia|consts; lia|side|].
      intros i' Hi'. rewrite Hp2 by lia.
      rewrite u32_small by side. consts. lia. }
    destruct (decide (i + 1 < need)) as [Hlt|Hge].
    + rewrite Ht3 in * by done.
      destruct (IH m2 (drop (Z.to_nat BS) data) (i + 1)) as [IH1 IH2];
        [lia|lia| | |done|].
      { unfold len in *. rewrite length_drop. lia. }
      { unfold m2. side. }
      split; [done|]. intros i' Hi'.
      destruct (decide (i' = i)) as [->|Hne].
      * rewrite (bytes_frame _ _ _ _ _ _ Hframe) by (subst blk; side).
        fold blk. rewrite Hm2. by rewrite Z.sub_diag, Z.mul_0_r.
      * rewrite IH2 by lia.
        rewrite <- (drop_app_le data) by (unfold len in *; lia).
        rewrite bytes_drop by side. f_equal. lia.
    + assert (n = 0%nat) as -> by lia. cbn [write_blocks fst snd].
      split; [done|]. intros i' Hi'. assert (i' = i) as -> by lia.
      fold blk. rewrite Hm2. by rewrite Z.sub_diag, Z.mul_0_r.
Qed.
End WriteProper.

(** Whether the reads succeed only depends on how long the file is: every
    [fread] is complete exactly when the file holds the [fsize] bytes that
    [stat] announced. *)
Lemma write_blocks_reads ino_a fsize need :
  1 <= need <= DIRECT_MAX -> (need - 1) * BS < fsize <= need * BS ->
  forall n m data i,
  0 <= i -> i + Z.of_nat n = need -> (1 <= n)%nat ->
  snd (write_blocks m ino_a fsize need data i n) =
  (fsize - i * BS <=? len data).
Proof.
  intros Hneed Hsize.
  induction n as [|n IH]; intros m data i Hi Hin Hn; [lia|].
  cbn [write_blocks]. cbv zeta.
  set (blk := u32 (BS * load m (ino_a + ino.direct i) 4)).
  set (toread := if i + 1 <? need then BS else _).
  assert (Ht : 0 < toread <= BS /\
               (i + 1 < need -> toread = BS) /\
               (need <= i + 1 -> toread = fsize - i * BS)).
  { subst toread. destruct (Z.ltb_spec (i + 1) need).
    - consts. lia.
    - rewrite (u64_small (i * BS)) by side.
      rewrite u64_small by side. consts. lia. }
  destruct Ht as (Ht1 & Ht2 & Ht3).
  assert (Hchunk : len (take (Z.to_nat toread) data) =
                   Z.min toread (len data)).
  { unfold len. rewrite length_take. lia. }
  rewrite Hchunk. pose proof (len_nonneg data).
  destruct (Z.ltb_spec 0 toread) as [_|]; [|lia].
  destruct (Z.eqb_spec (Z.min toread (len data)) toread) as [E|E];
    cbn [negb andb snd].
  - destruct (decide (i + 1 < need)) as [Hlt|Hge].
    + rewrite IH by lia. rewrite Ht2 in * by done.
      unfold len in *. rewrite length_drop.
      destruct (Z.leb_spec (fsize - (i + 1) * BS)
                  (Z.of_nat (length data - Z.to_nat BS))),
        (Z.leb_spec (fsize - i * BS) (Z.of_nat (length data)));
        try done; side.
    + assert (n = 0%nat) as -> by lia. cbn [write_blocks snd].
      rewrite Ht3 in * by lia.
      destruct (Z.leb_spec (fsize - i * BS) (len data)); [done|lia].
  - destruct (Z.leb_spec (fsize - i * BS) (len data)); [|done].
    exfalso. destruct (decide (i + 1 < need)).
    + rewrite Ht2 in * by done. consts. lia.
    + rewrite Ht3 in * by lia. lia.
Qed.

(** Only the first [fsize] bytes of the file are looked at. *)
Lemma write_blocks_take ino_a fsize need :
  1 <= need <= DIRECT_MAX -> (need - 1) * BS < fsize <= need * BS ->
  forall n m data i,
  0 <= i -> i + Z.of_nat n = need ->
  write_blocks m ino_a fsize need data i n =
  write_blocks m ino_a fsize need
    (take (Z.to_nat (fsize - i * BS)) data) i n.
Proof.
  intros Hneed Hsize.
  induction n as [|n IH]; intros m data i Hi Hin; [done|].
  cbn [write_blocks]. cbv zeta.
  set (blk := u32 (BS * load m (ino_a + ino.direct i) 4)).
  set (toread := if i + 1 <? need then BS else _).
  assert (Ht : 0 < toread <= BS /\ toread <= fsize - i * BS /\
               (i + 1 < need -> toread = BS)).
  { subst toread. destruct (Z.ltb_spec (i + 1) need).
    - consts. lia.
    - rewrite (u64_small (i * BS)) by side.
      rewrite u64_small by side. consts. lia. }
  destruct Ht as (Ht1 & Ht2 & Ht3).
  rewrite take_take.
  replace (Z.to_nat toread `min` Z.to_nat (fsize - i * BS))%nat
    with (Z.to_nat toread) by lia.
  destruct (_ && _); [done|].
  destruct n as [|n']; [done|].
  rewrite IH by lia. rewrite (IH _ (drop _ (take _ _))) by lia.
  f_equal. rewrite Ht3 by lia.
  replace (Z.to_nat (fsize - i * BS))
    with (Z.to_nat BS + Z.to_nat (fsize - (i + 1) * BS))%nat by side.
  rewrite <- take_drop_commute, take_take. f_equal. lia.
Qed.

(** ** Scanning the root directory *)

Lemma find_free_dirent_hit m blk i n s0 :
  (forall s, i <= s < s0 -> load m (blk + s * DIRENT_SIZE) 4 <> 0) ->
  load m (blk + s0 * DIRENT_SIZE) 4 = 0 ->
  i <= s0 < i + Z.of_nat n ->
  find_free_dirent m blk i n = Some (blk + s0 * DIRENT_SIZE).
Proof.
  revert i. induction n as [|n IH]; intros i Hu Hf Hs; [lia|].
  cbn [find_free_dirent]. cbv zeta.
  destruct (decide (i = s0)) as [->|Hne].
  - by rewrite Hf.
  - destruct (Z.eqb_spec (load m (blk + i * DIRENT_SIZE) 4) 0) as [E|_].
    + exfalso. apply (Hu i); [lia|done].
    + apply IH; [|done|lia]. intros s Hs'. apply Hu. lia.
Qed.

Lemma find_free_dirent_miss m blk i n :
  (forall s, i <= s < i + Z.of_nat n ->
     load m (blk + s * DIRENT_SIZE) 4 <> 0) ->
  find_free_dirent m blk i n = None.
Proof.
  revert i. induction n as [|n IH]; intros i Hu; [done|].
  cbn [find_free_dirent]. cbv zeta.
  destruct (Z.eqb_spec (load m (blk + i * DIRENT_SIZE) 4) 0) as [E|_].
  - exfalso. apply (Hu i); [lia|done].
  - apply IH. intros s Hs'. apply Hu. lia.
Qed.

Section RootScan.
Variables (m : list Z) (r c : Z).
Let P (d : Z) : Z := load m (3 * BS + ino.direct d) 4.
Hypothesis Hr : 1 <= r <= DIRECT_MAX.
Hypothesis Hc : 1 <= c <= 64.
Hypothesis Hused : forall d, 0 <= d < r -> 1 <= P d /\ BS * P d < 2 ^ 32.
Hypothesis Hfree : forall d, r <= d < DIRECT_MAX -> P d = 0.
Hypothesis Hfull : forall d s, 0 <= d < r - 1 -> 0 <= s < 64 ->
  dirent_ino m d s <> 0.
Hypothesis Hlast_used : forall s, 0 <= s < c -> dirent_ino m (r - 1) s <> 0.
Hypothesis Hlast_free : forall s, c <= s < 64 -> dirent_ino m (r - 1) s = 0.

Lemma find_root_slot_from n d :
  0 <= d <= r - 1 -> d + Z.of_nat n = DIRECT_MAX ->
  find_root_slot m (3 * BS) d n =
  if c <? 64 then Some (BS * P (r - 1) + DIRENT_SIZE * c) else None.
Proof.
  revert d. induction n as [|n IH]; intros d Hd Hn.
  - consts. lia.
  - cbn [find_root_slot]. cbv zeta. fold (P d).
    destruct (Hused d) as [Hp1 Hp2]; [lia|].
    destruct (Z.eqb_spec (P d) 0) as [E|_]; [lia|].
    rewrite (u32_small (BS * P d)) by side.
    destruct (decide (d = r - 1)) as [->|Hne].
    + destruct (Z.ltb_spec c 64) as [Hc64|Hc64].
      * rewrite (find_free_dirent_hit _ _ _ _ c).
        -- f_equal. lia.
        -- intros s Hs. specialize (Hlast_used s ltac:(lia)).
           unfold dirent_ino in Hlast_used. fold (P (r - 1)) in Hlast_used.
           by replace (BS * P (r - 1) + s * DIRENT_SIZE)
             with (BS * P (r - 1) + DIRENT_SIZE * s) by lia.
        -- specialize (Hlast_free c ltac:(lia)).
           unfold dirent_ino in Hlast_free. fold (P (r - 1)) in Hlast_free.
           by replace (BS * P (r - 1) + c * DIRENT_SIZE)
             with (BS * P (r - 1) + DIRENT_SIZE * c) by lia.
        -- lia.
      * rewrite find_free_dirent_miss.
        2:{ intros s Hs. specialize (Hlast_used s ltac:(lia)).
            unfold dirent_ino in Hlast_used. fold (P (r - 1)) in Hlast_used.
            by replace (BS * P (r - 1) + s * DIRENT_SIZE)
              with (BS * P (r - 1) + DIRENT_SIZE * s) by lia. }
        destruct n as [|n]; [done|].
        cbn [find_root_slot]. cbv zeta. fold (P (r - 1 + 1)).
        rewrite Hfree by (consts; lia). done.
    + rewrite find_free_dirent_miss.
      2:{ intros s Hs. specialize (Hfull d s ltac:(lia) ltac:(lia)).
          unfold dirent_ino in Hfull. fold (P d) in Hfull.
          by replace (BS * P d + s * DIRENT_SIZE)
            with (BS * P d + DIRENT_SIZE * s) by lia. }
      apply IH; lia.
Qed.

Lemma find_root_slot_spec :
  find_root_slot m (3 * BS) 0 (Z.to_nat DIRECT_MAX) =
  if c <? 64 then Some (BS * P (r - 1) + DIRENT_SIZE * c) else None.
Proof.
  apply find_root_slot_from; [lia|]. consts. lia.
Qed.

Lemma find_direct_slot_from n d :
  0 <= d <= r -> d + Z.of_nat n = DIRECT_MAX ->
  find_direct_slot m (3 * BS) d n = if r <? DIRECT_MAX then r else -1.
Proof.
  revert d. induction n as [|n IH]; intros d Hd Hn.
  - destruct (Z.ltb_spec r DIRECT_MAX); [lia|done].
  - cbn [find_direct_slot]. fold (P d).
    destruct (decide (d = r)) as [->|Hne].
    + rewrite Hfree by lia. cbn.
      destruct (Z.ltb_spec r DIRECT_MAX); [done|lia].
    + destruct (Hused d) as [Hp1 Hp2]; [lia|].
      destruct (Z.eqb_spec (P d) 0) as [E|_]; [lia|].
      apply IH; lia.
Qed.

Lemma find_direct_slot_spec :
  find_direct_slot m (3 * BS) 0 (Z.to_nat DIRECT_MAX) =
  if r <? DIRECT_MAX then r else -1.
Proof.
  apply find_direct_slot_from; [lia|]. consts. lia.
Qed.
End RootScan.

(** ** The new directory entry and the root updates *)

Lemma len_new_dirent ino_no namebuf namelen :
  len (new_dirent ino_no namebuf namelen) = DIRENT_SIZE.
Proof. unfold new_dirent, dirent_checksum_finalize. side. Qed.

Lemma new_dirent_inode_no ino_no namebuf namelen :
  load (new_dirent ino_no namebuf namelen) de.inode_no 4 = u32 ino_no.
Proof.
  unfold new_dirent, dirent_checksum_finalize. cbv zeta. peel.
  rewrite load_store_same4 by side. done.
Qed.

Lemma new_dirent_type ino_no namebuf namelen :
  load (new_dirent ino_no namebuf namelen) de.type 1 = 1.
Proof.
  unfold new_dirent, dirent_checksum_finalize. cbv zeta. peel.
  rewrite load_store_same1 by side. done.
Qed.

Lemma len_touch_root m root now : len (touch_root m root now) = len m.
Proof. unfold touch_root. by autorewrite with len. Qed.

#[local] Hint Rewrite len_new_dirent len_touch_root len_write_blocks : len.

Section TouchRoot.
Variables (m : list Z) (root now : Z).
Hypothesis Hroot : 0 <= root.
Hypothesis Hfit : root + INODE_SIZE <= len m.

Let m' := touch_root m root now.

Lemma same_outside_touch_root :
  same_outside root (root + INODE_SIZE) m m'.
Proof.
  unfold m', touch_root, inode_crc_finalize. cbv zeta.
  repeat (eapply same_outside_trans;
          [|eapply same_outside_weaken;
            [apply same_outside_store|side|side]]).
  apply same_outside_refl.
Qed.

Lemma touch_root_links :
  load m' (root + ino.links) 2 = u16 (load m (root + ino.links) 2 + 1).
Proof.
  unfold m', touch_root, inode_crc_finalize. cbv zeta. peel.
  rewrite load_store_same2 by side. peel.
  unfold u16. apply Z.mod_mod. lia.
Qed.

Lemma touch_root_size_bytes :
  load m' (root + ino.size_bytes) 8 =
  u64 (load m (root + ino.size_bytes) 8 + DIRENT_SIZE).
Proof.
  unfold m', touch_root, inode_crc_finalize. cbv zeta. peel.
  rewrite load_store_same8 by side.
  unfold u64. apply Z.mod_mod. lia.
Qed.

Lemma touch_root_direct d :
  0 <= d < DIRECT_MAX ->
  load m' (root + ino.direct d) 4 = load m (root + ino.direct d) 4.
Proof.
  intros Hd. unfold m', touch_root, inode_crc_finalize. cbv zeta.
  peel. done.
Qed.

Lemma touch_root_mode :
  load m' (root + ino.mode) 2 = load m (root + ino.mode) 2.
Proof. unfold m', touch_root, inode_crc_finalize. cbv zeta. peel. done. Qed.
Lemma touch_root_times :
  load m' (root + ino.mtime) 8 = u64 now /\
  load m' (root + ino.ctime) 8 = u64 now /\
  load m' (root + ino.atime) 8 = load m (root + ino.atime) 8.
Proof.
  unfold m', touch_root, inode_crc_finalize. cbv zeta. repeat split.
  - peel. rewrite load_store_same8 by side. done.
  - peel. rewrite load_store_same8 by side. done.
  - peel. done.
Qed.
End TouchRoot.

Lemma concat_map_nil {A B} (g : A -> list B) (l : list A) :
  Forall (fun x => g x = []) l -> concat (map g l) = [].
Proof. induction 1 as [|x l Hx _ IH]; cbn; [done|]. by rewrite Hx, IH. Qed.

Lemma map_ext_Forall {A B} (g h : A -> B) (l : list A) :
  Forall (fun x => g x = h x) l -> map g l = map h l.
Proof. induction 1 as [|x l Hx _ IH]; cbn; [done|]. by rewrite Hx, IH. Qed.

(** Consecutive blocks of a list, put end to end. *)
Lemma concat_chunks (X : list Z) (n : nat) :
  concat (map (fun d => bytes X (BS * d) BS) (seqZ 0 (Z.of_nat n))) =
  bytes X 0 (BS * Z.of_nat n).
Proof.
  induction n as [|n IH].
  - rewrite seqZ_nil by lia. unfold bytes. by rewrite Z.mul_0_r.
  - rewrite seqZ_S, map_app, concat_app, IH. cbn [map concat].
    rewrite app_nil_r, Z.add_0_l. unfold bytes.
    change (Z.to_nat 0) with 0%nat. rewrite drop_0.
    replace (Z.to_nat (BS * Z.of_nat (S n)))
      with (Z.to_nat (BS * Z.of_nat n) + Z.to_nat BS)%nat by (consts; lia).
    apply take_take_drop.
Qed.

(** ** One run of the adder on a well-shaped image *)

Section Adder.
Variables (m : list Z) (tb ic itb k j r c : Z).
Hypothesis Inv : image_inv m tb ic itb k j r c.

Let drs := 3 + itb.
Let drb := tb - (3 + itb).

Lemma inv_bounds :
  1 <= ic <= 32768 /\ ic * 128 <= itb * 4096 /\ 3 + itb < tb <= 32768 /\
  1 <= k <= ic /\ 1 <= j <= drb /\ 1 <= r <= 12 /\ 1 <= c <= 64 /\
  len m = 4096 * tb.
Proof.
  destruct Inv. subst drb. consts. lia.
Qed.

Lemma adder_head_checks :
  negb (len m mod BS =? 0) = false /\
  negb (load m sb.magic 4 =? MAGIC)
    || negb (load m sb.version 4 =? 1)
    || negb (load m sb.block_size 4 =? BS) = false /\
  negb (load m sb.total_blocks 8 =? len m / BS) = false.
Proof.
  pose proof inv_bounds as B. destruct Inv.
  rewrite inv_magic0, inv_version0, inv_block_size0, inv_total_blocks0.
  rewrite !Z.eqb_refl. cbn [negb orb].
  replace (len m) with (tb * BS) by (consts; lia).
  rewrite Z.mod_mul, Z.div_mul by (consts; lia).
  by rewrite !Z.eqb_refl.
Qed.

Lemma adder_pointers :
  u64 (BS * load m sb.inode_bitmap_start 8) = BS /\
  u64 (BS * load m sb.data_bitmap_start 8) = 2 * BS /\
  u64 (BS * load m sb.inode_table_start 8) = 3 * BS.
Proof.
  destruct Inv.
  rewrite inv_inode_bitmap_start0, inv_data_bitmap_start0,
    inv_inode_table_start0. done.
Qed.

Lemma adder_first_free_inode :
  first_free m BS 0 (Z.to_nat (u32 (load m sb.inode_count 8))) =
  if k <? ic then k else UINT32_MAX.
Proof.
  pose proof inv_bounds as B. destruct Inv.
  rewrite inv_inode_count0, u32_small by lia.
  destruct (Z.ltb_spec k ic).
  - apply first_free_hit; [| |lia].
    + intros i Hi. rewrite inv_ibits0 by lia.
      destruct (Z.ltb_spec i k); [done|lia].
    + rewrite inv_ibits0 by lia. destruct (Z.ltb_spec k k); [lia|done].
  - apply first_free_miss. intros i Hi. rewrite inv_ibits0 by lia.
    destruct (Z.ltb_spec i k); [done|lia].
Qed.

Lemma adder_scan_free want :
  scan_free m (2 * BS) 0
    (Z.to_nat (u32 (load m sb.data_region_blocks 8))) want =
  seqZ j (Z.min want (drb - j)).
Proof.
  pose proof inv_bounds as B. destruct Inv.
  rewrite inv_data_region_blocks0. fold drb. rewrite u32_small by lia.
  rewrite (scan_free_skip _ _ _ _ j); [| |lia].
  - rewrite scan_free_zeros.
    + f_equal. lia.
    + intros i Hi. rewrite inv_dbits0 by (fold drb; lia).
      destruct (Z.ltb_spec i j); [lia|done].
  - intros i Hi. rewrite inv_dbits0 by (fold drb; lia).
    destruct (Z.ltb_spec i j); [done|lia].
Qed.

Variable f : file.
Variables (path : list Z) (t_ino t_dir : Z).

Let fsize := u64 (st_size f).
Let need := need_blocks fsize.
Hypothesis Hneed : need <= DIRECT_MAX.
Hypothesis Hk : k < ic.
Hypothesis Hj : j + need <= drb.

Lemma need_nonneg : 0 <= need.
Proof. unfold need, need_blocks, u32. lia. Qed.

(** The buffer after each paragraph of [main]. *)
Let dbs := seqZ j need.
Let m1 := set_bit m BS k.
Let m2 := set_bits m1 (2 * BS) dbs.
Let ino_a := 3 * BS + INODE_SIZE * k.
Let m3 := build_inode m2 ino_a fsize (u64 t_ino) dbs.
Let wb := if need =? 0 then (m3, true)
          else write_blocks m3 ino_a fsize need (f_data f) 0
                 (Z.to_nat need).
Let m4 := fst wb.

Lemma len_dbs : len dbs = need.
Proof. pose proof need_nonneg. unfold len, dbs. rewrite length_seqZ. lia. Qed.

Lemma F1 : same_outside BS (2 * BS) m m1.
Proof.
  pose proof inv_bounds as B.
  eapply same_outside_weaken; [apply same_outside_set_bit|side|side].
Qed.

Lemma F2 : same_outside (2 * BS) (3 * BS) m1 m2.
Proof.
  pose proof inv_bounds as B. pose proof need_nonneg.
  apply same_outside_set_bits. apply Forall_seqZ.
  intros x Hx. subst drb. side.
Qed.

Lemma len_m2 : len m2 = 4096 * tb.
Proof.
  pose proof inv_bounds as B. unfold m2, m1. side.
Qed.

Lemma F3 : same_outside ino_a (ino_a + INODE_SIZE) m2 m3.
Proof.
  apply same_outside_build_inode. by rewrite len_dbs.
Qed.

Lemma m2_sb a n :
  0 <= a -> a + Z.of_nat n <= BS -> load m2 a n = load m a n.
Proof.
  intros. rewrite (load_frame _ _ _ _ _ _ F2) by side.
  rewrite (load_frame _ _ _ _ _ _ F1) by side. done.
Qed.

Lemma ino_a_bounds :
  3 * BS + INODE_SIZE <= ino_a /\ ino_a + INODE_SIZE <= BS * drs.
Proof.
  pose proof inv_bounds as B. subst ino_a drs. consts. lia.
Qed.

(** The direct pointers of the new inode name blocks [j], [j+1], ... of
    the data region. *)
Lemma m3_direct_used i :
  0 <= i < need -> load m3 (ino_a + ino.direct i) 4 = drs + j + i.
Proof.
  intros Hi. pose proof inv_bounds as B. pose proof ino_a_bounds as A.
  replace i with (Z.of_nat (Z.to_nat i)) at 1 by lia.
  assert (HL : dbs !! Z.to_nat i = Some (j + i)).
  { unfold dbs. rewrite lookup_seqZ_lt by lia. f_equal. lia. }
  unfold m3. eapply eq_trans.
  - eapply build_inode_direct_used; [..|exact HL];
      rewrite ?len_dbs, ?len_m2; subst drs; consts; lia.
  - rewrite m2_sb by side.
    rewrite (inv_data_region_start _ _ _ _ _ _ _ _ Inv).
    subst drb drs.
    rewrite u64_small by lia. rewrite u32_small by lia. lia.
Qed.

Lemma m3_direct_free d :
  need <= d < DIRECT_MAX -> load m3 (ino_a + ino.direct d) 4 = 0.
Proof.
  intros Hd. pose proof inv_bounds as B. pose proof ino_a_bounds as A.
  unfold m3.
  apply build_inode_direct_free;
    rewrite ?len_dbs, ?len_m2; subst drs; consts; lia.
Qed.

Lemma F4 : same_outside (BS * (drs + j)) (len m3) m3 m4.
Proof.
  pose proof inv_bounds as B. pose proof ino_a_bounds as A.
  pose proof need_nonneg.
  unfold m4, wb. destruct (need =? 0); [apply same_outside_refl|].
  apply same_outside_write_blocks.
  - consts. lia.
  - lia.
  - lia.
  - subst drs. consts. lia.
  - intros i Hi. rewrite m3_direct_used by lia.
    subst drb drs. rewrite u32_small by side. consts. lia.
Qed.

Lemma len_m4 : len m4 = 4096 * tb.
Proof.
  rewrite (len_frame _ _ _ _ F4). unfold m3. rewrite len_build_inode.
  apply len_m2.
Qed.

(** What the first four paragraphs leave alone: the superblock, the root
    inode, and the data blocks in use before the call. *)
Lemma m4_keep a n :
  0 <= a ->
  a + Z.of_nat n <= BS \/
  (3 * BS <= a /\ a + Z.of_nat n <= 3 * BS + INODE_SIZE) \/
  (BS * drs <= a /\ a + Z.of_nat n <= BS * (drs + j)) ->
  load m4 a n = load m a n.
Proof.
  intros Ha Hcase. pose proof inv_bounds as B. pose proof ino_a_bounds as A.
  rewrite (load_frame _ _ _ _ _ _ F4) by side.
  rewrite (load_frame _ _ _ _ _ _ F3) by side.
  rewrite (load_frame _ _ _ _ _ _ F2) by (subst drs; side).
  rewrite (load_frame _ _ _ _ _ _ F1) by (subst drs; side).
  done.
Qed.

Lemma m4_ibits i :
  0 <= i < ic -> test_bit m4 BS i = (if i <? k + 1 then 1 else 0).
Proof.
  intros Hi. pose proof inv_bounds as B. pose proof ino_a_bounds as A.
  rewrite (test_bit_frame _ _ _ _ _ _ F4) by (subst drs; side).
  rewrite (test_bit_frame _ _ _ _ _ _ F3) by side.
  rewrite (test_bit_frame _ _ _ _ _ _ F2) by side.
  unfold m1. destruct (decide (i = k)) as [->|Hne].
  - rewrite test_bit_set_bit_same by side.
    destruct (Z.ltb_spec k (k + 1)); [done|lia].
  - rewrite test_bit_set_bit_other by side.
    destruct Inv. rewrite inv_ibits0 by lia.
    destruct (Z.ltb_spec i k), (Z.ltb_spec i (k + 1)); lia.
Qed.

Lemma m4_dbits i :
  0 <= i < drb -> test_bit m4 (2 * BS) i = (if i <? j + need then 1 else 0).
Proof.
  intros Hi. pose proof inv_bounds as B. pose proof ino_a_bounds as A.
  pose proof need_nonneg.
  rewrite (test_bit_frame _ _ _ _ _ _ F4) by (subst drs drb; side).
  rewrite (test_bit_frame _ _ _ _ _ _ F3) by (subst drb; side).
  assert (Hpos : Forall (fun x => 0 <= x) dbs).
  { apply Forall_seqZ. lia. }
  unfold m2. destruct (decide (j <= i < j + need)) as [Hin|Hout].
  - rewrite test_bit_set_bits_in; [| side | done | | ].
    + destruct (Z.ltb_spec i (j + need)); [done|lia].
    + apply Forall_seqZ. intros x Hx. unfold m1. subst drb. side.
    + apply elem_of_seqZ. lia.
  - rewrite test_bit_set_bits_notin; [| side | lia | done | ].
    + rewrite (test_bit_frame _ _ _ _ _ _ F1) by side.
      destruct Inv. rewrite inv_dbits0 by (fold drb; lia).
      destruct (Z.ltb_spec i j), (Z.ltb_spec i (j + need)); lia.
    + unfold dbs. rewrite elem_of_seqZ. lia.
Qed.

(** *** The directory entry *)

Let P (d : Z) : Z := load m (3 * BS + ino.direct d) 4.

Lemma P_used d : 0 <= d < r -> drs <= P d < drs + j.
Proof. intros. by apply (inv_direct_used _ _ _ _ _ _ _ _ Inv). Qed.

Lemma m4_P d :
  0 <= d < DIRECT_MAX -> load m4 (3 * BS + ino.direct d) 4 = P d.
Proof. intros. apply m4_keep; side. Qed.

Lemma m4_dirent_ino d s :
  0 <= d < r -> 0 <= s < 64 -> dirent_ino m4 d s = dirent_ino m d s.
Proof.
  intros Hd Hs. pose proof inv_bounds as B. pose proof (P_used d Hd).
  unfold dirent_ino. rewrite m4_P by side. fold (P d).
  apply m4_keep; subst drs; side.
Qed.

Lemma adder_find_root_slot :
  find_root_slot m4 (3 * BS) 0 (Z.to_nat DIRECT_MAX) =
  if c <? 64 then Some (BS * P (r - 1) + DIRENT_SIZE * c) else None.
Proof.
  pose proof inv_bounds as B.
  rewrite <- (m4_P (r - 1)) by side.
  apply find_root_slot_spec.
  - side.
  - side.
  - intros d Hd. rewrite m4_P by side. pose proof (P_used d Hd).
    subst drs. consts. side.
  - intros d Hd. rewrite m4_P by side.
    by apply (inv_direct_free _ _ _ _ _ _ _ _ Inv).
  - intros d s Hd Hs. rewrite m4_dirent_ino by side.
    pose proof (inv_full _ _ _ _ _ _ _ _ Inv d s Hd Hs). side.
  - intros s Hs. rewrite m4_dirent_ino by side.
    pose proof (inv_last_used _ _ _ _ _ _ _ _ Inv s Hs). side.
  - intros s Hs. rewrite m4_dirent_ino by side.
    by apply (inv_last_free _ _ _ _ _ _ _ _ Inv).
Qed.

Lemma adder_find_direct_slot :
  find_direct_slot m4 (3 * BS) 0 (Z.to_nat DIRECT_MAX) =
  if r <? DIRECT_MAX then r else -1.
Proof.
  pose proof inv_bounds as B.
  apply find_direct_slot_spec.
  - side.
  - intros d Hd. rewrite m4_P by side. pose proof (P_used d Hd).
    subst drs. consts. side.
  - intros d Hd. rewrite m4_P by side.
    by apply (inv_direct_free _ _ _ _ _ _ _ _ Inv).
Qed.

Let bname := base_name path.
Let namelen := Z.min (strlen bname) 58.
Let namebuf := memcpy (replicate 58 0) 0 (bytes bname 0 namelen).
Let ne := new_dirent (u32 (k + 1)) namebuf namelen.

Lemma Hne_len : len ne = DIRENT_SIZE.
Proof. apply len_new_dirent. Qed.

Lemma Hne_ino : load ne de.inode_no 4 = k + 1.
Proof.
  pose proof inv_bounds as B. unfold ne.
  rewrite new_dirent_inode_no. rewrite (u32_small (k + 1)) by lia.
  apply u32_small. lia.
Qed.

(** **** An existing root block has a free slot *)

Let e := BS * P (r - 1) + DIRENT_SIZE * c.
Let m5 := memcpy m4 e ne.
Let mp := touch_root m5 (3 * BS) (u64 t_dir).

Section Placed.
Hypothesis Hc : c < 64.

Lemma e_bounds : BS * drs <= e /\ e + DIRENT_SIZE <= BS * (drs + j).
Proof.
  pose proof inv_bounds as B. pose proof (P_used (r - 1) ltac:(side)).
  subst e. consts. side.
Qed.

Lemma Fp1 : same_outside e (e + DIRENT_SIZE) m4 m5.
Proof. rewrite <- Hne_len. apply same_outside_memcpy. Qed.

Lemma Fp2 : same_outside (3 * BS) (3 * BS + INODE_SIZE) m5 mp.
Proof. apply same_outside_touch_root. Qed.

Lemma len_mp : len mp = 4096 * tb.
Proof. unfold mp, m5. autorewrite with len. apply len_m4. Qed.

Lemma mp_sb a n :
  0 <= a -> a + Z.of_nat n <= BS -> load mp a n = load m a n.
Proof.
  intros. pose proof e_bounds. pose proof inv_bounds.
  rewrite (load_frame _ _ _ _ _ _ Fp2) by side.
  rewrite (load_frame _ _ _ _ _ _ Fp1) by (subst drs; side).
  apply m4_keep; side.
Qed.

Lemma mp_bit base i :
  base = BS \/ base = 2 * BS -> 0 <= i < 32768 ->
  test_bit mp base i = test_bit m4 base i.
Proof.
  intros Hb Hi. pose proof e_bounds. pose proof inv_bounds.
  rewrite (test_bit_frame _ _ _ _ _ _ Fp2) by side.
  rewrite (test_bit_frame _ _ _ _ _ _ Fp1) by (subst drs; side).
  done.
Qed.

Lemma m5_root a n :
  3 * BS <= a -> a + Z.of_nat n <= 3 * BS + INODE_SIZE ->
  load m5 a n = load m a n.
Proof.
  intros. pose proof e_bounds. pose proof inv_bounds.
  rewrite (load_frame _ _ _ _ _ _ Fp1) by (subst drs; side).
  apply m4_keep; side.
Qed.

Lemma mp_P d :
  0 <= d < DIRECT_MAX -> load mp (3 * BS + ino.direct d) 4 = P d.
Proof.
  intros. unfold mp. rewrite touch_root_direct by done.
  apply m5_root; side.
Qed.

Lemma mp_dirent_ino d s :
  0 <= d < r -> 0 <= s < 64 ->
  dirent_ino mp d s =
  if decide (d = r - 1 /\ s = c) then k + 1 else dirent_ino m d s.
Proof.
  intros Hd Hs. pose proof e_bounds as E. pose proof inv_bounds as B.
  pose proof (P_used d Hd) as Pd.
  pose proof (P_used (r - 1) ltac:(side)) as Pr.
  unfold dirent_ino. rewrite mp_P by side. fold (P d).
  rewrite (load_frame _ _ _ _ _ _ Fp2) by (subst drs; side).
  destruct (decide (d = r - 1 /\ s = c)) as [[-> ->]|Hne].
  - fold e. unfold m5.
    rewrite load_memcpy_in by (rewrite ?Hne_len, ?len_m4; subst drs; side).
    rewrite Z.sub_diag. apply Hne_ino.
  - rewrite (load_frame _ _ _ _ _ _ Fp1).
    + apply m4_keep; subst drs; side.
    + subst drs. side.
    + destruct (decide (d = r - 1)) as [->|Hd'].
      * subst e. consts. side.
      * assert (P d <> P (r - 1)).
        { intros Heq.
          apply (inv_direct_inj _ _ _ _ _ _ _ _ Inv) in Heq ; side. }
        subst e. consts. side.
Qed.

Lemma placed_inv : image_inv mp tb ic itb (k + 1) (j + need) r (c + 1).
Proof.
  pose proof inv_bounds as B. pose proof need_nonneg as N.
  constructor.
  - rewrite len_mp. consts. side.
  - rewrite mp_sb by side. apply (inv_magic _ _ _ _ _ _ _ _ Inv).
  - rewrite mp_sb by side. apply (inv_version _ _ _ _ _ _ _ _ Inv).
  - rewrite mp_sb by side. apply (inv_block_size _ _ _ _ _ _ _ _ Inv).
  - rewrite mp_sb by side. apply (inv_total_blocks _ _ _ _ _ _ _ _ Inv).
  - rewrite mp_sb by side. apply (inv_inode_count _ _ _ _ _ _ _ _ Inv).
  - rewrite mp_sb by side.
    apply (inv_inode_bitmap_start _ _ _ _ _ _ _ _ Inv).
  - rewrite mp_sb by side.
    apply (inv_data_bitmap_start _ _ _ _ _ _ _ _ Inv).
  - rewrite mp_sb by side.
    apply (inv_inode_table_start _ _ _ _ _ _ _ _ Inv).
  - rewrite mp_sb by side.
    apply (inv_inode_table_blocks _ _ _ _ _ _ _ _ Inv).
  - rewrite mp_sb by side.
    apply (inv_data_region_start _ _ _ _ _ _ _ _ Inv).
  - rewrite mp_sb by side.
    apply (inv_data_region_blocks _ _ _ _ _ _ _ _ Inv).
  - rewrite mp_sb by side. apply (inv_root_inode _ _ _ _ _ _ _ _ Inv).
  - apply (inv_geom _ _ _ _ _ _ _ _ Inv).
  - side.
  - intros i Hi. rewrite mp_bit by (auto; lia). by apply m4_ibits.
  - subst drb. side.
  - intros i Hi. rewrite mp_bit by (auto; lia). by apply m4_dbits.
  - apply (inv_r _ _ _ _ _ _ _ _ Inv).
  - side.
  - pose proof (inv_count _ _ _ _ _ _ _ _ Inv). side.
  - unfold mp. rewrite touch_root_links by (unfold m5; autorewrite with len; rewrite ?len_m4; side).
    rewrite m5_root by side.
    rewrite (inv_links _ _ _ _ _ _ _ _ Inv). apply u16_small. side.
  - unfold mp. rewrite touch_root_size_bytes by (unfold m5; autorewrite with len; rewrite ?len_m4; side).
    rewrite m5_root by side.
    rewrite (inv_size _ _ _ _ _ _ _ _ Inv).
    rewrite u64_small by side. consts. side.
  - intros d Hd. rewrite mp_P by side. pose proof (P_used d Hd).
    subst drs. side.
  - intros d d' Hd Hd'. rewrite !mp_P by side.
    by apply (inv_direct_inj _ _ _ _ _ _ _ _ Inv).
  - intros d Hd. rewrite mp_P by side.
    by apply (inv_direct_free _ _ _ _ _ _ _ _ Inv).
  - intros d s Hd Hs. rewrite mp_dirent_ino by side.
    destruct (decide _); [side|].
    pose proof (inv_full _ _ _ _ _ _ _ _ Inv d s Hd Hs). side.
  - intros s Hs. rewrite mp_dirent_ino by side.
    destruct (decide _); [side|].
    pose proof (inv_last_used _ _ _ _ _ _ _ _ Inv s ltac:(side)). side.
  - intros s Hs. rewrite mp_dirent_ino by side.
    destruct (decide _); [side|].
    apply (inv_last_free _ _ _ _ _ _ _ _ Inv). side.
  - unfold mp. rewrite touch_root_mode by side. rewrite m5_root by side.
    apply (inv_root_mode _ _ _ _ _ _ _ _ Inv).
  - pose proof (inv_count _ _ _ _ _ _ _ _ Inv).
    rewrite mp_dirent_ino by side.
    destruct (decide _); [side|].
    apply (inv_dot _ _ _ _ _ _ _ _ Inv).
  - pose proof (inv_count _ _ _ _ _ _ _ _ Inv).
    rewrite mp_dirent_ino by side.
    destruct (decide _); [side|].
    apply (inv_dotdot _ _ _ _ _ _ _ _ Inv).
Qed.
End Placed.

(** **** The root directory is full and grows by a block *)

Let fi := j + need.
Let m6 := set_bit m4 (2 * BS) fi.
Let abs := drs + fi.
Let m7 := store m6 (3 * BS + ino.direct r) 4 abs.
Let blk := BS * abs.
Let m8 := memset m7 blk 0 BS.
Let m9 := memcpy m8 blk ne.
Let me := touch_root m9 (3 * BS) (u64 t_dir).

Section Extended.
Hypothesis Hc : c = 64.
Hypothesis Hr : r < DIRECT_MAX.
Hypothesis Hfree : j + need < drb.

Lemma blk_bounds :
  BS * (drs + j) <= blk /\ blk + BS <= 4096 * tb /\ 0 <= fi < drb.
Proof.
  pose proof inv_bounds as B. pose proof need_nonneg.
  subst blk abs fi drb drs. consts. lia.
Qed.

Lemma Fe1 : same_outside (2 * BS) (3 * BS) m4 m6.
Proof.
  pose proof inv_bounds as B. pose proof blk_bounds.
  eapply same_outside_weaken; [apply same_outside_set_bit| |];
    subst drb; side.
Qed.

Lemma Fe2 :
  same_outside (3 * BS + ino.direct r) (3 * BS + ino.direct r + 4) m6 m7.
Proof. apply (same_outside_store m6 _ 4). Qed.

Lemma Fe3 : same_outside blk (blk + BS) m7 m8.
Proof. apply same_outside_memset. side. Qed.

Lemma Fe4 : same_outside blk (blk + DIRENT_SIZE) m8 m9.
Proof. rewrite <- Hne_len. apply same_outside_memcpy. Qed.

Lemma Fe5 : same_outside (3 * BS) (3 * BS + INODE_SIZE) m9 me.
Proof. apply same_outside_touch_root. Qed.

Lemma len_m9 : len m9 = 4096 * tb.
Proof. unfold m9, m8, m7, m6. autorewrite with len. apply len_m4. Qed.

Lemma len_me : len me = 4096 * tb.
Proof. unfold me. autorewrite with len. apply len_m9. Qed.

(** Below the new block, only the data bitmap and the root inode
    change. *)
Lemma m9_keep a n :
  0 <= a ->
  a + Z.of_nat n <= 2 * BS \/
  (3 * BS <= a /\ a + Z.of_nat n <= 3 * BS + ino.direct r) \/
  (3 * BS + ino.direct r + 4 <= a /\ a + Z.of_nat n <= blk) ->
  load m9 a n = load m4 a n.
Proof.
  intros Ha Hcase. pose proof inv_bounds as B. pose proof blk_bounds.
  rewrite (load_frame _ _ _ _ _ _ Fe4) by side.
  rewrite (load_frame _ _ _ _ _ _ Fe3) by side.
  rewrite (load_frame _ _ _ _ _ _ Fe2) by side.
  rewrite (load_frame _ _ _ _ _ _ Fe1) by (subst drs; side).
  done.
Qed.

Lemma me_sb a n :
  0 <= a -> a + Z.of_nat n <= BS -> load me a n = load m a n.
Proof.
  intros. pose proof inv_bounds.
  rewrite (load_frame _ _ _ _ _ _ Fe5) by side.
  rewrite m9_keep by side. apply m4_keep; side.
Qed.

Lemma me_ibits i :
  0 <= i < ic -> test_bit me BS i = (if i <? k + 1 then 1 else 0).
Proof.
  intros Hi. pose proof inv_bounds as B. pose proof blk_bounds.
  rewrite (test_bit_frame _ _ _ _ _ _ Fe5) by side.
  rewrite (test_bit_frame _ _ _ _ _ _ Fe4) by (subst drs; side).
  rewrite (test_bit_frame _ _ _ _ _ _ Fe3) by (subst drs; side).
  rewrite (test_bit_frame _ _ _ _ _ _ Fe2) by side.
  rewrite (test_bit_frame _ _ _ _ _ _ Fe1) by side.
  by apply m4_ibits.
Qed.

Lemma me_dbits i :
  0 <= i < drb ->
  test_bit me (2 * BS) i = (if i <? j + need + 1 then 1 else 0).
Proof.
  intros Hi. pose proof inv_bounds as B. pose proof blk_bounds.
  rewrite (test_bit_frame _ _ _ _ _ _ Fe5) by (subst drb; side).
  rewrite (test_bit_frame _ _ _ _ _ _ Fe4) by (subst drs drb; side).
  rewrite (test_bit_frame _ _ _ _ _ _ Fe3) by (subst drs drb; side).
  rewrite (test_bit_frame _ _ _ _ _ _ Fe2) by (subst drb; side).
  unfold m6. destruct (decide (i = fi)) as [->|Hne].
  - rewrite test_bit_set_bit_same
      by (rewrite ?len_m4; subst drb; side).
    subst fi. destruct (Z.ltb_spec (j + need) (j + need + 1)); side.
  - rewrite test_bit_set_bit_other by side.
    rewrite m4_dbits by done. subst fi.
    destruct (Z.ltb_spec i (j + need)),
      (Z.ltb_spec i (j + need + 1)); side.
Qed.

Lemma me_P d :
  0 <= d < DIRECT_MAX ->
  load me (3 * BS + ino.direct d) 4 = if decide (d = r) then abs else P d.
Proof.
  intros Hd. pose proof inv_bounds as B. pose proof blk_bounds.
  unfold me. rewrite touch_root_direct by done.
  rewrite (load_frame _ _ _ _ _ _ Fe4) by (subst drs; side).
  rewrite (load_frame _ _ _ _ _ _ Fe3) by (subst drs; side).
  unfold m7. destruct (decide (d = r)) as [->|Hne].
  - rewrite load_store_same4
      by (unfold m6; autorewrite with len; rewrite ?len_m4; side).
    apply u32_small. subst abs fi drs drb. side.
  - rewrite load_store_disj by side.
    rewrite (load_frame _ _ _ _ _ _ Fe1) by side.
    by apply m4_P.
Qed.

Lemma me_dirent_old d s :
  0 <= d < r -> 0 <= s < 64 -> dirent_ino me d s = dirent_ino m d s.
Proof.
  intros Hd Hs. pose proof inv_bounds as B. pose proof blk_bounds.
  pose proof (P_used d Hd) as Pd.
  unfold dirent_ino. rewrite me_P by side.
  destruct (decide (d = r)); [lia|]. fold (P d).
  rewrite (load_frame _ _ _ _ _ _ Fe5) by (subst drs; side).
  rewrite m9_keep by (subst drs; side).
  apply m4_keep; subst drs; side.
Qed.

Lemma me_dirent_new s :
  0 <= s < 64 -> dirent_ino me r s = if s =? 0 then k + 1 else 0.
Proof.
  intros Hs. pose proof inv_bounds as B. pose proof blk_bounds.
  unfold dirent_ino. rewrite me_P by side.
  destruct (decide (r = r)); [|done]. fold blk.
  rewrite (load_frame _ _ _ _ _ _ Fe5) by (subst drs; side).
  destruct (Z.eqb_spec s 0) as [->|Hs0].
  - unfold m9.
    rewrite load_memcpy_in
      by (rewrite ?Hne_len; unfold m8, m7, m6; autorewrite with len;
          rewrite ?len_m4; side).
    replace (blk + DIRENT_SIZE * 0 - blk) with 0 by lia.
    apply Hne_ino.
  - rewrite (load_frame _ _ _ _ _ _ Fe4) by side.
    unfold m8. apply load_memset_in;
      unfold m7, m6; autorewrite with len; rewrite ?len_m4; side.
Qed.

Lemma ext_inv :
  image_inv me tb ic itb (k + 1) (j + need + 1) (r + 1) 1.
Proof.
  pose proof inv_bounds as B. pose proof need_nonneg as N.
  pose proof blk_bounds as K.
  constructor.
  - rewrite len_me. side.
  - rewrite me_sb by side. apply (inv_magic _ _ _ _ _ _ _ _ Inv).
  - rewrite me_sb by side. apply (inv_version _ _ _ _ _ _ _ _ Inv).
  - rewrite me_sb by side. apply (inv_block_size _ _ _ _ _ _ _ _ Inv).
  - rewrite me_sb by side. apply (inv_total_blocks _ _ _ _ _ _ _ _ Inv).
  - rewrite me_sb by side. apply (inv_inode_count _ _ _ _ _ _ _ _ Inv).
  - rewrite me_sb by side.
    apply (inv_inode_bitmap_start _ _ _ _ _ _ _ _ Inv).
  - rewrite me_sb by side.
    apply (inv_data_bitmap_start _ _ _ _ _ _ _ _ Inv).
  - rewrite me_sb by side.
    apply (inv_inode_table_start _ _ _ _ _ _ _ _ Inv).
  - rewrite me_sb by side.
    apply (inv_inode_table_blocks _ _ _ _ _ _ _ _ Inv).
  - rewrite me_sb by side.
    apply (inv_data_region_start _ _ _ _ _ _ _ _ Inv).
  - rewrite me_sb by side.
    apply (inv_data_region_blocks _ _ _ _ _ _ _ _ Inv).
  - rewrite me_sb by side. apply (inv_root_inode _ _ _ _ _ _ _ _ Inv).
  - apply (inv_geom _ _ _ _ _ _ _ _ Inv).
  - side.
  - intros i Hi. by apply me_ibits.
  - subst drb. side.
  - intros i Hi. by apply me_dbits.
  - side.
  - side.
  - pose proof (inv_count _ _ _ _ _ _ _ _ Inv). side.
  - unfold me.
    rewrite touch_root_links by (rewrite ?len_m9; side).
    rewrite m9_keep by side. rewrite m4_keep by side.
    rewrite (inv_links _ _ _ _ _ _ _ _ Inv). apply u16_small. side.
  - unfold me.
    rewrite touch_root_size_bytes by (rewrite ?len_m9; side).
    rewrite m9_keep by side. rewrite m4_keep by side.
    rewrite (inv_size _ _ _ _ _ _ _ _ Inv).
    rewrite u64_small by side. side.
  - intros d Hd. rewrite me_P by side.
    destruct (decide (d = r)) as [->|Hne].
    + subst abs fi drs. side.
    + pose proof (P_used d ltac:(side)). subst drs. side.
  - intros d d' Hd Hd'. rewrite !me_P by side.
    destruct (decide (d = r)) as [->|Hne],
      (decide (d' = r)) as [->|Hne']; try done.
    + pose proof (P_used d' ltac:(side)). subst abs fi drs. side.
    + pose proof (P_used d ltac:(side)). subst abs fi drs. side.
    + apply (inv_direct_inj _ _ _ _ _ _ _ _ Inv); side.
  - intros d Hd. rewrite me_P by side.
    destruct (decide (d = r)); [side|].
    apply (inv_direct_free _ _ _ _ _ _ _ _ Inv). side.
  - intros d s Hd Hs. rewrite me_dirent_old by side.
    destruct (decide (d = r - 1)) as [->|Hne].
    + pose proof (inv_last_used _ _ _ _ _ _ _ _ Inv s ltac:(side)).
      side.
    + pose proof (inv_full _ _ _ _ _ _ _ _ Inv d s
                    ltac:(side) ltac:(side)).
      side.
  - intros s Hs. replace (r + 1 - 1) with r by lia.
    rewrite me_dirent_new by side. assert (s = 0) as -> by lia.
    cbn. side.
  - intros s Hs. replace (r + 1 - 1) with r by lia.
    rewrite me_dirent_new by side.
    destruct (Z.eqb_spec s 0); side.
  - unfold me. rewrite touch_root_mode by side.
    rewrite m9_keep by side. rewrite m4_keep by side.
    apply (inv_root_mode _ _ _ _ _ _ _ _ Inv).
  - rewrite me_dirent_old by side.
    apply (inv_dot _ _ _ _ _ _ _ _ Inv).
  - rewrite me_dirent_old by side.
    apply (inv_dotdot _ _ _ _ _ _ _ _ Inv).
Qed.
End Extended.

Lemma adder_first_free_data :
  first_free m4 (2 * BS) 0
    (Z.to_nat (u32 (load m4 sb.data_region_blocks 8))) =
  if j + need <? drb then j + need else UINT32_MAX.
Proof.
  pose proof inv_bounds as B. pose proof need_nonneg as N.
  rewrite m4_keep by side.
  rewrite (inv_data_region_blocks _ _ _ _ _ _ _ _ Inv). fold drb.
  rewrite u32_small by lia.
  destruct (Z.ltb_spec (j + need) drb).
  - apply first_free_hit; [| |lia].
    + intros i Hi. rewrite m4_dbits by lia.
      destruct (Z.ltb_spec i (j + need)); [done|lia].
    + rewrite m4_dbits by lia.
      destruct (Z.ltb_spec (j + need) (j + need)); [lia|done].
  - apply first_free_miss. intros i Hi. rewrite m4_dbits by lia.
    destruct (Z.ltb_spec i (j + need)); [done|lia].
Qed.

(** *** The run as a whole *)

Hypothesis Hreg : st_isreg f = true.

Lemma mkfs_adder_run :
  mkfs_adder m (Some f) path t_ino t_dir =
  if negb (snd wb) then stop 4 m4 k dbs
  else if c <? 64 then finish mp mp k dbs None
  else if r <? DIRECT_MAX then
    if j + need <? drb then finish me me k dbs (Some fi)
    else stop 7 m4 k dbs
  else stop 7 m4 k dbs.
Proof.
  pose proof inv_bounds as B. pose proof need_nonneg as N.
  unfold mkfs_adder.
  destruct adder_head_checks as (-> & -> & ->).
  destruct adder_pointers as (-> & -> & ->).
  rewrite Hreg. cbn [negb]. fold fsize need.
  destruct (Z.ltb_spec DIRECT_MAX need) as [|_]; [lia|].
  rewrite adder_first_free_inode.
  destruct (Z.ltb_spec k ic) as [_|]; [|lia].
  destruct (Z.eqb_spec k UINT32_MAX) as [|_]; [side|].
  assert (Hdbs : (if need =? 0 then []
                  else scan_free m (2 * BS) 0
                         (Z.to_nat (u32 (load m sb.data_region_blocks 8)))
                         need) = dbs).
  { rewrite adder_scan_free. unfold dbs.
    destruct (Z.eqb_spec need 0) as [->|]; [by rewrite seqZ_nil|].
    f_equal. lia. }
  rewrite Hdbs. rewrite len_dbs.
  replace (negb (need =? 0) && (need <? need)) with false
    by (destruct (Z.ltb_spec need need); [lia|by rewrite andb_false_r]).
  fold m1 m2. replace (3 * BS + INODE_SIZE * k) with ino_a by done.
  fold m3 wb m4.
  destruct (negb (snd wb)); [done|].
  replace (3 * BS + INODE_SIZE * 0) with (3 * BS) by done.
  rewrite adder_find_root_slot.
  replace (len m / BS) with tb by (consts; lia).
  fold bname namelen namebuf ne.
  destruct (Z.ltb_spec c 64) as [Hc|Hc].
  { fold e m5 mp. replace (BS * tb) with (len mp) by (rewrite len_mp; done).
    by rewrite bytes_all. }
  rewrite adder_find_direct_slot.
  destruct (Z.ltb_spec r DIRECT_MAX) as [Hr|Hr]; [|done].
  destruct (Z.ltb_spec r 0) as [|_]; [lia|].
  rewrite adder_first_free_data.
  destruct (Z.ltb_spec (j + need) drb) as [Hf|Hf]; [|done].
  destruct (Z.eqb_spec (j + need) UINT32_MAX) as [|_]; [side|].
  fold fi m6.
  assert (Hdrs : load m6 sb.data_region_start 8 = drs).
  { unfold m6. rewrite load_set_bit_disj by (subst fi drb; side).
    rewrite m4_keep by side.
    apply (inv_data_region_start _ _ _ _ _ _ _ _ Inv). }
  rewrite Hdrs.
  rewrite (u64_small (drs + fi)) by (subst fi drs drb; lia).
  rewrite (u32_small (drs + fi)) by (subst fi drs drb; lia).
  fold abs m7.
  rewrite (u32_small (BS * abs)) by (subst abs fi drs drb; side).
  fold blk m8 m9 me.
  replace (BS * tb) with (len me)
    by (rewrite len_me by (done || lia); done).
  by rewrite bytes_all.
Qed.

(** *** What the directory update leaves alone *)

Lemma mp_keep a n :
  c < 64 -> 0 <= a ->
  (3 * BS + INODE_SIZE <= a /\ a + n <= BS * drs) \/ BS * (drs + j) <= a ->
  bytes mp a n = bytes m4 a n.
Proof.
  intros Hc Ha Hcase. pose proof (e_bounds Hc). pose proof inv_bounds.
  rewrite (bytes_frame _ _ _ _ _ _ Fp2) by (subst drs; side).
  rewrite (bytes_frame _ _ _ _ _ _ Fp1) by (subst drs; side). done.
Qed.

Lemma me_keep a n :
  j + need < drb ->
  3 * BS + INODE_SIZE <= a -> a + n <= BS * (drs + j + need) ->
  bytes me a n = bytes m4 a n.
Proof.
  intros Hf Ha Hn. pose proof (blk_bounds Hf) as K.
  pose proof inv_bounds as B.
  rewrite (bytes_frame _ _ _ _ _ _ Fe5) by side.
  rewrite (bytes_frame _ _ _ _ _ _ Fe4) by (subst blk abs fi; side).
  rewrite (bytes_frame _ _ _ _ _ _ Fe3) by (subst blk abs fi; side).
  rewrite (bytes_frame _ _ _ _ _ _ Fe2) by side.
  rewrite (bytes_frame _ _ _ _ _ _ (Fe1 Hf)) by side. done.
Qed.

(** The buffer that is written out, in both cases. *)
Let mfin := if c <? 64 then mp else me.

Lemma mfin_keep a n :
  c < 64 \/ j + need < drb ->
  (3 * BS + INODE_SIZE <= a /\ a + n <= BS * drs) \/
  (BS * (drs + j) <= a /\ a + n <= BS * (drs + j + need)) ->
  bytes mfin a n = bytes m4 a n.
Proof.
  intros Hcase Ha. pose proof inv_bounds as B. pose proof need_nonneg.
  unfold mfin. destruct (Z.ltb_spec c 64).
  - apply mp_keep; side.
  - apply me_keep; subst drs; side.
Qed.

Lemma mfin_inode off n :
  c < 64 \/ j + need < drb ->
  0 <= off -> off + Z.of_nat n <= INODE_SIZE ->
  load mfin (ino_a + off) n = load m3 (ino_a + off) n.
Proof.
  intros Hcase Ho Hn. pose proof ino_a_bounds as A.
  pose proof inv_bounds as B.
  unfold load. rewrite mfin_keep by side. f_equal.
  apply (bytes_frame _ _ _ _ _ _ F4); subst drs; side.
Qed.

Lemma adder_added out :
  output (mkfs_adder m (Some f) path t_ino t_dir) = Some out ->
  added out (mkfs_adder m (Some f) path t_ino t_dir)
    tb ic itb k j r c fsize.
Proof.
  pose proof inv_bounds as B. pose proof need_nonneg as N.
  pose proof ino_a_bounds as A.
  rewrite mkfs_adder_run. fold need.
  destruct (negb (snd wb)); [done|].
  assert (Hfin : forall fi',
    (c < 64 \/ j + need < drb) ->
    fi' = (if c <? 64 then None else Some (j + need)) ->
    image_inv mfin tb ic itb (k + 1)
      (j + need + (if c <? 64 then 0 else 1))
      (if c <? 64 then r else r + 1) (if c <? 64 then c + 1 else 1) ->
    dirent_ino mfin (if c <? 64 then r - 1 else r)
      (if c <? 64 then c else 0) = k + 1 ->
    added mfin (finish mfin mfin k dbs fi') tb ic itb k j r c fsize).
  { intros fi' Hcase -> Hinv Hde. constructor; try done.
    - replace (3 * BS + INODE_SIZE * k) with ino_a by done.
      rewrite mfin_inode by side.
      apply build_inode_mode; rewrite ?len_m2, ?len_dbs; subst drs; side.
    - replace (3 * BS + INODE_SIZE * k) with ino_a by done.
      rewrite mfin_inode by side.
      apply build_inode_links; rewrite ?len_m2, ?len_dbs; subst drs; side.
    - replace (3 * BS + INODE_SIZE * k) with ino_a by done.
      rewrite mfin_inode by side. unfold m3.
      rewrite build_inode_size_bytes;
        rewrite ?len_m2, ?len_dbs; subst drs; try (by side).
      unfold fsize, u64. apply Z.mod_mod. lia.
    - intros d Hd.
      replace (3 * BS + INODE_SIZE * k) with ino_a by done.
      rewrite mfin_inode by side.
      change (need_blocks fsize) with need.
      destruct (Z.ltb_spec d need).
      + rewrite m3_direct_used by lia. subst drs. lia.
      + apply m3_direct_free. side. }
  destruct (Z.ltb_spec c 64) as [Hc|Hc].
  - intros [= <-]. unfold mfin in Hfin.
    destruct (Z.ltb_spec c 64) as [_|]; [|lia].
    apply Hfin; [by left|done| |].
    + rewrite Z.add_0_r. by apply placed_inv.
    + rewrite mp_dirent_ino by side.
      destruct (decide _) as [_|Hn]; [done|]. exfalso. by apply Hn.
  - destruct (Z.ltb_spec r DIRECT_MAX) as [Hr|Hr]; [|done].
    destruct (Z.ltb_spec (j + need) drb) as [Hf|Hf]; [|done].
    intros [= <-]. unfold mfin in Hfin.
    destruct (Z.ltb_spec c 64) as [|_]; [lia|].
    apply Hfin; [by right|done| |].
    + apply ext_inv; side.
    + rewrite me_dirent_new by side. done.
Qed.

Lemma adder_output_mfin out :
  output (mkfs_adder m (Some f) path t_ino t_dir) = Some out ->
  out = mfin /\ snd wb = true /\
  (c < 64 \/ (r < DIRECT_MAX /\ j + need < drb)).
Proof.
  rewrite mkfs_adder_run. unfold mfin.
  destruct (snd wb); [|done]. cbn [negb].
  destruct (Z.ltb_spec c 64) as [Hc|Hc].
  - intros [= <-]. auto.
  - destruct (Z.ltb_spec r DIRECT_MAX) as [Hr|Hr]; [|done].
    destruct (Z.ltb_spec (j + need) drb) as [Hf|Hf]; [|done].
    intros [= <-]. auto.
Qed.

Lemma adder_succeeds :
  snd wb = true ->
  c < 64 \/ (r < DIRECT_MAX /\ j + need < drb) ->
  exists out, output (mkfs_adder m (Some f) path t_ino t_dir) = Some out.
Proof.
  intros Hwb Hcase. rewrite mkfs_adder_run, Hwb. cbn [negb].
  destruct (Z.ltb_spec c 64) as [Hc|Hc]; [by eexists|].
  destruct Hcase as [|[Hr Hf]]; [lia|].
  destruct (Z.ltb_spec r DIRECT_MAX) as [_|]; [|lia].
  destruct (Z.ltb_spec (j + need) drb) as [_|]; [|lia].
  by eexists.
Qed.

Lemma wb_empty : need = 0 -> snd wb = true.
Proof. intros E. unfold wb. by rewrite E. Qed.

Lemma adder_succeeds_empty :
need = 0 ->
c < 64 \/ (r < DIRECT_MAX /\ j + need < drb) ->
exists out, output (mkfs_adder m (Some f) path t_ino t_dir) = Some out.
Proof. intros E. apply adder_succeeds. by apply wb_empty. Qed.

(** With no block to allocate for the file and a free slot in the root
    directory, the data bitmap block is not written at all. *)
Lemma adder_dbm_same out :
need = 0 -> c < 64 ->
output (mkfs_adder m (Some f) path t_ino t_dir) = Some out ->
bytes out (2 * BS) BS = bytes m (2 * BS) BS.
Proof.
intros E Hc Hout. pose proof inv_bounds as B. pose proof ino_a_bounds as A.
destruct (adder_output_mfin out Hout) as (-> & _ & _).
unfold mfin. destruct (Z.ltb_spec c 64) as [_|]; [|lia].
pose proof (e_bounds Hc).
rewrite (bytes_frame _ _ _ _ _ _ Fp2) by side.
rewrite (bytes_frame _ _ _ _ _ _ Fp1) by (subst drs; side).
rewrite (bytes_frame _ _ _ _ _ _ F4) by (subst drs; side).
rewrite (bytes_frame _ _ _ _ _ _ F3) by side.
assert (m2 = m1) as ->.
{ unfold m2, dbs. rewrite E. by rewrite seqZ_nil. }
rewrite (bytes_frame _ _ _ _ _ _ F1) by side. done.
Qed.

(** *** What a run that writes its output leaves alone *)

(** The superblock, the inodes other than the root and the new one, and
    the data blocks in use before the call (but for the directory slot
    that receives the new entry) are written back as they were read. *)
Lemma adder_frame out a n :
  output (mkfs_adder m (Some f) path t_ino t_dir) = Some out ->
  0 <= a ->
  a + n <= BS \/
  (3 * BS + INODE_SIZE <= a /\ a + n <= ino_a) \/
  (ino_a + INODE_SIZE <= a /\ a + n <= BS * drs) \/
  (BS * drs <= a /\ a + n <= BS * (drs + j) /\
   (c < 64 -> a + n <= e \/ e + DIRENT_SIZE <= a)) ->
  bytes out a n = bytes m a n.
Proof.
  intros Hout Ha Hcase. pose proof inv_bounds as B.
  pose proof ino_a_bounds as A. pose proof need_nonneg as N.
  destruct (adder_output_mfin out Hout) as (-> & _ & Hslot).
  assert (H4 : bytes m4 a n = bytes m a n).
  { rewrite (bytes_frame _ _ _ _ _ _ F4) by (subst drs; side).
    rewrite (bytes_frame _ _ _ _ _ _ F3) by (subst drs; side).
    rewrite (bytes_frame _ _ _ _ _ _ F2) by (subst drs; side).
    rewrite (bytes_frame _ _ _ _ _ _ F1) by (subst drs; side). done. }
  rewrite <- H4. unfold mfin. destruct (Z.ltb_spec c 64) as [Hc|Hc].
  - pose proof (e_bounds Hc).
    rewrite (bytes_frame _ _ _ _ _ _ Fp2) by (subst drs; side).
    rewrite (bytes_frame _ _ _ _ _ _ Fp1) by (subst drs; side). done.
  - destruct Hslot as [|[Hr Hf]]; [lia|]. pose proof (blk_bounds Hf) as K.
    rewrite (bytes_frame _ _ _ _ _ _ Fe5) by (subst drs; side).
    rewrite (bytes_frame _ _ _ _ _ _ Fe4) by (subst drs; side).
    rewrite (bytes_frame _ _ _ _ _ _ Fe3) by (subst drs; side).
    rewrite (bytes_frame _ _ _ _ _ _ Fe2) by (subst drs; side).
    rewrite (bytes_frame _ _ _ _ _ _ (Fe1 Hf)) by (subst drs; side). done.
Qed.

(** The slot that [add_dirent] names holds the local [ne], byte for
    byte. *)
Lemma adder_dirent_bytes out :
  output (mkfs_adder m (Some f) path t_ino t_dir) = Some out ->
  bytes out
    (BS * load out (3 * BS + ino.direct (if c <? 64 then r - 1 else r)) 4 +
     DIRENT_SIZE * (if c <? 64 then c else 0)) DIRENT_SIZE = ne.
Proof.
  intros Hout. pose proof inv_bounds as B.
  destruct (adder_output_mfin out Hout) as (-> & _ & Hslot).
  unfold mfin. destruct (Z.ltb_spec c 64) as [Hc|Hc].
  - pose proof (e_bounds Hc) as E.
    rewrite (mp_P Hc) by side. fold e.
    rewrite (bytes_frame _ _ _ _ _ _ Fp2) by (subst drs; side).
    pose proof (bytes_memcpy_same m4 e ne) as X.
    rewrite Hne_len in X. apply X; rewrite ?len_m4; subst drs; side.
  - destruct Hslot as [|[Hr Hf]]; [lia|]. pose proof (blk_bounds Hf) as K.
    rewrite me_P by side. destruct (decide (r = r)); [|done].
    fold blk. rewrite Z.mul_0_r, Z.add_0_r.
    rewrite (bytes_frame _ _ _ _ _ _ Fe5) by (subst drs; side).
    pose proof (bytes_memcpy_same m8 blk ne) as X.
    rewrite Hne_len in X. apply X;
      unfold m8, m7, m6; autorewrite with len; rewrite ?len_m4; side.
Qed.

(** The root's direct pointers after the run, and the entries that were
    there before it. *)
Lemma adder_root_direct out d :
  output (mkfs_adder m (Some f) path t_ino t_dir) = Some out ->
  0 <= d < DIRECT_MAX ->
  load out (3 * BS + ino.direct d) 4 =
  if decide (c = 64 /\ d = r) then drs + (j + need) else P d.
Proof.
  intros Hout Hd. pose proof inv_bounds as B.
  destruct (adder_output_mfin out Hout) as (-> & _ & Hslot).
  unfold mfin. destruct (Z.ltb_spec c 64) as [Hc|Hc].
  - rewrite (mp_P Hc) by side. destruct (decide _) as [[? _]|]; [lia|done].
  - destruct Hslot as [|[Hr Hf]]; [lia|].
    rewrite me_P by side.
    destruct (decide (d = r)), (decide _); try done; lia.
Qed.

Lemma adder_dirent_old out d s :
  output (mkfs_adder m (Some f) path t_ino t_dir) = Some out ->
  0 <= d < r -> 0 <= s < 64 -> ~ (c < 64 /\ d = r - 1 /\ s = c) ->
  bytes out (BS * P d + DIRENT_SIZE * s) DIRENT_SIZE =
  bytes m (BS * P d + DIRENT_SIZE * s) DIRENT_SIZE.
Proof.
  intros Hout Hd Hs Hne. pose proof inv_bounds as B.
  pose proof (P_used d Hd) as Pd.
  pose proof (P_used (r - 1) ltac:(side)) as Pr.
  apply adder_frame; [done|subst drs; side|].
  right. right. right. split; [subst drs; side|]. split; [subst drs; side|].
  intros Hc. subst e.
  destruct (decide (d = r - 1)) as [->|Hd'].
  - consts. lia.
  - assert (P d <> P (r - 1)).
    { intros Heq.
      apply (inv_direct_inj _ _ _ _ _ _ _ _ Inv) in Heq ; side. }
    consts. lia.
Qed.

(** Both inodes the run writes carry the CRC of their first 120 bytes. *)
Lemma adder_root_crc out :
  output (mkfs_adder m (Some f) path t_ino t_dir) = Some out ->
  load out (3 * BS + ino.inode_crc) 8 = crc32 (bytes out (3 * BS) 120).
Proof.
  intros Hout. pose proof inv_bounds as B.
  destruct (adder_output_mfin out Hout) as (-> & _ & Hslot).
  unfold mfin. destruct (Z.ltb_spec c 64) as [Hc|Hc].
  - unfold mp, touch_root. cbv zeta.
    apply inode_crc_finalize_ok; [side|].
    unfold m5. autorewrite with len. rewrite len_m4. side.
  - destruct Hslot as [|[Hr Hf]]; [lia|].
    unfold me, touch_root. cbv zeta.
    apply inode_crc_finalize_ok; [side|].
    autorewrite with len. rewrite len_m9. side.
Qed.

Lemma adder_inode_crc out :
  output (mkfs_adder m (Some f) path t_ino t_dir) = Some out ->
  load out (ino_a + ino.inode_crc) 8 = crc32 (bytes out ino_a 120).
Proof.
  intros Hout. pose proof inv_bounds as B. pose proof ino_a_bounds as A.
  destruct (adder_output_mfin out Hout) as (-> & _ & Hslot).
  assert (Hcase : c < 64 \/ j + need < drb) by lia.
  rewrite mfin_inode by side.
  rewrite mfin_keep by (subst drs; side).
  rewrite (bytes_frame _ _ _ _ _ _ F4) by (subst drs; side).
  unfold m3, build_inode. cbv zeta.
  apply inode_crc_finalize_ok; [side|].
  autorewrite with len. rewrite len_m2. subst drs. side.
Qed.

(** *** Times, owner, and the exit code *)

Lemma adder_times out :
  output (mkfs_adder m (Some f) path t_ino t_dir) = Some out ->
  load out (ino_a + ino.atime) 8 = u64 t_ino /\
  load out (ino_a + ino.mtime) 8 = u64 t_ino /\
  load out (ino_a + ino.ctime) 8 = u64 t_ino /\
  load out (ino_a + ino.uid) 4 = 0 /\
  load out (ino_a + ino.gid) 4 = 0 /\
  load out (3 * BS + ino.mtime) 8 = u64 t_dir /\
  load out (3 * BS + ino.ctime) 8 = u64 t_dir /\
  load out (3 * BS + ino.atime) 8 = load m (3 * BS + ino.atime) 8.
Proof.
  intros Hout. pose proof inv_bounds as B. pose proof ino_a_bounds as A.
  destruct (adder_output_mfin out Hout) as (-> & _ & Hslot).
  assert (Hcase : c < 64 \/ j + need < drb) by lia.
  assert (U : forall x, u64 (u64 x) = u64 x).
  { intros x. unfold u64. apply Z.mod_mod. lia. }
  destruct (build_inode_times m2 ino_a fsize (u64 t_ino) dbs)
    as (T1 & T2 & T3); [rewrite ?len_m2, ?len_dbs; subst drs; side..|].
  destruct (build_inode_owner m2 ino_a fsize (u64 t_ino) dbs)
    as (O1 & O2); [rewrite ?len_m2, ?len_dbs; subst drs; side..|].
  fold m3 in T1, T2, T3, O1, O2. rewrite U in T1, T2, T3.
  rewrite !mfin_inode by side.
  split; [exact T1|]. split; [exact T2|]. split; [exact T3|].
  split; [exact O1|]. split; [exact O2|].
  unfold mfin. destruct (Z.ltb_spec c 64) as [Hc|Hc]; cbv iota.
  - destruct (touch_root_times m5 (3 * BS) (u64 t_dir)) as (R1 & R2 & R3);
      [unfold m5; autorewrite with len; rewrite ?len_m4; side..|].
    fold mp in R1, R2, R3. rewrite U in R1, R2.
    split; [exact R1|]. split; [exact R2|].
    rewrite R3. apply (m5_root Hc); side.
  - destruct Hslot as [|[Hr Hf]]; [lia|].
    destruct (touch_root_times m9 (3 * BS) (u64 t_dir)) as (R1 & R2 & R3);
      [rewrite ?len_m9; side..|].
    fold me in R1, R2, R3. rewrite U in R1, R2.
    split; [exact R1|]. split; [exact R2|].
    rewrite R3. rewrite m9_keep by side. apply m4_keep; side.
Qed.

Lemma adder_exit_code :
  exit_code (mkfs_adder m (Some f) path t_ino t_dir) =
  if negb (snd wb) then 4
  else if c <? 64 then 0
  else if (r <? DIRECT_MAX) && (j + need <? drb) then 0 else 7.
Proof.
  rewrite mkfs_adder_run.
  destruct (negb (snd wb)); [done|].
  destruct (c <? 64); [done|].
  destruct (r <? DIRECT_MAX); [|done].
  destruct (j + need <? drb); done.
Qed.

Lemma wb_reads :
  0 <= st_size f <= DIRECT_MAX * BS ->
  snd wb = (st_size f <=? len (f_data f)).
Proof.
  intros Hs. pose proof (len_nonneg (f_data f)).
  assert (E : fsize = st_size f) by (unfold fsize; apply u64_small; side).
  assert (S : (need - 1) * BS < fsize <= need * BS).
  { unfold need, need_blocks. rewrite E.
    rewrite (u64_small (st_size f + BS - 1)) by side.
    rewrite u32_small by side. side. }
  unfold wb. destruct (Z.eqb_spec need 0) as [E0|E0].
  - cbn [snd]. destruct (Z.leb_spec (st_size f) (len (f_data f))); [done|].
    rewrite E0 in S. side.
  - pose proof need_nonneg.
    rewrite (write_blocks_reads ino_a fsize need) by side.
    rewrite E. f_equal. lia.
Qed.

(** *** A file at least as long as [stat] said *)

Lemma wb_take :
  0 <= st_size f <= DIRECT_MAX * BS -> st_size f <= len (f_data f) ->
  fsize = st_size f /\ (need - 1) * BS < fsize <= need * BS /\
  snd wb = true /\
  forall i, 0 <= i < need ->
    bytes m4 (BS * (drs + j + i)) BS =
    bytes (take (Z.to_nat (st_size f)) (f_data f) ++
           replicate (Z.to_nat BS) 0) (BS * i) BS.
Proof.
  intros Hs Hl.
  pose proof inv_bounds as B. pose proof need_nonneg as N.
  pose proof ino_a_bounds as A.
  assert (E : fsize = st_size f) by (unfold fsize; apply u64_small; side).
  assert (S : (need - 1) * BS < fsize <= need * BS).
  { unfold need, need_blocks. rewrite E.
    rewrite (u64_small (st_size f + BS - 1)) by side.
    rewrite u32_small by side. side. }
  split; [done|]. split; [done|].
  unfold m4, wb. destruct (Z.eqb_spec need 0) as [E0|E0].
  - split; [done|]. intros i Hi. lia.
  - rewrite (write_blocks_take ino_a fsize need) by side.
    replace (Z.to_nat (fsize - 0 * BS)) with (Z.to_nat (st_size f))
      by (rewrite E; lia).
    destruct (write_blocks_proper ino_a (drs + j) fsize need) with
      (n := Z.to_nat need) (m := m3)
      (data := take (Z.to_nat (st_size f)) (f_data f)) (i := 0)
      as [W1 W2].
    + side.
    + subst drs. side.
    + side.
    + done.
    + subst drs drb. side.
    + lia.
    + lia.
    + unfold len in *. rewrite length_take. lia.
    + unfold m3. rewrite len_build_inode, len_m2. subst drs drb. side.
    + intros i Hi. by apply m3_direct_used.
    + split; [done|]. intros i Hi. rewrite W2 by lia.
      f_equal. lia.
Qed.

Lemma adder_data_take out :
  0 <= st_size f <= DIRECT_MAX * BS -> st_size f <= len (f_data f) ->
  output (mkfs_adder m (Some f) path t_ino t_dir) = Some out ->
  inode_blocks out (3 * BS + INODE_SIZE * k) =
  take (Z.to_nat (st_size f)) (f_data f) ++
  replicate (Z.to_nat (need * BS - st_size f)) 0.
Proof.
  intros Hs Hl Hout. pose proof inv_bounds as B. pose proof need_nonneg as N.
  destruct (wb_take Hs Hl) as (E & S & _ & W).
  pose proof (adder_added out Hout) as Hadd.
  destruct (adder_output_mfin out Hout) as (-> & _ & Hcase).
  unfold inode_blocks.
  replace DIRECT_MAX with (need + (DIRECT_MAX - need)) by lia.
  rewrite seqZ_app by side. rewrite map_app, concat_app.
  rewrite (concat_map_nil _ (seqZ (0 + need) _)), app_nil_r.
  2:{ apply Forall_seqZ. intros d Hd. unfold block_of.
      rewrite (add_direct _ _ _ _ _ _ _ _ _ _ Hadd) by side.
      fold fsize need. destruct (Z.ltb_spec d need); [lia|done]. }
  rewrite (map_ext_Forall _
             (fun d => bytes (take (Z.to_nat (st_size f)) (f_data f) ++
                              replicate (Z.to_nat BS) 0)
                         (BS * d) BS)).
  2:{ apply Forall_seqZ. intros d Hd. unfold block_of.
      rewrite (add_direct _ _ _ _ _ _ _ _ _ _ Hadd) by side.
      fold fsize need. destruct (Z.ltb_spec d need); [|lia].
      destruct (Z.eqb_spec (3 + itb + j + d) 0); [lia|].
      rewrite mfin_keep.
      - rewrite <- W by lia. done.
      - destruct Hcase as [|[_ ?]]; auto.
      - right. subst drs. side. }
  replace need with (Z.of_nat (Z.to_nat need)) at 1 by lia.
  rewrite concat_chunks. rewrite Z2Nat.id by lia.
  unfold bytes. change (Z.to_nat 0) with 0%nat. rewrite drop_0.
  rewrite take_app, take_replicate.
  rewrite take_ge by (unfold len in *; rewrite length_take; side).
  f_equal. f_equal. unfold len in *. rewrite length_take. side.
Qed.

(** *** A file as long as [stat] said *)

Hypothesis Hsz : st_size f = len (f_data f).
Hypothesis Hsmall : st_size f <= DIRECT_MAX * BS.

Lemma proper_size :
  fsize = st_size f /\ (need - 1) * BS < fsize <= need * BS.
Proof.
  pose proof (len_nonneg (f_data f)).
  assert (E : fsize = st_size f) by (unfold fsize; apply u64_small; side).
  split; [done|]. unfold need, need_blocks. rewrite E.
  rewrite (u64_small (st_size f + BS - 1)) by side.
  rewrite u32_small by side. side.
Qed.

Lemma wb_proper :
  snd wb = true /\
  forall i, 0 <= i < need ->
    bytes m4 (BS * (drs + j + i)) BS =
    bytes (f_data f ++ replicate (Z.to_nat BS) 0) (BS * i) BS.
Proof.
  pose proof inv_bounds as B. pose proof need_nonneg as N.
  pose proof ino_a_bounds as A. destruct proper_size as [E S].
  unfold m4, wb. destruct (Z.eqb_spec need 0) as [E0|E0].
  - split; [done|]. intros i Hi. lia.
  - destruct (write_blocks_proper ino_a (drs + j) fsize need) with
      (n := Z.to_nat need) (m := m3) (data := f_data f) (i := 0)
      as [W1 W2].
    + side.
    + subst drs. side.
    + side.
    + done.
    + subst drs drb. side.
    + lia.
    + lia.
    + rewrite E. lia.
    + unfold m3. rewrite len_build_inode, len_m2. subst drs drb. side.
    + intros i Hi. by apply m3_direct_used.
    + split; [done|]. intros i Hi. rewrite W2 by lia.
      f_equal. lia.
Qed.

Lemma adder_succeeds_proper :
c < 64 \/ (r < DIRECT_MAX /\ j + need < drb) ->
exists out, output (mkfs_adder m (Some f) path t_ino t_dir) = Some out.
Proof. apply adder_succeeds. apply wb_proper. Qed.

Lemma adder_data out :
  output (mkfs_adder m (Some f) path t_ino t_dir) = Some out ->
  inode_blocks out (3 * BS + INODE_SIZE * k) =
  f_data f ++ replicate (Z.to_nat (need * BS - fsize)) 0.
Proof.
  intros Hout. pose proof inv_bounds as B. pose proof need_nonneg as N.
  destruct proper_size as [E S]. destruct wb_proper as [_ W].
  pose proof (adder_added out Hout) as Hadd.
  destruct (adder_output_mfin out Hout) as (-> & _ & Hcase).
  unfold inode_blocks.
  replace DIRECT_MAX with (need + (DIRECT_MAX - need)) by lia.
  rewrite seqZ_app by side. rewrite map_app, concat_app.
  rewrite (concat_map_nil _ (seqZ (0 + need) _)), app_nil_r.
  2:{ apply Forall_seqZ. intros d Hd. unfold block_of.
      rewrite (add_direct _ _ _ _ _ _ _ _ _ _ Hadd) by side.
      fold fsize need. destruct (Z.ltb_spec d need); [lia|done]. }
  rewrite (map_ext_Forall _
             (fun d => bytes (f_data f ++ replicate (Z.to_nat BS) 0)
                         (BS * d) BS)).
  2:{ apply Forall_seqZ. intros d Hd. unfold block_of.
      rewrite (add_direct _ _ _ _ _ _ _ _ _ _ Hadd) by side.
      fold fsize need. destruct (Z.ltb_spec d need); [|lia].
      destruct (Z.eqb_spec (3 + itb + j + d) 0); [lia|].
      rewrite mfin_keep.
      - rewrite <- W by lia. done.
      - destruct Hcase as [|[_ ?]]; auto.
      - right. subst drs. side. }
  replace need with (Z.of_nat (Z.to_nat need)) at 1 by lia.
  rewrite concat_chunks. rewrite Z2Nat.id by lia.
  unfold bytes. change (Z.to_nat 0) with 0%nat. rewrite drop_0.
  rewrite take_app, take_replicate.
  rewrite take_ge by (unfold len in *; side).
  f_equal. f_equal. unfold len in *. side.
Qed.
End Adder.

(** ** Runs that stop before the image is touched *)

Lemma mkfs_adder_rejects m tb ic itb k j r c src path t_ino t_dir :
  image_inv m tb ic itb k j r c ->
  match src with
  | None => True
  | Some f =>
      st_isreg f = false \/
      DIRECT_MAX < need_blocks (u64 (st_size f)) \/
      ic <= k \/
      tb - (3 + itb) < j + need_blocks (u64 (st_size f))
  end ->
  let res := mkfs_adder m src path t_ino t_dir in
  exit_code res <> 0 /\ output res = None /\ buffer res = m.
Proof.
  intros Inv Hrej res. subst res.
  pose proof (inv_bounds _ _ _ _ _ _ _ _ Inv) as B.
  unfold mkfs_adder.
  destruct (adder_head_checks _ _ _ _ _ _ _ _ Inv) as (-> & -> & ->).
  destruct (adder_pointers _ _ _ _ _ _ _ _ Inv) as (-> & -> & ->).
  destruct src as [f|]; [|done].
  destruct (st_isreg f); [|done]. cbn [negb].
  set (need := need_blocks (u64 (st_size f))) in *.
  assert (N : 0 <= need) by (unfold need, need_blocks, u32; lia).
  destruct (Z.ltb_spec DIRECT_MAX need) as [|Hn]; [done|].
  rewrite (adder_first_free_inode _ _ _ _ _ _ _ _ Inv).
  destruct (Z.ltb_spec k ic) as [Hk|Hk]; [|done].
  destruct (Z.eqb_spec k UINT32_MAX) as [|_]; [done|].
  rewrite (adder_scan_free _ _ _ _ _ _ _ _ Inv).
  destruct Hrej as [|[|[|Hj]]]; [done|lia|lia|].
  destruct (Z.eqb_spec need 0) as [|Hn0]; [lia|]. cbn [negb andb].
  rewrite len_seqZ by lia.
  destruct (Z.ltb_spec (Z.min need (tb - (3 + itb) - j)) need); [done|lia].
Qed.

(** ** A run that writes its output *)

Lemma adder_step m tb ic itb k j r c src path t_ino t_dir out :
  image_inv m tb ic itb k j r c ->
  output (mkfs_adder m src path t_ino t_dir) = Some out ->
  exists f, src = Some f /\
    added out (mkfs_adder m src path t_ino t_dir)
      tb ic itb k j r c (u64 (st_size f)).
Proof.
  intros Inv Hout.
  destruct src as [f|].
  2:{ destruct (mkfs_adder_rejects _ _ _ _ _ _ _ _ None path t_ino t_dir Inv I)
        as (_ & E & _). congruence. }
  exists f. split; [done|].
  set (need := need_blocks (u64 (st_size f))).
  destruct (decide (st_isreg f = true /\ need <= DIRECT_MAX /\ k < ic /\
                    j + need <= tb - (3 + itb))) as [(H1 & H2 & H3 & H4)|Hn].
  - by apply adder_added.
  - destruct (mkfs_adder_rejects _ _ _ _ _ _ _ _ (Some f) path t_ino t_dir Inv)
      as (_ & E & _); [|congruence].
    fold need. destruct (st_isreg f); [|by left].
    right. lia.
Qed.

(** * The claims *)

(** ** The builder *)

Lemma pair_some_inj {A} (a b : Z) (x y : A) :
  (a, Some x) = (b, Some y) -> x = y.
Proof. intros H. by injection H. Qed.

Lemma mkfs_builder_some c t_sb t_root img :
  mkfs_builder c t_sb t_root = (0, Some img) ->
  builder_cli_ok c = true /\ img = builder_image c t_sb t_root.
Proof.
  intros H. destruct (builder_cli_ok c) eqn:Hok.
  - rewrite (mkfs_builder_ok c t_sb t_root Hok) in H.
    apply pair_some_inj in H. split; [reflexivity|by symmetry].
  - exfalso. unfold mkfs_builder in H. rewrite Hok in H.
    cbn [negb] in H. discriminate H.
Qed.

Lemma mkfs_builder_inv c t_sb t_root img :
  mkfs_builder c t_sb t_root = (0, Some img) ->
  image_inv img (total_blocks_of c) (inodes c) (inode_tbl_blks_of c) 1 1 1 2.
Proof.
  intros H. apply mkfs_builder_some in H as [Hok ->]. by apply builder_inv.
Qed.

(** C6: for every valid (size, inode count) pair the builder writes an
    image whose superblock, at block 0, records this layout: total blocks =
    size / block size; inode bitmap at block 1 (1 block); data bitmap at
    block 2 (1 block); inode table from block 3, of
    ceil(inode_count * 128 / 4096) blocks, that is, the least number of
    blocks that hold the inodes; the data region right after it, up to the
    end of the image.  For 1024 KiB and 128 inodes: 256 blocks, 4
    inode-table blocks, data region of 249 blocks from block 7. *)
Theorem format_layout c t_sb t_root :
  builder_cli_ok c = true ->
  exists img, mkfs_builder c t_sb t_root = (0, Some img) /\
    let tb := load img sb.total_blocks 8 in
    let itb := load img sb.inode_table_blocks 8 in
    let drs := load img sb.data_region_start 8 in
    let drb := load img sb.data_region_blocks 8 in
    len img = BS * tb /\
    tb * BS = size_kib c * 1024 /\
    load img sb.inode_count 8 = inodes c /\
    load img sb.inode_bitmap_start 8 = 1 /\
    load img sb.inode_bitmap_blocks 8 = 1 /\
    load img sb.data_bitmap_start 8 = 2 /\
    load img sb.data_bitmap_blocks 8 = 1 /\
    load img sb.inode_table_start 8 = 3 /\
    inodes c * INODE_SIZE <= itb * BS < inodes c * INODE_SIZE + BS /\
    drs = 3 + itb /\
    drs + drb = tb /\
    0 < drb /\
    (size_kib c = 1024 -> inodes c = 128 ->
     tb = 256 /\ itb = 4 /\ drs = 7 /\ drb = 249).
Proof.
  intros Hok. exists (builder_image c t_sb t_root).
  split; [by apply mkfs_builder_ok|].
  pose proof (geom_bounds c Hok) as G. pose proof (cli_bounds c Hok) as C.
  pose proof (tb_eq c Hok) as T. pose proof (itb_eq c Hok) as I.
  cbv zeta.
  rewrite !(builder_sb_field c t_sb t_root Hok) by side.
  rewrite sb_total_blocks, sb_inode_table_blocks, sb_data_region_start,
    sb_data_region_blocks, sb_inode_count by done.
  rewrite sb_inode_bitmap_start, sb_inode_bitmap_blocks,
    sb_data_bitmap_start, sb_data_bitmap_blocks, sb_inode_table_start.
  rewrite len_builder_image by done.
  repeat split; try done; side.
Qed.

Lemma format_layout_witness :
  exists img, mkfs_builder {| size_kib := 1024; inodes := 128 |} 0 0
              = (0, Some img) /\
    load img sb.total_blocks 8 = 256 /\
    load img sb.inode_table_blocks 8 = 4 /\
    load img sb.data_region_start 8 = 7 /\
    load img sb.data_region_blocks 8 = 249.
Proof.
  destruct (format_layout {| size_kib := 1024; inodes := 128 |} 0 0)
    as (img & E & H); [reflexivity|].
  exists img. split; [exact E|].
  cbv zeta in H.
  destruct H as (_ & _ & _ & _ & _ & _ & _ & _ & _ & _ & _ & _ & H).
  apply H; reflexivity.
Defined.

(** C7: after a successful format the root inode (index 0 of the inode
    table) has 2 links, size 2 * 64, and its first direct pointer names the
    first block of the data region; that block holds two occupied entries,
    "." and "..", both with the root inode number (1) and the directory
    type, and every other slot of the block has inode number 0. *)
Theorem format_root c t_sb t_root :
  builder_cli_ok c = true ->
  exists img, mkfs_builder c t_sb t_root = (0, Some img) /\
    let root := BS * load img sb.inode_table_start 8 in
    let blk := BS * load img (root + ino.direct 0) 4 in
    load img (root + ino.mode) 2 = 0x4000 /\
    load img (root + ino.links) 2 = 2 /\
    load img (root + ino.size_bytes) 8 = 2 * DIRENT_SIZE /\
    load img (root + ino.direct 0) 4 = load img sb.data_region_start 8 /\
    load img sb.root_inode 8 = ROOT_INO /\
    (* "." *)
    load img (blk + de.inode_no) 4 = ROOT_INO /\
    load img (blk + de.type) 1 = 2 /\
    bytes img (blk + de.name) 58 = 46 :: replicate 57 0 /\
    (* ".." *)
    load img (blk + DIRENT_SIZE + de.inode_no) 4 = ROOT_INO /\
    load img (blk + DIRENT_SIZE + de.type) 1 = 2 /\
    bytes img (blk + DIRENT_SIZE + de.name) 58 = 46 :: 46 :: replicate 56 0 /\
    (* the other slots *)
    forall s, 2 <= s < BS / DIRENT_SIZE ->
      load img (blk + s * DIRENT_SIZE + de.inode_no) 4 = 0.
Proof.
  intros Hok. exists (builder_image c t_sb t_root).
  split; [by apply mkfs_builder_ok|].
  pose proof (geom_bounds c Hok) as G.
  set (itb := inode_tbl_blks_of c) in *.
  set (B := builder_image c t_sb t_root).
  cbv zeta.
  assert (E1 : load B sb.inode_table_start 8 = 3).
  { unfold B. rewrite (builder_sb_field c t_sb t_root Hok) by side. apply sb_inode_table_start. }
  assert (E2 : load B sb.root_inode 8 = ROOT_INO).
  { unfold B. rewrite (builder_sb_field c t_sb t_root Hok) by side. apply sb_root_inode. }
  assert (E3 : load B sb.data_region_start 8 = 3 + itb).
  { unfold B. rewrite (builder_sb_field c t_sb t_root Hok) by side.
    by apply sb_data_region_start. }
  rewrite !E1, E2, E3.
  change (BS * 3) with (3 * BS).
  assert (D0 : load B (3 * BS + ino.direct 0) 4 = 3 + itb).
  { unfold B. rewrite (builder_root_field c t_sb t_root Hok) by side.
    rewrite (root_direct0 c). fold itb. rewrite Z.add_0_r. apply u32_small. lia. }
  rewrite !D0.
  assert (Dot : forall off n, 0 <= off -> off + n <= 64 -> 0 <= n ->
            bytes B (BS * (3 + itb) + off) n = bytes builder_dot off n).
  { intros off n H1 H2 H3.
    rewrite <- (builder_dot_bytes c t_sb t_root Hok).
    fold itb B. rewrite bytes_bytes by side. done. }
  assert (Dotdot : forall off n, 0 <= off -> off + n <= 64 -> 0 <= n ->
            bytes B (BS * (3 + itb) + DIRENT_SIZE + off) n =
            bytes builder_dotdot off n).
  { intros off n H1 H2 H3.
    rewrite <- (builder_dotdot_bytes c t_sb t_root Hok).
    fold itb B. rewrite bytes_bytes by side. done. }
  unfold B.
  rewrite !(builder_root_field c t_sb t_root Hok) by side.
  rewrite (root_mode c), (root_links c), (root_size_bytes c).
  fold B. unfold load at 1 2 3 4.
  rewrite !Dot, !Dotdot by side.
  repeat split; try reflexivity.
  intros s Hs. change (BS / DIRENT_SIZE) with 64 in Hs.
  apply (builder_rootblk_rest c t_sb t_root Hok); side.
Qed.

Lemma format_root_witness :
  exists img, mkfs_builder {| size_kib := 180; inodes := 128 |} 0 0
              = (0, Some img) /\
    load img (BS * load img sb.inode_table_start 8 + ino.links) 2 = 2.
Proof.
  destruct (format_root {| size_kib := 180; inodes := 128 |} 0 0)
    as (img & E & H); [reflexivity|].
  exists img. split; [exact E|].
  cbv zeta in H. apply H.
Defined.

(** ** Runs of the adder, whatever the image *)

(** The adder returns 0 exactly when it has written its output. *)
Lemma exit_code_output img src path t_ino t_dir :
  exit_code (mkfs_adder img src path t_ino t_dir) = 0 <->
  exists out, output (mkfs_adder img src path t_ino t_dir) = Some out.
Proof.
  unfold mkfs_adder.
  repeat match goal with
  | |- context [if ?b then _ else _] => destruct b
  | |- context [match ?x with Some _ => _ | None => _ end] => destruct x
  end; cbn; (split; [try done; eauto | try (intros [? ?]; done); done]).
Qed.

Lemma succeeded_output img a :
  succeeded (run_adder img a) = true <->
  exists out, output (run_adder img a) = Some out.
Proof.
  unfold succeeded, run_adder. rewrite <- exit_code_output.
  apply Z.eqb_eq.
Qed.

Lemma image_after_output img a out :
  output (run_adder img a) = Some out ->
  image_after img (run_adder img a) = out.
Proof. intros E. unfold image_after. by rewrite E. Qed.

Lemma image_after_failed img a :
  succeeded (run_adder img a) = false ->
  image_after img (run_adder img a) = img.
Proof.
  intros E. unfold image_after.
  destruct (output (run_adder img a)) as [out|] eqn:O; [|done].
  assert (succeeded (run_adder img a) = true) by (apply succeeded_output; eauto).
  congruence.
Qed.

(** Every image the programs produce has the shape [image_inv] describes. *)
Lemma reachable_inv img :
  reachable img ->
  exists tb ic itb k j r c, image_inv img tb ic itb k j r c.
Proof.
  induction 1 as [c t_sb t_root img H | img a out _ IH Hout].
  - do 7 eexists. by eapply mkfs_builder_inv.
  - destruct IH as (tb & ic & itb & k & j & r & c & Inv).
    destruct (adder_step _ _ _ _ _ _ _ _ _ _ _ _ _ Inv Hout) as (f & _ & A).
    do 7 eexists. apply (add_inv _ _ _ _ _ _ _ _ _ _ A).
Qed.

(** ** A run that must succeed *)

Lemma good_step m tb ic itb k j r c a f :
  image_inv m tb ic itb k j r c ->
  a_src a = Some f ->
  st_isreg f = true ->
  need_blocks (u64 (st_size f)) = 0 \/
    (st_size f = len (f_data f) /\ st_size f <= DIRECT_MAX * BS) ->
  k < ic ->
  j + need_blocks (u64 (st_size f)) <= tb - (3 + itb) ->
  c < 64 \/
    (r < DIRECT_MAX /\ j + need_blocks (u64 (st_size f)) < tb - (3 + itb)) ->
  succeeded (run_adder m a) = true /\
  added (image_after m (run_adder m a)) (run_adder m a)
    tb ic itb k j r c (u64 (st_size f)).
Proof.
  intros Inv Hsrc Hreg Hfile Hk Hj Hslot.
  assert (Hneed : need_blocks (u64 (st_size f)) <= DIRECT_MAX).
  { destruct Hfile as [->|[Hsz Hsmall]]; [done|].
    pose proof (len_nonneg (f_data f)).
    rewrite (u64_small (st_size f)) by side.
    unfold need_blocks. rewrite (u64_small (st_size f + BS - 1)) by side.
    rewrite u32_small by side. side. }
  assert (exists out, output (run_adder m a) = Some out) as [out Hout].
  { unfold run_adder. rewrite Hsrc. destruct Hfile as [E|[Hsz Hsmall]].
    - by eapply adder_succeeds_empty.
    - by eapply adder_succeeds_proper. }
  split; [apply succeeded_output; eauto|].
  rewrite (image_after_output _ _ _ Hout).
  unfold run_adder in *. rewrite Hsrc in *. by eapply adder_added.
Qed.

Lemma filter_all {A} (P : A -> Prop) `{!forall x, Decision (P x)} (l : list A) :
  Forall P l -> filter P l = l.
Proof.
  induction 1 as [|x l Hx _ IH]; [done|].
  rewrite filter_cons. destruct (decide (P x)); [by rewrite IH|done].
Qed.

Lemma filter_none {A} (P : A -> Prop) `{!forall x, Decision (P x)} (l : list A) :
  Forall (fun x => ~ P x) l -> filter P l = [].
Proof.
  induction 1 as [|x l Hx _ IH]; [done|].
  rewrite filter_cons. destruct (decide (P x)); [done|exact IH].
Qed.

(** The free indices of a bitmap whose set bits are the first [k]. *)
Lemma free_bits_prefix m base n k :
  (forall i, 0 <= i < n -> test_bit m base i = (if i <? k then 1 else 0)) ->
  0 <= k <= n ->
  free_bits m base n = seqZ k (n - k).
Proof.
  intros Hbits Hk. unfold free_bits.
  replace n with (k + (n - k)) at 1 by lia.
  rewrite seqZ_app by lia. rewrite filter_app.
  rewrite filter_none, filter_all; [done| |].
  - apply Forall_seqZ. intros i Hi. rewrite Hbits by lia.
    destruct (Z.ltb_spec i k); [lia|done].
  - apply Forall_seqZ. intros i Hi. rewrite Hbits by lia.
    destruct (Z.ltb_spec i k); [done|lia].
Qed.

(** The scans against [free_bits]. *)
Lemma scan_free_filter m base i n want :
  0 <= want ->
  scan_free m base i n want =
  take (Z.to_nat want)
    (filter (fun i => test_bit m base i = 0) (seqZ i (Z.of_nat n))).
Proof.
  revert i want. induction n as [|n IH]; intros i want Hw.
  - rewrite seqZ_nil by lia. by rewrite filter_nil, take_nil.
  - cbn [scan_free]. rewrite seqZ_cons by lia.
    replace (Z.pred (Z.of_nat (S n))) with (Z.of_nat n) by lia.
    rewrite filter_cons.
    destruct (Z.leb_spec want 0).
    + assert (want = 0) as -> by lia. by rewrite take_0.
    + destruct (decide (test_bit m base i = 0)) as [E|E].
      * rewrite E. cbn [Z.eqb].
        replace (Z.to_nat want) with (S (Z.to_nat (want - 1))) by lia.
        cbn [take]. f_equal. rewrite IH by lia. done.
      * destruct (Z.eqb_spec (test_bit m base i) 0); [done|].
        by apply IH.
Qed.

Lemma first_free_filter m base i n :
  first_free m base i n =
  match filter (fun i => test_bit m base i = 0) (seqZ i (Z.of_nat n)) with
  | x :: _ => x
  | [] => UINT32_MAX
  end.
Proof.
  revert i. induction n as [|n IH]; intros i.
  - rewrite seqZ_nil by lia. by rewrite filter_nil.
  - cbn [first_free]. rewrite seqZ_cons by lia.
    replace (Z.pred (Z.of_nat (S n))) with (Z.of_nat n) by lia.
    rewrite filter_cons.
    destruct (decide (test_bit m base i = 0)) as [E|E].
    + by rewrite E.
    + destruct (Z.eqb_spec (test_bit m base i) 0); [done|]. apply IH.
Qed.

Lemma free_bits_below m base n : Forall (fun x => 0 <= x < n) (free_bits m base n).
Proof.
  unfold free_bits. apply Forall_forall. intros x Hx.
  apply list_elem_of_filter in Hx as [_ Hx]. by apply elem_of_seqZ in Hx.
Qed.

(** ** C3 *)

(** C3: when the first-fit scan of the data bitmap cannot find
    ceil(fsize / block_size) free indices (the image being valid, the
    source a regular file within the direct-pointer capacity, and an inode
    being free), the adder exits with the no-space code 6, writes no
    output, and its image buffer, hence both bitmaps, is exactly as read:
    no bit was set on the way. *)
Theorem add_file_no_space img f path t_ino t_dir :
  let ibm := u64 (BS * load img sb.inode_bitmap_start 8) in
  let dbm := u64 (BS * load img sb.data_bitmap_start 8) in
  let ic := u32 (load img sb.inode_count 8) in
  let drb := u32 (load img sb.data_region_blocks 8) in
  let need := need_blocks (u64 (st_size f)) in
  (* the image passes the adder's validation *)
  len img mod BS = 0 ->
  load img sb.magic 4 = MAGIC ->
  load img sb.version 4 = 1 ->
  load img sb.block_size 4 = BS ->
  load img sb.total_blocks 8 = len img / BS ->
  (* both bitmap blocks lie in the image and cover the counts *)
  ibm + BS <= len img -> dbm + BS <= len img ->
  ic <= 8 * BS -> drb <= 8 * BS ->
  (* the source file *)
  st_isreg f = true ->
  need <= DIRECT_MAX ->
  (* an inode is free, but fewer than [need] data blocks are *)
  free_bits img ibm ic <> [] ->
  len (free_bits img dbm drb) < need ->
  let res := mkfs_adder img (Some f) path t_ino t_dir in
  exit_code res = 6 /\ output res = None /\ buffer res = img /\
  bytes (buffer res) ibm BS = bytes img ibm BS /\
  bytes (buffer res) dbm BS = bytes img dbm BS.
Proof.
  intros ibm dbm ic drb need Hmod Hmagic Hver Hbs Htb _ _ _ _ Hreg Hneed
    Hino Hdata res.
  assert (N : 0 <= need) by (unfold need, need_blocks, u32; lia).
  assert (E : res = stop 6 img
                (first_free img ibm 0 (Z.to_nat ic))
                (scan_free img dbm 0 (Z.to_nat drb) need)).
  { unfold res, mkfs_adder.
    rewrite Hmod, Hmagic, Hver, Hbs, Htb, !Z.eqb_refl. cbn [negb orb].
    rewrite Hreg. cbn [negb]. fold need ibm dbm ic drb.
    destruct (Z.ltb_spec DIRECT_MAX need) as [|_]; [lia|].
    assert (first_free img ibm 0 (Z.to_nat ic) <> UINT32_MAX) as Hidx.
    { rewrite first_free_filter.
      assert (0 <= ic) by (unfold ic, u32; lia).
      rewrite Z2Nat.id by lia. fold (free_bits img ibm ic).
      pose proof (free_bits_below img ibm ic) as F.
      destruct (free_bits img ibm ic) as [|x l]; [done|].
      inversion F; subst. unfold ic, u32 in *. side. }
    destruct (Z.eqb_spec (first_free img ibm 0 (Z.to_nat ic)) UINT32_MAX)
      as [|_]; [done|].
    assert (len (scan_free img dbm 0 (Z.to_nat drb) need) < need) as Hlen.
    { rewrite scan_free_filter by done.
      assert (0 <= drb) by (unfold drb, u32; lia).
      rewrite Z2Nat.id by lia. fold (free_bits img dbm drb).
      unfold len in *. rewrite length_take. lia. }
    pose proof (len_nonneg (free_bits img dbm drb)).
    destruct (Z.eqb_spec need 0) as [|_]; [lia|]. cbn [negb andb].
    destruct (Z.ltb_spec (len (scan_free img dbm 0 (Z.to_nat drb) need)) need);
      [done|lia]. }
  rewrite E. cbn. done.
Qed.

(** The smallest image with the most inodes, after two files of twelve
    blocks each: one data block is left. *)
Lemma tight_image_inv :
  image_inv
    (final_image (builder_image tight_cli 0 0)
       [call_of (replicate (Z.to_nat 49152) 0) [97];
        call_of (replicate (Z.to_nat 49152) 0) [98]])
    45 512 16 3 25 1 4.
Proof.
  pose proof (builder_inv tight_cli 0 0 eq_refl) as I0.
  change (total_blocks_of tight_cli) with 45 in I0.
  change (inodes tight_cli) with 512 in I0.
  change (inode_tbl_blks_of tight_cli) with 16 in I0.
  assert (Hsz : st_size (file_of (replicate (Z.to_nat 49152) 0)) = 49152).
  { cbn [file_of st_size]. by rewrite len_replicate. }
  assert (Hneed :
    need_blocks (u64 (st_size (file_of (replicate (Z.to_nat 49152) 0)))) = 12).
  { by rewrite Hsz. }
  cbn [final_image fold_left].
  set (a := call_of _ [97]). set (b := call_of _ [98]).
  destruct (good_step _ _ _ _ _ _ _ _ a _ I0 eq_refl eq_refl) as [_ A1].
  { right. split; [reflexivity|]. rewrite Hsz. done. }
  { done. }
  { rewrite Hneed. done. }
  { by left. }
  apply add_inv in A1. rewrite Hneed in A1. cbn in A1.
  destruct (good_step _ _ _ _ _ _ _ _ b _ A1 eq_refl eq_refl) as [_ A2].
  { right. split; [reflexivity|]. rewrite Hsz. done. }
  { done. }
  { rewrite Hneed. done. }
  { by left. }
  apply add_inv in A2. rewrite Hneed in A2. exact A2.
Qed.

Lemma add_file_no_space_witness :
  let img := final_image (builder_image tight_cli 0 0)
               [call_of (replicate (Z.to_nat 49152) 0) [97];
                call_of (replicate (Z.to_nat 49152) 0) [98]] in
  let res := mkfs_adder img (Some (file_of (replicate (Z.to_nat 4097) 0)))
               [99] 0 0 in
  exit_code res = 6 /\ output res = None /\ buffer res = img /\
  bytes (buffer res) 4096 BS = bytes img 4096 BS /\
  bytes (buffer res) 8192 BS = bytes img 8192 BS.
Proof.
  intros img res.
  pose proof tight_image_inv as I. fold img in I. clearbody img.
  pose proof (inv_bounds _ _ _ _ _ _ _ _ I) as B.
  destruct (adder_head_checks _ _ _ _ _ _ _ _ I) as (H1 & H2 & H3).
  assert (Hsz : st_size (file_of (replicate (Z.to_nat 4097) 0)) = 4097).
  { cbn [file_of st_size]. by rewrite len_replicate. }
  pose proof (add_file_no_space img (file_of (replicate (Z.to_nat 4097) 0))
                [99] 0 0) as T.
  cbv zeta in T.
  rewrite (inv_inode_bitmap_start _ _ _ _ _ _ _ _ I),
    (inv_data_bitmap_start _ _ _ _ _ _ _ _ I),
    (inv_inode_count _ _ _ _ _ _ _ _ I),
    (inv_data_region_blocks _ _ _ _ _ _ _ _ I),
    (inv_magic _ _ _ _ _ _ _ _ I), (inv_version _ _ _ _ _ _ _ _ I),
    (inv_block_size _ _ _ _ _ _ _ _ I),
    (inv_total_blocks _ _ _ _ _ _ _ _ I), Hsz in T.
  change (u64 (BS * 1)) with 4096 in T.
  change (u64 (BS * 2)) with 8192 in T.
  change (u32 512) with 512 in T.
  change (u32 (45 - (3 + 16))) with 26 in T.
  change (need_blocks (u64 4097)) with 2 in T.
  rewrite (free_bits_prefix img 4096 512 3) in T
    by (apply (inv_ibits _ _ _ _ _ _ _ _ I) || lia).
  rewrite (free_bits_prefix img 8192 26 25) in T
    by (apply (inv_dbits _ _ _ _ _ _ _ _ I) || lia).
  apply T; try reflexivity.
  - destruct B as (_ & _ & _ & _ & _ & _ & _ & ->). done.
  - destruct B as (_ & _ & _ & _ & _ & _ & _ & ->). consts. lia.
  - destruct B as (_ & _ & _ & _ & _ & _ & _ & ->). consts. lia.
  - destruct B as (_ & _ & _ & _ & _ & _ & _ & ->). consts. lia.
  - consts. lia.
  - consts. lia.
  - consts. lia.
  - done.
Defined.

(** * Further properties *)

(** ** Helpers shared by the properties below *)

Lemma small_image_inv :
  image_inv (builder_image small_cli 0 0) 45 128 4 1 1 1 2.
Proof. exact (builder_inv small_cli 0 0 eq_refl). Qed.

Lemma small_image_built :
  mkfs_builder small_cli 0 0 = (0, Some (builder_image small_cli 0 0)).
Proof. exact (mkfs_builder_ok small_cli 0 0 eq_refl). Qed.

Lemma small_image_reachable : reachable (builder_image small_cli 0 0).
Proof. eapply reach_format. exact small_image_built. Qed.

Lemma mkfs_builder_geom c t_sb t_root img :
  mkfs_builder c t_sb t_root = (0, Some img) ->
  128 <= inodes c <= 512 /\ 45 <= total_blocks_of c <= 1024 /\
  4 <= inode_tbl_blks_of c <= 16.
Proof.
  intros H. apply mkfs_builder_some in H as [Hok _].
  pose proof (cli_bounds c Hok). pose proof (geom_bounds c Hok). lia.
Qed.

(** What a run that wrote its output must have found. *)
Lemma adder_step_conds m tb ic itb k j r c f path t_ino t_dir out :
  image_inv m tb ic itb k j r c ->
  output (mkfs_adder m (Some f) path t_ino t_dir) = Some out ->
  st_isreg f = true /\
  need_blocks (u64 (st_size f)) <= DIRECT_MAX /\
  k < ic /\
  j + need_blocks (u64 (st_size f)) <= tb - (3 + itb) /\
  (c < 64 \/
   (r < DIRECT_MAX /\ j + need_blocks (u64 (st_size f)) < tb - (3 + itb))).
Proof.
  intros Inv Hout.
  set (need := need_blocks (u64 (st_size f))).
  destruct (decide (st_isreg f = true /\ need <= DIRECT_MAX /\ k < ic /\
                    j + need <= tb - (3 + itb))) as [(H1 & H2 & H3 & H4)|Hn].
  - repeat split; try done.
    by destruct (adder_output_mfin _ _ _ _ _ _ _ _ Inv f path t_ino t_dir
                   H2 H3 H4 H1 out Hout) as (_ & _ & ?).
  - destruct (mkfs_adder_rejects _ _ _ _ _ _ _ _ (Some f) path t_ino t_dir Inv)
      as (_ & E & _); [|congruence].
    fold need. destruct (st_isreg f); [|by left].
    right. lia.
Qed.

(** ** The size limit of the adder *)

(** Whenever the block count the adder computes exceeds 12, the run stops
    with code 5 before anything is written, on any image that passes
    validation. *)
Lemma add_file_too_large img f path t_ino t_dir :
  len img mod BS = 0 ->
  load img sb.magic 4 = MAGIC ->
  load img sb.version 4 = 1 ->
  load img sb.block_size 4 = BS ->
  load img sb.total_blocks 8 = len img / BS ->
  st_isreg f = true ->
  DIRECT_MAX < need_blocks (u64 (st_size f)) ->
  mkfs_adder img (Some f) path t_ino t_dir = stop 5 img UINT32_MAX [].
Proof.
  intros Hmod Hmagic Hver Hbs Htb Hreg Hneed.
  unfold mkfs_adder.
  rewrite Hmod, Hmagic, Hver, Hbs, Htb, !Z.eqb_refl. cbn [negb orb].
  rewrite Hreg. cbn [negb].
  destruct (Z.ltb_spec DIRECT_MAX (need_blocks (u64 (st_size f))));
    [done|lia].
Qed.

(** The computed block count is the true one as long as the true one fits
    in 32 bits. *)
Lemma need_blocks_exact fsize :
  0 <= fsize -> (fsize + BS - 1) / BS < 2 ^ 32 ->
  need_blocks (u64 fsize) = (fsize + BS - 1) / BS.
Proof.
  intros H0 H1. consts.
  rewrite (u64_small fsize) by lia.
  unfold need_blocks. consts.
  rewrite (u64_small (fsize + 4096 - 1)) by lia.
  apply u32_small. lia.
Qed.

(** X1: on any image that passes the adder's validation, a regular file of
    more than 12 * 4096 = 49152 bytes (and at most 2^44 - 4096 bytes) is
    refused with exit code 5: nothing is written and the image buffer is as
    read. *)
Theorem add_file_over_limit img f path t_ino t_dir :
  len img mod BS = 0 ->
  load img sb.magic 4 = MAGIC ->
  load img sb.version 4 = 1 ->
  load img sb.block_size 4 = BS ->
  load img sb.total_blocks 8 = len img / BS ->
  st_isreg f = true ->
  DIRECT_MAX * BS < st_size f <= 2 ^ 44 - BS ->
  let res := mkfs_adder img (Some f) path t_ino t_dir in
  exit_code res = 5 /\ output res = None /\ buffer res = img.
Proof.
  intros Hmod Hmagic Hver Hbs Htb Hreg Hsize res. subst res.
  rewrite add_file_too_large; [done..|].
  rewrite need_blocks_exact; side.
Qed.

Lemma add_file_over_limit_witness :
  let img := builder_image small_cli 0 0 in
  let f := {| st_isreg := true; st_size := 49153; f_data := [] |} in
  let res := mkfs_adder img (Some f) [97] 0 0 in
  exit_code res = 5 /\ output res = None /\ buffer res = img.
Proof.
  intros img f res.
  pose proof small_image_inv as I. fold img in I. clearbody img.
  apply (add_file_over_limit img f [97] 0 0).
  - rewrite (inv_len _ _ _ _ _ _ _ _ I). reflexivity.
  - apply (inv_magic _ _ _ _ _ _ _ _ I).
  - apply (inv_version _ _ _ _ _ _ _ _ I).
  - apply (inv_block_size _ _ _ _ _ _ _ _ I).
  - rewrite (inv_total_blocks _ _ _ _ _ _ _ _ I), (inv_len _ _ _ _ _ _ _ _ I).
    reflexivity.
  - reflexivity.
  - vm_compute. split; [reflexivity|discriminate].
Defined.

(** X2: the block count is computed in 32 bits, so a size that is a
    multiple of 2^44 bytes (16 TiB) counts as 0 blocks: on a freshly built
    image such a file is accepted.  The run returns 0 and writes an image
    whose inode 1 records the full size and no data block. *)
Theorem add_file_size_wraps c t_sb t_root img n data path t_ino t_dir :
  mkfs_builder c t_sb t_root = (0, Some img) ->
  1 <= n < 2 ^ 20 ->
  let f := {| st_isreg := true; st_size := n * 2 ^ 44; f_data := data |} in
  let res := mkfs_adder img (Some f) path t_ino t_dir in
  DIRECT_MAX < (st_size f + BS - 1) / BS /\
  exit_code res = 0 /\ new_ino_idx res = 1 /\ db_idxs res = [] /\
  exists out, output res = Some out /\
    load out (3 * BS + INODE_SIZE * 1 + ino.size_bytes) 8 = n * 2 ^ 44 /\
    forall d, 0 <= d < DIRECT_MAX ->
      load out (3 * BS + INODE_SIZE * 1 + ino.direct d) 4 = 0.
Proof.
  intros Hb Hn f res.
  pose proof (mkfs_builder_inv _ _ _ _ Hb) as I.
  pose proof (mkfs_builder_geom _ _ _ _ Hb) as B.
  assert (Hfs : u64 (n * 2 ^ 44) = n * 2 ^ 44) by (apply u64_small; lia).
  assert (Hneed : need_blocks (u64 (n * 2 ^ 44)) = 0).
  { rewrite Hfs. unfold need_blocks, u64, u32. consts.
    rewrite (Z.mod_small (n * 2 ^ 44 + 4096 - 1)) by lia.
    replace ((n * 2 ^ 44 + 4096 - 1) / 4096) with (2 ^ 32 * n) by lia.
    by rewrite Z.mul_comm, Z.mod_mul. }
  split; [cbn [st_size f]; side|].
  assert (core : forall f0, st_isreg f0 = true -> st_size f0 = n * 2 ^ 44 ->
    let res := mkfs_adder img (Some f0) path t_ino t_dir in
    exit_code res = 0 /\ new_ino_idx res = 1 /\ db_idxs res = [] /\
    exists out, output res = Some out /\
      load out (3 * BS + INODE_SIZE * 1 + ino.size_bytes) 8 = n * 2 ^ 44 /\
      forall d, 0 <= d < DIRECT_MAX ->
        load out (3 * BS + INODE_SIZE * 1 + ino.direct d) 4 = 0).
  { clear f res. intros f Hreg Hsz. cbv zeta.
    rewrite <- Hsz in Hneed, Hfs.
    destruct (adder_succeeds_empty _ _ _ _ _ _ _ _ I f path t_ino t_dir)
      as [out Hout]; [side|lia|lia|done|done|left; lia|].
    pose proof (adder_added _ _ _ _ _ _ _ _ I f path t_ino t_dir
                  ltac:(side) ltac:(lia) ltac:(lia) Hreg out Hout) as A.
    split; [apply (add_exit _ _ _ _ _ _ _ _ _ _ A)|].
    split; [apply (add_ino_idx _ _ _ _ _ _ _ _ _ _ A)|].
    split.
    { rewrite (add_db_idxs _ _ _ _ _ _ _ _ _ _ A), Hneed. done. }
    exists out. split; [done|]. split.
    - rewrite (add_size _ _ _ _ _ _ _ _ _ _ A). by rewrite Hfs.
    - intros d Hd. rewrite (add_direct _ _ _ _ _ _ _ _ _ _ A d Hd), Hneed.
      destruct (Z.ltb_spec d 0); [lia|done]. }
  apply (core f); reflexivity.
Qed.

Lemma add_file_size_wraps_witness :
  let f := {| st_isreg := true; st_size := 1 * 2 ^ 44; f_data := [] |} in
  let res := mkfs_adder (builder_image small_cli 0 0) (Some f) [97] 0 0 in
  DIRECT_MAX < (st_size f + BS - 1) / BS /\
  exit_code res = 0 /\ new_ino_idx res = 1 /\ db_idxs res = [] /\
  exists out, output res = Some out /\
    load out (3 * BS + INODE_SIZE * 1 + ino.size_bytes) 8 = 1 * 2 ^ 44 /\
    forall d, 0 <= d < DIRECT_MAX ->
      load out (3 * BS + INODE_SIZE * 1 + ino.direct d) 4 = 0.
Proof.
  apply (add_file_size_wraps small_cli 0 0 (builder_image small_cli 0 0) 1
           [] [97] 0 0).
  - exact small_image_built.
  - lia.
Defined.

(** ** One run on a well-shaped image *)

Section Step.
Variables (m : list Z) (tb ic itb k j r c : Z).
Variables (f : file) (path : list Z) (t_ino t_dir : Z) (out : list Z).
Hypothesis Inv : image_inv m tb ic itb k j r c.
Hypothesis Hout : output (mkfs_adder m (Some f) path t_ino t_dir) = Some out.

Lemma step_added :
  added out (mkfs_adder m (Some f) path t_ino t_dir)
    tb ic itb k j r c (u64 (st_size f)).
Proof.
  destruct (adder_step_conds _ _ _ _ _ _ _ _ _ _ _ _ _ Inv Hout)
    as (H1 & H2 & H3 & H4 & _).
  by apply adder_added.
Qed.

Lemma step_frame a n :
  0 <= a ->
  a + n <= BS \/
  (3 * BS + INODE_SIZE <= a /\ a + n <= 3 * BS + INODE_SIZE * k) \/
  (3 * BS + INODE_SIZE * k + INODE_SIZE <= a /\ a + n <= BS * (3 + itb)) \/
  (BS * (3 + itb) <= a /\ a + n <= BS * (3 + itb + j) /\
   (c < 64 -> a + n <= root_slot m (r - 1) c \/
              root_slot m (r - 1) c + DIRENT_SIZE <= a)) ->
  bytes out a n = bytes m a n.
Proof.
  destruct (adder_step_conds _ _ _ _ _ _ _ _ _ _ _ _ _ Inv Hout)
    as (H1 & H2 & H3 & H4 & _).
  intros Ha Hcase.
  eapply (adder_frame _ _ _ _ _ _ _ _ Inv f path t_ino t_dir); eassumption.
Qed.

Lemma step_root_direct d :
  0 <= d < DIRECT_MAX ->
  direct_ptr out 0 d =
  if decide (c = 64 /\ d = r)
  then 3 + itb + (j + need_blocks (u64 (st_size f)))
  else direct_ptr m 0 d.
Proof.
  destruct (adder_step_conds _ _ _ _ _ _ _ _ _ _ _ _ _ Inv Hout)
    as (H1 & H2 & H3 & H4 & _).
  intros Hd. unfold direct_ptr.
  replace (3 * BS + INODE_SIZE * 0 + ino.direct d)
    with (3 * BS + ino.direct d) by side.
  eapply (adder_root_direct _ _ _ _ _ _ _ _ Inv f path t_ino t_dir);
    eassumption.
Qed.

Lemma step_dirent_old d s :
  0 <= d < r -> 0 <= s < 64 -> ~ (c < 64 /\ d = r - 1 /\ s = c) ->
  root_slot out d s = root_slot m d s /\
  bytes out (root_slot m d s) DIRENT_SIZE =
  bytes m (root_slot m d s) DIRENT_SIZE.
Proof.
  destruct (adder_step_conds _ _ _ _ _ _ _ _ _ _ _ _ _ Inv Hout)
    as (H1 & H2 & H3 & H4 & _).
  intros Hd Hs Hne. pose proof (inv_r _ _ _ _ _ _ _ _ Inv) as Hr.
  split.
  - unfold root_slot. rewrite step_root_direct by side.
    destruct (decide _) as [[_ ?]|]; [lia|done].
  - unfold root_slot, direct_ptr.
    replace (3 * BS + INODE_SIZE * 0 + ino.direct d)
      with (3 * BS + ino.direct d) by side.
    eapply (adder_dirent_old _ _ _ _ _ _ _ _ Inv f path t_ino t_dir);
      eassumption.
Qed.

Lemma step_dirent_new :
  bytes out
    (root_slot out (if c <? 64 then r - 1 else r) (if c <? 64 then c else 0))
    DIRENT_SIZE = adder_dirent (k + 1) path.
Proof.
  destruct (adder_step_conds _ _ _ _ _ _ _ _ _ _ _ _ _ Inv Hout)
    as (H1 & H2 & H3 & H4 & _).
  pose proof (inv_geom _ _ _ _ _ _ _ _ Inv) as G.
  pose proof (inv_k _ _ _ _ _ _ _ _ Inv) as K.
  unfold root_slot, direct_ptr.
  replace (3 * BS + INODE_SIZE * 0 +
           ino.direct (if c <? 64 then r - 1 else r))
    with (3 * BS + ino.direct (if c <? 64 then r - 1 else r)) by side.
  rewrite (adder_dirent_bytes _ _ _ _ _ _ _ _ Inv f path t_ino t_dir)
    by eassumption.
  unfold adder_dirent. cbv zeta. by rewrite (u32_small (k + 1)) by lia.
Qed.

Lemma step_root_crc :
  load out (3 * BS + ino.inode_crc) 8 = crc32 (bytes out (3 * BS) 120).
Proof.
  destruct (adder_step_conds _ _ _ _ _ _ _ _ _ _ _ _ _ Inv Hout)
    as (H1 & H2 & H3 & H4 & _).
  eapply (adder_root_crc _ _ _ _ _ _ _ _ Inv f path t_ino t_dir); eassumption.
Qed.

Lemma step_inode_crc :
  load out (3 * BS + INODE_SIZE * k + ino.inode_crc) 8 =
  crc32 (bytes out (3 * BS + INODE_SIZE * k) 120).
Proof.
  destruct (adder_step_conds _ _ _ _ _ _ _ _ _ _ _ _ _ Inv Hout)
    as (H1 & H2 & H3 & H4 & _).
  eapply (adder_inode_crc _ _ _ _ _ _ _ _ Inv f path t_ino t_dir); eassumption.
Qed.
End Step.

(** ** Every image the programs produce is sound *)

Lemma direct_ptr_root m d :
  direct_ptr m 0 d = load m (3 * BS + ino.direct d) 4.
Proof. reflexivity. Qed.

Lemma dirent_ino_slot m d s : dirent_ino m d s = load m (root_slot m d s) 4.
Proof. unfold dirent_ino, root_slot. by rewrite direct_ptr_root. Qed.

Lemma load_slot_field m e off n :
  0 <= e -> 0 <= off -> off + Z.of_nat n <= DIRENT_SIZE ->
  load m (e + off) n = load (bytes m e DIRENT_SIZE) off n.
Proof. intros. by rewrite load_in_bytes by lia. Qed.

Lemma bytes_slot_prefix m e :
  0 <= e -> bytes m e 63 = bytes (bytes m e DIRENT_SIZE) 0 63.
Proof. intros. rewrite bytes_bytes by side. f_equal. lia. Qed.

(** An entry written by [dirent_checksum_finalize] keeps its checksum
    wherever it is copied. *)
Lemma slot_sum_finalized m e d :
  0 <= e -> len d = DIRENT_SIZE ->
  bytes m e DIRENT_SIZE = dirent_checksum_finalize d ->
  load m (e + de.checksum) 1 = xor_bytes (bytes m e 63).
Proof.
  intros He Hd E.
  rewrite load_slot_field, bytes_slot_prefix by side.
  rewrite E. by apply dirent_checksum_finalize_ok.
Qed.

Lemma builder_sound c t_sb t_root :
  builder_cli_ok c = true ->
  image_sound (builder_image c t_sb t_root)
    (total_blocks_of c) (inodes c) (inode_tbl_blks_of c) 1 1 1 2.
Proof.
  intros Hok.
  pose proof (builder_inv c t_sb t_root Hok) as I.
  pose proof (geom_bounds c Hok) as G. pose proof (cli_bounds c Hok) as C.
  pose proof (builder_dot_bytes c t_sb t_root Hok) as D0.
  pose proof (builder_dotdot_bytes c t_sb t_root Hok) as D1.
  pose proof (builder_sb_crc c t_sb t_root Hok) as K0.
  pose proof (builder_root_crc c t_sb t_root Hok) as K1.
  set (B := builder_image c t_sb t_root) in *.
  set (itb := inode_tbl_blks_of c) in *.
  set (tb := total_blocks_of c) in *.
  clearbody B itb tb.
  assert (P0 : direct_ptr B 0 0 = 3 + itb).
  { rewrite direct_ptr_root.
    pose proof (inv_direct_used _ _ _ _ _ _ _ _ I 0 ltac:(lia)). lia. }
  assert (Pd : forall d, 1 <= d < DIRECT_MAX -> direct_ptr B 0 d = 0).
  { intros d Hd. rewrite direct_ptr_root.
    by apply (inv_direct_free _ _ _ _ _ _ _ _ I). }
  assert (S0 : bytes B (root_slot B 0 0) DIRENT_SIZE = builder_dot).
  { unfold root_slot. rewrite P0, Z.mul_0_r, Z.add_0_r. exact D0. }
  assert (S1 : bytes B (root_slot B 0 1) DIRENT_SIZE = builder_dotdot).
  { unfold root_slot. rewrite P0. exact D1. }
  assert (R0 : forall s, 0 <= s -> 0 <= root_slot B 0 s).
  { intros s Hs. unfold root_slot. rewrite P0. side. }
  assert (T0 : load builder_dot de.type 1 = 2) by (vm_compute; reflexivity).
  assert (T1 : load builder_dotdot de.type 1 = 2)
    by (vm_compute; reflexivity).
  constructor.
  - exact I.
  - lia.
  - intros d s Hd Hs Ht. lia.
  - intros d s Hd Hs Ht. assert (d = 0) as -> by lia.
    assert (s = 0 \/ s = 1) as [-> | ->] by lia.
    + rewrite (load_slot_field B (root_slot B 0 0) de.type 1)
        by (try apply R0; side).
      rewrite S0. exact T0.
    + rewrite (load_slot_field B (root_slot B 0 1) de.type 1)
        by (try apply R0; side).
      rewrite S1. exact T1.
  - intros i Hi. lia.
  - intros i Hi. lia.
  - intros i d Hi. lia.
  - intros i d i' d' Hi Hi' Hd Hd' E N.
    assert (i = 0) as -> by lia. assert (i' = 0) as -> by lia.
    split; [reflexivity|].
    destruct (Z.eq_dec d 0) as [->|]; [|rewrite Pd in N by lia; lia].
    destruct (Z.eq_dec d' 0) as [->|]; [reflexivity|].
    rewrite E, Pd in N by lia. lia.
  - intros b Hb. exists 0, 0. split; [lia|]. split; [side|]. lia.
  - exact K0.
  - intros i Hi. assert (i = 0) as -> by lia. exact K1.
  - intros d s Hd Hs Ht. assert (d = 0) as -> by lia.
    assert (s = 0 \/ s = 1) as [-> | ->] by lia.
    + apply (slot_sum_finalized B _
        (store (memset (store (store (replicate (Z.to_nat DIRENT_SIZE) 0)
           de.inode_no 4 ROOT_INO) de.type 1 2) de.name 0 58)
           (de.name + 0) 1 46)); [by apply R0|side|exact S0].
    + apply (slot_sum_finalized B _
        (store (store (store (store (replicate (Z.to_nat DIRENT_SIZE) 0)
           de.inode_no 4 ROOT_INO) de.type 1 2) (de.name + 0) 1 46)
           (de.name + 1) 1 46)); [by apply R0|side|exact S1].
Qed.

(** The superblock checksum relation only looks at block 0. *)
Lemma sb_crc_block m :
  BS <= len m ->
  load m sb.checksum 4 = load (bytes m 0 BS) sb.checksum 4 /\
  bytes (store m sb.checksum 4 0) 0 (BS - 4) =
  bytes (store (bytes m 0 BS) sb.checksum 4 0) 0 (BS - 4).
Proof.
  intros Hm. split.
  - pose proof (load_in_bytes m 0 BS sb.checksum 4) as X.
    rewrite Z.add_0_l in X. by rewrite X by side.
  - pose proof (bytes_bytes (store m sb.checksum 4 0) 0 BS 0 (BS - 4)) as X.
    change (0 + 0) with 0 in X. rewrite <- X by side.
    unfold store. by rewrite bytes_memcpy_prefix by side.
Qed.

Lemma sb_crc_frame m m' :
  BS <= len m -> BS <= len m' -> bytes m' 0 BS = bytes m 0 BS ->
  load m sb.checksum 4 = crc32 (bytes (store m sb.checksum 4 0) 0 (BS - 4)) ->
  load m' sb.checksum 4 =
  crc32 (bytes (store m' sb.checksum 4 0) 0 (BS - 4)).
Proof.
  intros Hm Hm' E H.
  destruct (sb_crc_block m Hm) as [A1 A2].
  destruct (sb_crc_block m' Hm') as [B1 B2].
  rewrite B1, B2, E, <- A1, <- A2. exact H.
Qed.

Lemma need_blocks_nonneg fsize : 0 <= need_blocks fsize.
Proof. unfold need_blocks, u32. lia. Qed.

Lemma sound_step m tb ic itb k j r c f path t_ino t_dir out :
  image_sound m tb ic itb k j r c ->
  output (mkfs_adder m (Some f) path t_ino t_dir) = Some out ->
  image_sound out tb ic itb (k + 1)
    (j + need_blocks (u64 (st_size f)) + (if c <? 64 then 0 else 1))
    (if c <? 64 then r else r + 1) (if c <? 64 then c + 1 else 1).
Proof.
  intros S Hout. pose proof (snd_inv _ _ _ _ _ _ _ _ S) as I.
  pose proof (step_added _ _ _ _ _ _ _ _ _ _ _ _ _ I Hout) as A.
  pose proof (add_inv _ _ _ _ _ _ _ _ _ _ A) as I'.
  destruct (adder_step_conds _ _ _ _ _ _ _ _ _ _ _ _ _ I Hout)
    as (H1 & H2 & H3 & H4 & H5).
  pose proof (inv_bounds _ _ _ _ _ _ _ _ I) as B.
  pose proof (inv_bounds _ _ _ _ _ _ _ _ I') as B'.
  pose proof (inv_count _ _ _ _ _ _ _ _ I) as Hcount.
  pose proof (snd_ic _ _ _ _ _ _ _ _ S) as Hic.
  set (need := need_blocks (u64 (st_size f))) in *.
  assert (N : 0 <= need) by apply need_blocks_nonneg.
  set (dn := if c <? 64 then r - 1 else r).
  set (sn := if c <? 64 then c else 0).
  assert (Hnew : 64 * dn + sn = k + 1 /\ 0 <= dn /\ 0 <= sn < 64 /\
                 dn < (if c <? 64 then r else r + 1)).
  { unfold dn, sn. destruct (Z.ltb_spec c 64); lia. }
  assert (Hsplit : forall d s,
    0 <= d < (if c <? 64 then r else r + 1) -> 0 <= s < 64 ->
    64 * d + s <= k + 1 ->
    (d = dn /\ s = sn) \/
    (64 * d + s <= k /\ 0 <= d < r /\ ~ (c < 64 /\ d = r - 1 /\ s = c))).
  { intros d s Hd Hs Ht. unfold dn, sn in *.
    destruct (Z.ltb_spec c 64); lia. }
  (* inodes that were there *)
  assert (Fi : forall i off n, 1 <= i < k -> 0 <= off ->
            off + Z.of_nat n <= INODE_SIZE ->
            load out (3 * BS + INODE_SIZE * i + off) n =
            load m (3 * BS + INODE_SIZE * i + off) n).
  { intros i off n Hi Ho Hn. unfold load. f_equal.
    eapply (step_frame _ _ _ _ _ _ _ _ _ _ _ _ _ I Hout); side. }
  assert (Fb : forall i, 1 <= i < k ->
            bytes out (3 * BS + INODE_SIZE * i) 120 =
            bytes m (3 * BS + INODE_SIZE * i) 120).
  { intros i Hi.
    eapply (step_frame _ _ _ _ _ _ _ _ _ _ _ _ _ I Hout); side. }
  assert (Fp : forall i d, 1 <= i < k -> 0 <= d < DIRECT_MAX ->
            direct_ptr out i d = direct_ptr m i d).
  { intros i d Hi Hd. unfold direct_ptr.
    by rewrite Fi by side. }
  assert (Fk : forall d, 0 <= d < DIRECT_MAX ->
            direct_ptr out k d = if d <? need then 3 + itb + j + d else 0).
  { intros d Hd. apply (add_direct _ _ _ _ _ _ _ _ _ _ A d Hd). }
  assert (Fr : forall d, 0 <= d < DIRECT_MAX ->
            direct_ptr out 0 d =
            if decide (c = 64 /\ d = r) then 3 + itb + (j + need)
            else direct_ptr m 0 d).
  { intros d Hd.
    by apply (step_root_direct _ _ _ _ _ _ _ _ _ _ _ _ _ I Hout). }
  assert (Pu : forall d, 0 <= d < r ->
            3 + itb <= direct_ptr m 0 d < 3 + itb + j).
  { intros d Hd. rewrite direct_ptr_root.
    by apply (inv_direct_used _ _ _ _ _ _ _ _ I). }
  assert (Pf : forall d, r <= d < DIRECT_MAX -> direct_ptr m 0 d = 0).
  { intros d Hd. rewrite direct_ptr_root.
    by apply (inv_direct_free _ _ _ _ _ _ _ _ I). }
  assert (Po : forall i d, 1 <= i < k -> 0 <= d < DIRECT_MAX ->
            direct_ptr m i d = 0 \/
            3 + itb <= direct_ptr m i d < 3 + itb + j).
  { intros i d Hi Hd. pose proof (snd_direct _ _ _ _ _ _ _ _ S i d Hi Hd) as X.
    destruct (d <? need_blocks _) in X; [by right|by left]. }
  (* entries that were there *)
  assert (Fo : forall d s, 0 <= d < r -> 0 <= s < 64 ->
            ~ (c < 64 /\ d = r - 1 /\ s = c) ->
            root_slot out d s = root_slot m d s /\
            0 <= root_slot m d s /\
            bytes out (root_slot m d s) DIRENT_SIZE =
            bytes m (root_slot m d s) DIRENT_SIZE).
  { intros d s Hd Hs Hne.
    destruct (step_dirent_old _ _ _ _ _ _ _ _ _ _ _ _ _ I Hout d s Hd Hs Hne)
      as [E1 E2].
    split; [done|]. split; [|done].
    unfold root_slot. pose proof (Pu d Hd). side. }
  assert (Fol : forall d s off n, 0 <= d < r -> 0 <= s < 64 ->
            ~ (c < 64 /\ d = r - 1 /\ s = c) ->
            0 <= off -> off + Z.of_nat n <= DIRENT_SIZE ->
            load out (root_slot out d s + off) n =
            load m (root_slot m d s + off) n).
  { intros d s off n Hd Hs Hne Ho Hn.
    destruct (Fo d s Hd Hs Hne) as (E1 & E0 & E2).
    rewrite E1. rewrite !(load_slot_field _ (root_slot m d s)) by side.
    by rewrite E2. }
  (* the new entry *)
  pose proof (step_dirent_new _ _ _ _ _ _ _ _ _ _ _ _ _ I Hout) as Dn.
  fold dn sn in Dn.
  assert (Rn : 0 <= root_slot out dn sn).
  { unfold root_slot. rewrite Fr by (unfold dn; destruct (c <? 64); side).
    destruct (decide _).
    - side.
    - unfold dn in *. destruct (Z.ltb_spec c 64).
      + pose proof (Pu (r - 1) ltac:(lia)). side.
      + destruct H5 as [|[? ?]]; [lia|].
        exfalso. apply n. lia. }
  (* all direct pointers of the new image *)
  assert (Hcls : forall i d, 0 <= i < k + 1 -> 0 <= d < DIRECT_MAX ->
    (i < k /\ ~ (i = 0 /\ c = 64 /\ d = r) /\
     direct_ptr out i d = direct_ptr m i d /\
     (direct_ptr m i d = 0 \/
      3 + itb <= direct_ptr m i d < 3 + itb + j)) \/
    (i = k /\ direct_ptr out i d = if d <? need then 3 + itb + j + d else 0) \/
    (i = 0 /\ c = 64 /\ d = r /\ direct_ptr out i d = 3 + itb + j + need)).
  { intros i d Hi Hd.
    destruct (decide (i = k)) as [->|Hik]; [right; left; auto|].
    destruct (decide (i = 0)) as [->|Hi0].
    - rewrite Fr by done. destruct (decide (c = 64 /\ d = r)) as [[? ?]|Hn].
      + right. right. repeat split; try done. lia.
      + left. split; [lia|]. split; [tauto|]. split; [done|].
        destruct (decide (d < r)); [right; apply Pu; lia|left; apply Pf; lia].
    - left. split; [lia|]. split; [lia|]. split; [apply Fp; lia|].
      apply Po; lia. }
  constructor.
  - exact I'.
  - exact Hic.
  - (* snd_entry *)
    intros d s Hd Hs Ht.
    destruct (Hsplit d s Hd Hs ltac:(lia)) as [[-> ->]|(Ht' & Hd' & Hne)].
    + pose proof (add_dirent _ _ _ _ _ _ _ _ _ _ A) as X.
      fold dn sn in X. rewrite X. lia.
    + rewrite !dirent_ino_slot.
      pose proof (Fol d s 0 4%nat Hd' Hs Hne ltac:(lia) ltac:(side)) as X.
      rewrite !Z.add_0_r in X. rewrite X. rewrite <- dirent_ino_slot.
      apply (snd_entry _ _ _ _ _ _ _ _ S); lia.
  - (* snd_type *)
    intros d s Hd Hs Ht.
    destruct (Hsplit d s Hd Hs ltac:(lia)) as [[-> ->]|(Ht' & Hd' & Hne)].
    + rewrite load_slot_field by side. rewrite Dn.
      unfold adder_dirent. cbv zeta. rewrite new_dirent_type.
      destruct (Z.ltb_spec (64 * dn + sn) 2); lia.
    + rewrite Fol by side. by apply (snd_type _ _ _ _ _ _ _ _ S).
  - (* snd_mode *)
    intros i Hi. destruct (decide (i = k)) as [->|].
    + apply (add_mode _ _ _ _ _ _ _ _ _ _ A).
    + rewrite Fi by side. apply (snd_mode _ _ _ _ _ _ _ _ S). lia.
  - intros i Hi. destruct (decide (i = k)) as [->|].
    + apply (add_links _ _ _ _ _ _ _ _ _ _ A).
    + rewrite Fi by side. apply (snd_links _ _ _ _ _ _ _ _ S). lia.
  - (* snd_direct *)
    intros i d Hi Hd. destruct (decide (i = k)) as [->|].
    + rewrite (add_size _ _ _ _ _ _ _ _ _ _ A). fold need.
      rewrite Fk by done. destruct (Z.ltb_spec d need); cbv iota; [|done].
      destruct (c <? 64); lia.
    + rewrite Fi by side. rewrite Fp by lia.
      pose proof (snd_direct _ _ _ _ _ _ _ _ S i d ltac:(lia) Hd) as X.
      destruct (d <? need_blocks _); [|done]. destruct (c <? 64); lia.
  - (* snd_apart *)
    intros i d i' d' Hi Hi' Hd Hd' E Nz.
    destruct (Hcls i d Hi Hd) as [(L1 & L2 & L3 & L4)|[(L1 & L2)|(L1 & L2 & L3 & L4)]],
      (Hcls i' d' Hi' Hd') as [(M1 & M2 & M3 & M4)|[(M1 & M2)|(M1 & M2 & M3 & M4)]].
    + rewrite L3, M3 in E. rewrite L3 in Nz.
      apply (snd_apart _ _ _ _ _ _ _ _ S); try done; lia.
    + exfalso. rewrite L3, M2 in E. rewrite L3 in Nz.
      destruct (Z.ltb_spec d' need); lia.
    + exfalso. rewrite L3, M4 in E. rewrite L3 in Nz. lia.
    + exfalso. rewrite L2, M3 in E. rewrite L2 in Nz.
      destruct (Z.ltb_spec d need); lia.
    + rewrite L2, M2 in E. rewrite L2 in Nz.
      destruct (Z.ltb_spec d need), (Z.ltb_spec d' need); lia.
    + exfalso. rewrite L2, M4 in E. rewrite L2 in Nz.
      destruct (Z.ltb_spec d need); lia.
    + exfalso. rewrite L4, M3 in E. lia.
    + exfalso. rewrite L4, M2 in E.
      destruct (Z.ltb_spec d' need); lia.
    + lia.
  - (* snd_owned *)
    intros b Hb.
    destruct (decide (b < 3 + itb + j)) as [Hold|Hnew'].
    + destruct (snd_owned _ _ _ _ _ _ _ _ S b ltac:(lia))
        as (i & d & Hi & Hd & E).
      exists i, d. split; [lia|]. split; [done|].
      destruct (Hcls i d ltac:(lia) Hd)
        as [(L1 & L2 & L3 & L4)|[(L1 & L2)|(L1 & L2 & L3 & L4)]].
      * by rewrite L3.
      * lia.
      * subst i d. rewrite Pf in E by lia. lia.
    + destruct (decide (b < 3 + itb + j + need)) as [Hfile|Hroot].
      * exists k, (b - (3 + itb + j)). split; [lia|]. split; [side|].
        rewrite Fk by side.
        destruct (Z.ltb_spec (b - (3 + itb + j)) need); lia.
      * destruct (Z.ltb_spec c 64); [lia|].
        exists 0, r. split; [lia|]. split; [destruct H5; side|].
        rewrite Fr by (destruct H5; side).
        destruct (decide _) as [|Hn]; [lia|]. exfalso. apply Hn. lia.
  - (* snd_sb_crc *)
    eapply (sb_crc_frame m out); [side|side| |].
    + eapply (step_frame _ _ _ _ _ _ _ _ _ _ _ _ _ I Hout); side.
    + apply (snd_sb_crc _ _ _ _ _ _ _ _ S).
  - (* snd_inode_crc *)
    intros i Hi. destruct (decide (i = k)) as [->|].
    + apply (step_inode_crc _ _ _ _ _ _ _ _ _ _ _ _ _ I Hout).
    + destruct (decide (i = 0)) as [->|].
      * apply (step_root_crc _ _ _ _ _ _ _ _ _ _ _ _ _ I Hout).
      * rewrite Fi by side. rewrite Fb by lia.
        apply (snd_inode_crc _ _ _ _ _ _ _ _ S). lia.
  - (* snd_dirent_sum *)
    intros d s Hd Hs Ht.
    destruct (Hsplit d s Hd Hs ltac:(lia)) as [[-> ->]|(Ht' & Hd' & Hne)].
    + unfold adder_dirent, new_dirent in Dn. cbv zeta in Dn.
      eapply slot_sum_finalized; [exact Rn| |exact Dn]. side.
    + destruct (Fo d s Hd' Hs Hne) as (E1 & E0 & E2).
      rewrite Fol by side. rewrite E1.
      rewrite (bytes_slot_prefix out), E2, <- bytes_slot_prefix by done.
      by apply (snd_dirent_sum _ _ _ _ _ _ _ _ S).
Qed.

Lemma run_adder_output img a out :
  output (run_adder img a) = Some out ->
  forall tb ic itb k j r c, image_inv img tb ic itb k j r c ->
  exists f, a_src a = Some f /\
    output (mkfs_adder img (Some f) (a_path a) (a_t_ino a) (a_t_dir a)) =
    Some out.
Proof.
  intros Hout tb ic itb k j r c I. unfold run_adder in Hout.
  destruct (adder_step _ _ _ _ _ _ _ _ _ _ _ _ _ I Hout) as (f & E & _).
  exists f. split; [done|]. by rewrite <- E.
Qed.

Lemma reachable_sound img :
  reachable img ->
  exists tb ic itb k j r c, image_sound img tb ic itb k j r c.
Proof.
  induction 1 as [c t_sb t_root img H | img a out _ IH Hout].
  - apply mkfs_builder_some in H as [Hok ->].
    do 7 eexists. by apply builder_sound.
  - destruct IH as (tb & ic & itb & k & j & r & c & S).
    destruct (run_adder_output _ _ _ Hout _ _ _ _ _ _ _
                (snd_inv _ _ _ _ _ _ _ _ S)) as (f & _ & Hout').
    do 7 eexists. eapply sound_step; eassumption.
Qed.

(** What the parameters of [image_sound] are, read off the image. *)
Lemma sound_observe m tb ic itb k j r c :
  image_sound m tb ic itb k j r c ->
  load m sb.inode_count 8 = ic /\
  load m sb.data_region_start 8 = 3 + itb /\
  load m sb.data_region_blocks 8 = tb - (3 + itb) /\
  (forall i, 0 <= i < ic -> test_bit m BS i = 1 <-> i < k) /\
  (forall b, 0 <= b < tb - (3 + itb) -> test_bit m (2 * BS) b = 1 <-> b < j) /\
  (forall d, 0 <= d < DIRECT_MAX -> direct_ptr m 0 d <> 0 <-> d < r) /\
  (forall d s, 0 <= d < r -> 0 <= s < 64 ->
     dirent_ino m d s <> 0 <-> 64 * d + s <= k).
Proof.
  intros S. pose proof (snd_inv _ _ _ _ _ _ _ _ S) as I.
  pose proof (inv_bounds _ _ _ _ _ _ _ _ I) as B.
  pose proof (inv_count _ _ _ _ _ _ _ _ I) as Hcount.
  split; [apply (inv_inode_count _ _ _ _ _ _ _ _ I)|].
  split; [apply (inv_data_region_start _ _ _ _ _ _ _ _ I)|].
  split; [apply (inv_data_region_blocks _ _ _ _ _ _ _ _ I)|].
  split.
  { intros i Hi. rewrite (inv_ibits _ _ _ _ _ _ _ _ I) by done.
    destruct (Z.ltb_spec i k); lia. }
  split.
  { intros b Hb. rewrite (inv_dbits _ _ _ _ _ _ _ _ I) by done.
    destruct (Z.ltb_spec b j); lia. }
  split.
  { intros d Hd. rewrite direct_ptr_root.
    destruct (decide (d < r)).
    - pose proof (inv_direct_used _ _ _ _ _ _ _ _ I d ltac:(lia)). lia.
    - rewrite (inv_direct_free _ _ _ _ _ _ _ _ I) by lia. lia. }
  intros d s Hd Hs.
  destruct (decide (d < r - 1)).
  - pose proof (inv_full _ _ _ _ _ _ _ _ I d s ltac:(lia) Hs). lia.
  - assert (d = r - 1) as -> by lia.
    destruct (decide (s < c)).
    + pose proof (inv_last_used _ _ _ _ _ _ _ _ I s ltac:(lia)). lia.
    + rewrite (inv_last_free _ _ _ _ _ _ _ _ I) by lia. lia.
Qed.

(** ** Checksums *)

(** X3: in every image the builder writes, and in every image the adder
    writes from such an image, each stored checksum is that of the bytes it
    covers: the superblock checksum is the CRC-32 of the first 4092 bytes of
    block 0 with the checksum field taken as zero; the CRC of every
    allocated inode is that of its first 120 bytes; the checksum byte of
    every occupied entry of the root directory is the XOR of the 63 bytes
    before it. *)
Theorem reachable_checksums img :
  reachable img ->
  load img sb.checksum 4 =
    crc32 (bytes (store img sb.checksum 4 0) 0 (BS - 4)) /\
  (forall i, 0 <= i < load img sb.inode_count 8 -> test_bit img BS i = 1 ->
     load img (3 * BS + INODE_SIZE * i + ino.inode_crc) 8 =
     crc32 (bytes img (3 * BS + INODE_SIZE * i) 120)) /\
  (forall d s, 0 <= d < DIRECT_MAX -> 0 <= s < 64 ->
     direct_ptr img 0 d <> 0 -> dirent_ino img d s <> 0 ->
     load img (root_slot img d s + de.checksum) 1 =
     xor_bytes (bytes img (root_slot img d s) 63)).
Proof.
  intros Hr. destruct (reachable_sound _ Hr)
    as (tb & ic & itb & k & j & r & c & S).
  destruct (sound_observe _ _ _ _ _ _ _ _ S)
    as (Eic & _ & _ & Hib & _ & Hrp & Hde).
  split; [apply (snd_sb_crc _ _ _ _ _ _ _ _ S)|]. split.
  - intros i Hi Hbit. rewrite Eic in Hi.
    apply (snd_inode_crc _ _ _ _ _ _ _ _ S). apply Hib in Hbit; lia.
  - intros d s Hd Hs Hp He. apply Hrp in Hp; [|done].
    apply (snd_dirent_sum _ _ _ _ _ _ _ _ S); [lia|done|].
    apply Hde; [lia|done|done].
Qed.

Lemma reachable_checksums_witness :
  let img := builder_image small_cli 0 0 in
  load img sb.checksum 4 =
    crc32 (bytes (store img sb.checksum 4 0) 0 (BS - 4)) /\
  (forall i, 0 <= i < load img sb.inode_count 8 -> test_bit img BS i = 1 ->
     load img (3 * BS + INODE_SIZE * i + ino.inode_crc) 8 =
     crc32 (bytes img (3 * BS + INODE_SIZE * i) 120)) /\
  (forall d s, 0 <= d < DIRECT_MAX -> 0 <= s < 64 ->
     direct_ptr img 0 d <> 0 -> dirent_ino img d s <> 0 ->
     load img (root_slot img d s + de.checksum) 1 =
     xor_bytes (bytes img (root_slot img d s) 63)).
Proof.
  intros img. apply (reachable_checksums img). exact small_image_reachable.
Defined.

(** ** Blocks and their owners *)

(** X4: in every image the two programs produce, a data block is marked in
    the data bitmap exactly when a direct pointer of an allocated inode
    names it; two distinct (inode, pointer index) pairs never name the same
    block; and every non-null direct pointer of an allocated inode points
    inside the data region. *)
Theorem reachable_block_owners img :
  reachable img ->
  let drs := load img sb.data_region_start 8 in
  let drb := load img sb.data_region_blocks 8 in
  let allocated i :=
    0 <= i < load img sb.inode_count 8 /\ test_bit img BS i = 1 in
  (forall b, 0 <= b < drb ->
     test_bit img (2 * BS) b = 1 <->
     exists i d, allocated i /\ 0 <= d < DIRECT_MAX /\
                 direct_ptr img i d = drs + b) /\
  (forall i d i' d', allocated i -> allocated i' ->
     0 <= d < DIRECT_MAX -> 0 <= d' < DIRECT_MAX ->
     direct_ptr img i d <> 0 -> direct_ptr img i d = direct_ptr img i' d' ->
     i = i' /\ d = d') /\
  (forall i d, allocated i -> 0 <= d < DIRECT_MAX ->
     direct_ptr img i d <> 0 -> drs <= direct_ptr img i d < drs + drb).
Proof.
  intros Hr drs drb allocated.
  destruct (reachable_sound _ Hr) as (tb & ic & itb & k & j & r & c & S).
  destruct (sound_observe _ _ _ _ _ _ _ _ S)
    as (Eic & Edrs & Edrb & Hib & Hdb & Hrp & _).
  pose proof (snd_inv _ _ _ _ _ _ _ _ S) as I.
  pose proof (inv_bounds _ _ _ _ _ _ _ _ I) as B.
  subst drs drb allocated. cbv beta. rewrite Eic, Edrs, Edrb.
  assert (Hrange : forall i d, 0 <= i < k -> 0 <= d < DIRECT_MAX ->
            direct_ptr img i d <> 0 ->
            3 + itb <= direct_ptr img i d < 3 + itb + j).
  { intros i d Hi Hd Hp. destruct (decide (i = 0)) as [->|].
    - apply Hrp in Hp; [|done]. rewrite direct_ptr_root.
      apply (inv_direct_used _ _ _ _ _ _ _ _ I). lia.
    - pose proof (snd_direct _ _ _ _ _ _ _ _ S i d ltac:(lia) Hd) as X.
      destruct (d <? need_blocks _) in X; [done|lia]. }
  split; [|split].
  - intros b Hb. rewrite Hdb by done. split.
    + intros Hj.
      destruct (snd_owned _ _ _ _ _ _ _ _ S (3 + itb + b) ltac:(lia))
        as (i & d & Hi & Hd & E).
      exists i, d. split; [|done]. split; [lia|]. apply Hib; lia.
    + intros (i & d & [Hi Hbit] & Hd & E).
      apply Hib in Hbit; [|done].
      pose proof (Hrange i d ltac:(lia) Hd ltac:(lia)). lia.
  - intros i d i' d' [Hi Hbit] [Hi' Hbit'] Hd Hd' Hp E.
    apply Hib in Hbit; [|done]. apply Hib in Hbit'; [|done].
    apply (snd_apart _ _ _ _ _ _ _ _ S); try done; lia.
  - intros i d [Hi Hbit] Hd Hp. apply Hib in Hbit; [|done].
    pose proof (Hrange i d ltac:(lia) Hd Hp). lia.
Qed.

Lemma reachable_block_owners_witness :
  let img := builder_image small_cli 0 0 in
  let drs := load img sb.data_region_start 8 in
  let drb := load img sb.data_region_blocks 8 in
  let allocated i :=
    0 <= i < load img sb.inode_count 8 /\ test_bit img BS i = 1 in
  (forall b, 0 <= b < drb ->
     test_bit img (2 * BS) b = 1 <->
     exists i d, allocated i /\ 0 <= d < DIRECT_MAX /\
                 direct_ptr img i d = drs + b) /\
  (forall i d i' d', allocated i -> allocated i' ->
     0 <= d < DIRECT_MAX -> 0 <= d' < DIRECT_MAX ->
     direct_ptr img i d <> 0 -> direct_ptr img i d = direct_ptr img i' d' ->
     i = i' /\ d = d') /\
  (forall i d, allocated i -> 0 <= d < DIRECT_MAX ->
     direct_ptr img i d <> 0 -> drs <= direct_ptr img i d < drs + drb).
Proof.
  intros img. apply (reachable_block_owners img). exact small_image_reachable.
Defined.

(** ** The root directory and the inode bitmap *)

(** X5: in every image the two programs produce, the root directory and
    the inode bitmap describe the same files.  Inode 1 is the root, a
    directory whose first two entries name it.  Inode index [i >= 1] is
    allocated exactly when entry number [i + 1] of the root directory
    (slot [(i + 1) mod 64] of its block [(i + 1) / 64]) names inode number
    [i + 1]; an occupied entry past the first two is a file entry (type 1)
    that names the inode number equal to its own position, and that inode
    is allocated.  The root's link count is the number of allocated inodes
    plus one, and its size is 64 bytes per link. *)
Theorem reachable_directory img :
  reachable img ->
  let ic := load img sb.inode_count 8 in
  load img sb.root_inode 8 = ROOT_INO /\
  test_bit img BS 0 = 1 /\
  load img (3 * BS + ino.mode) 2 = 0x4000 /\
  dirent_ino img 0 0 = ROOT_INO /\ dirent_ino img 0 1 = ROOT_INO /\
  (forall i, 1 <= i < ic ->
     test_bit img BS i = 1 <->
     direct_ptr img 0 ((i + 1) / 64) <> 0 /\
     dirent_ino img ((i + 1) / 64) ((i + 1) mod 64) = i + 1) /\
  (forall d s, 0 <= d < DIRECT_MAX -> 0 <= s < 64 -> 2 <= 64 * d + s ->
     direct_ptr img 0 d <> 0 -> dirent_ino img d s <> 0 ->
     dirent_ino img d s = 64 * d + s /\
     load img (root_slot img d s + de.type) 1 = 1 /\
     64 * d + s <= ic /\ test_bit img BS (64 * d + s - 1) = 1) /\
  load img (3 * BS + ino.links) 2 + len (free_bits img BS ic) = ic + 1 /\
  load img (3 * BS + ino.size_bytes) 8 =
    DIRENT_SIZE * load img (3 * BS + ino.links) 2.
Proof.
  intros Hr ic.
  destruct (reachable_sound _ Hr) as (tb & ic' & itb & k & j & r & c & S).
  destruct (sound_observe _ _ _ _ _ _ _ _ S)
    as (Eic & _ & _ & Hib & _ & Hrp & Hde).
  pose proof (snd_inv _ _ _ _ _ _ _ _ S) as I.
  pose proof (inv_bounds _ _ _ _ _ _ _ _ I) as B.
  pose proof (inv_count _ _ _ _ _ _ _ _ I) as Hcount.
  pose proof (snd_ic _ _ _ _ _ _ _ _ S) as Hic.
  subst ic. rewrite Eic.
  split; [apply (inv_root_inode _ _ _ _ _ _ _ _ I)|].
  split; [apply Hib; lia|].
  split; [apply (inv_root_mode _ _ _ _ _ _ _ _ I)|].
  split; [apply (inv_dot _ _ _ _ _ _ _ _ I)|].
  split; [apply (inv_dotdot _ _ _ _ _ _ _ _ I)|].
  split; [|split; [|split]].
  - intros i Hi. rewrite Hib by lia.
    assert (Hd : 0 <= (i + 1) / 64 < DIRECT_MAX) by side.
    assert (Hs : 0 <= (i + 1) mod 64 < 64) by lia.
    assert (Ht : 64 * ((i + 1) / 64) + (i + 1) mod 64 = i + 1) by lia.
    rewrite Hrp by done. split.
    + intros Hk. assert ((i + 1) / 64 < r) by lia. split; [done|].
      rewrite (snd_entry _ _ _ _ _ _ _ _ S); lia.
    + intros [Hlt He].
      assert (dirent_ino img ((i + 1) / 64) ((i + 1) mod 64) <> 0) as Hn by lia.
      apply Hde in Hn; lia.
  - intros d s Hd Hs Ht Hp He. apply Hrp in Hp; [|done].
    apply Hde in He; [|lia|done].
    split; [apply (snd_entry _ _ _ _ _ _ _ _ S); lia|].
    split.
    + rewrite (snd_type _ _ _ _ _ _ _ _ S) by lia.
      destruct (Z.ltb_spec (64 * d + s) 2); [lia|done].
    + split; [lia|]. apply Hib; lia.
  - rewrite (inv_links _ _ _ _ _ _ _ _ I).
    rewrite (free_bits_prefix img BS ic' k)
      by (apply (inv_ibits _ _ _ _ _ _ _ _ I) || lia).
    rewrite len_seqZ by lia. lia.
  - rewrite (inv_links _ _ _ _ _ _ _ _ I).
    apply (inv_size _ _ _ _ _ _ _ _ I).
Qed.

Lemma reachable_directory_witness :
  let img := builder_image small_cli 0 0 in
  let ic := load img sb.inode_count 8 in
  load img sb.root_inode 8 = ROOT_INO /\
  test_bit img BS 0 = 1 /\
  load img (3 * BS + ino.mode) 2 = 0x4000 /\
  dirent_ino img 0 0 = ROOT_INO /\ dirent_ino img 0 1 = ROOT_INO /\
  (forall i, 1 <= i < ic ->
     test_bit img BS i = 1 <->
     direct_ptr img 0 ((i + 1) / 64) <> 0 /\
     dirent_ino img ((i + 1) / 64) ((i + 1) mod 64) = i + 1) /\
  (forall d s, 0 <= d < DIRECT_MAX -> 0 <= s < 64 -> 2 <= 64 * d + s ->
     direct_ptr img 0 d <> 0 -> dirent_ino img d s <> 0 ->
     dirent_ino img d s = 64 * d + s /\
     load img (root_slot img d s + de.type) 1 = 1 /\
     64 * d + s <= ic /\ test_bit img BS (64 * d + s - 1) = 1) /\
  load img (3 * BS + ino.links) 2 + len (free_bits img BS ic) = ic + 1 /\
  load img (3 * BS + ino.size_bytes) 8 =
    DIRENT_SIZE * load img (3 * BS + ino.links) 2.
Proof.
  intros img. apply (reachable_directory img). exact small_image_reachable.
Defined.

(** ** Files that are already there *)

Lemma sound_step_keeps m tb ic itb k j r c f path t_ino t_dir out :
  image_sound m tb ic itb k j r c ->
  output (mkfs_adder m (Some f) path t_ino t_dir) = Some out ->
  bytes out 0 BS = bytes m 0 BS /\
  (forall i, 1 <= i < k ->
     bytes out (3 * BS + INODE_SIZE * i) INODE_SIZE =
     bytes m (3 * BS + INODE_SIZE * i) INODE_SIZE /\
     inode_blocks out (3 * BS + INODE_SIZE * i) =
     inode_blocks m (3 * BS + INODE_SIZE * i)) /\
  (forall d s, 0 <= d < r -> 0 <= s < 64 -> 64 * d + s <= k ->
     bytes out (root_slot out d s) DIRENT_SIZE =
     bytes m (root_slot m d s) DIRENT_SIZE).
Proof.
  intros S Hout. pose proof (snd_inv _ _ _ _ _ _ _ _ S) as I.
  pose proof (inv_bounds _ _ _ _ _ _ _ _ I) as B.
  pose proof (inv_count _ _ _ _ _ _ _ _ I) as Hcount.
  split; [|split].
  - eapply (step_frame _ _ _ _ _ _ _ _ _ _ _ _ _ I Hout); side.
  - intros i Hi.
    assert (Fb : forall off n, 0 <= off -> off + n <= INODE_SIZE ->
              bytes out (3 * BS + INODE_SIZE * i + off) n =
              bytes m (3 * BS + INODE_SIZE * i + off) n).
    { intros off n Ho Hn.
      eapply (step_frame _ _ _ _ _ _ _ _ _ _ _ _ _ I Hout); side. }
    split.
    { pose proof (Fb 0 INODE_SIZE ltac:(lia) ltac:(lia)) as X.
      by rewrite !Z.add_0_r in X. }
    unfold inode_blocks.
    rewrite (map_ext_Forall (block_of out (3 * BS + INODE_SIZE * i))
               (block_of m (3 * BS + INODE_SIZE * i))); [done|].
    apply Forall_seqZ. intros d Hd. unfold block_of. cbv zeta.
    assert (Ep : load out (3 * BS + INODE_SIZE * i + ino.direct d) 4 =
                 direct_ptr m i d).
    { unfold direct_ptr, load. by rewrite Fb by side. }
    rewrite Ep. fold (direct_ptr m i d).
    destruct (Z.eqb_spec (direct_ptr m i d) 0) as [|Hp]; [done|].
    pose proof (snd_direct _ _ _ _ _ _ _ _ S i d Hi ltac:(lia)) as X.
    destruct (d <? need_blocks _) in X; [|lia].
    eapply (step_frame _ _ _ _ _ _ _ _ _ _ _ _ _ I Hout); [side|].
    right. right. right. split; [side|]. split; [side|].
    intros Hc.
    assert (direct_ptr m i d <> direct_ptr m 0 (r - 1)) as Hne.
    { intros E.
      apply (snd_apart _ _ _ _ _ _ _ _ S) in E; [lia|lia|lia|lia|side|done]. }
    unfold root_slot. consts. lia.
  - intros d s Hd Hs Ht.
    destruct (step_dirent_old _ _ _ _ _ _ _ _ _ _ _ _ _ I Hout d s Hd Hs)
      as [E1 E2]; [lia|].
    by rewrite E1.
Qed.

(** X6: adding a file to an image the two programs produced leaves every
    file that was there as it was: the superblock block, the 128 bytes of
    every inode allocated before the run (the root apart), and the content
    of the blocks its direct pointers name, are the same in the image
    written as in the image read. *)
Theorem add_keeps_files img a out :
  reachable img ->
  output (run_adder img a) = Some out ->
  bytes out 0 BS = bytes img 0 BS /\
  forall i, 1 <= i < load img sb.inode_count 8 -> test_bit img BS i = 1 ->
    bytes out (3 * BS + INODE_SIZE * i) INODE_SIZE =
    bytes img (3 * BS + INODE_SIZE * i) INODE_SIZE /\
    inode_blocks out (3 * BS + INODE_SIZE * i) =
    inode_blocks img (3 * BS + INODE_SIZE * i).
Proof.
  intros Hr Hout.
  destruct (reachable_sound _ Hr) as (tb & ic & itb & k & j & r & c & S).
  destruct (sound_observe _ _ _ _ _ _ _ _ S) as (Eic & _ & _ & Hib & _).
  destruct (run_adder_output _ _ _ Hout _ _ _ _ _ _ _
              (snd_inv _ _ _ _ _ _ _ _ S)) as (f & _ & Hout').
  destruct (sound_step_keeps _ _ _ _ _ _ _ _ _ _ _ _ _ S Hout')
    as (K0 & K1 & _).
  split; [exact K0|].
  intros i Hi Hbit. rewrite Eic in Hi. apply Hib in Hbit; [|lia].
  apply K1. lia.
Qed.

Lemma small_add_succeeds img :
  image_inv img 45 128 4 1 1 1 2 ->
  exists out,
    output (mkfs_adder img (Some (file_of [104; 105])) [97] 0 0) = Some out.
Proof.
  intros I.
  apply (adder_succeeds_proper _ _ _ _ _ _ _ _ I (file_of [104; 105]) [97] 0 0).
  - change (need_blocks (u64 (st_size (file_of [104; 105])))) with 1. side.
  - lia.
  - change (need_blocks (u64 (st_size (file_of [104; 105])))) with 1. lia.
  - reflexivity.
  - reflexivity.
  - change (2 <= 49152). lia.
  - left. lia.
Qed.

Lemma small_add_output img :
  image_inv img 45 128 4 1 1 1 2 ->
  exists out, output (run_adder img (call_of [104; 105] [97])) = Some out.
Proof. intros I. unfold run_adder, call_of. cbn [a_src a_path a_t_ino a_t_dir]. by apply small_add_succeeds. Qed.

Lemma add_keeps_files_witness :
  let img := builder_image small_cli 0 0 in
  exists out, output (run_adder img (call_of [104; 105] [97])) = Some out /\
  bytes out 0 BS = bytes img 0 BS /\
  forall i, 1 <= i < load img sb.inode_count 8 -> test_bit img BS i = 1 ->
    bytes out (3 * BS + INODE_SIZE * i) INODE_SIZE =
    bytes img (3 * BS + INODE_SIZE * i) INODE_SIZE /\
    inode_blocks out (3 * BS + INODE_SIZE * i) =
    inode_blocks img (3 * BS + INODE_SIZE * i).
Proof.
  intros img.
  pose proof small_image_inv as I. pose proof small_image_reachable as R.
  fold img in I, R. clearbody img.
  destruct (small_add_output img I) as [out Hout].
  exists out. split; [exact Hout|].
  exact (add_keeps_files img _ out R Hout).
Defined.

(** ** The exit code *)

(** The runs that stop before anything is allocated, with their codes. *)
Lemma inv_reject_code m tb ic itb k j r c src path t_ino t_dir :
  image_inv m tb ic itb k j r c ->
  exit_code (mkfs_adder m src path t_ino t_dir) =
  match src with
  | None => 4
  | Some f =>
      if negb (st_isreg f) then 4
      else if DIRECT_MAX <? need_blocks (u64 (st_size f)) then 5
      else if ic <=? k then 6
      else if tb - (3 + itb) - j <? need_blocks (u64 (st_size f)) then 6
      else exit_code (mkfs_adder m src path t_ino t_dir)
  end.
Proof.
  intros Inv.
  pose proof (inv_bounds _ _ _ _ _ _ _ _ Inv) as B.
  destruct src as [f|].
  2:{ unfold mkfs_adder.
      destruct (adder_head_checks _ _ _ _ _ _ _ _ Inv) as (-> & -> & ->).
      done. }
  set (need := need_blocks (u64 (st_size f))).
  assert (N : 0 <= need) by apply need_blocks_nonneg.
  destruct (st_isreg f) eqn:Hreg; cbn [negb].
  2:{ unfold mkfs_adder.
      destruct (adder_head_checks _ _ _ _ _ _ _ _ Inv) as (-> & -> & ->).
      by rewrite Hreg. }
  destruct (Z.ltb_spec DIRECT_MAX need) as [H12|H12].
  { unfold mkfs_adder.
    destruct (adder_head_checks _ _ _ _ _ _ _ _ Inv) as (-> & -> & ->).
    rewrite Hreg. cbn [negb]. fold need.
    destruct (Z.ltb_spec DIRECT_MAX need); [done|lia]. }
  destruct (Z.leb_spec ic k) as [Hk|Hk].
  { unfold mkfs_adder.
    destruct (adder_head_checks _ _ _ _ _ _ _ _ Inv) as (-> & -> & ->).
    destruct (adder_pointers _ _ _ _ _ _ _ _ Inv) as (-> & -> & ->).
    rewrite Hreg. cbn [negb]. fold need.
    destruct (Z.ltb_spec DIRECT_MAX need); [lia|].
    rewrite (adder_first_free_inode _ _ _ _ _ _ _ _ Inv).
    destruct (Z.ltb_spec k ic); [lia|]. done. }
  destruct (Z.ltb_spec (tb - (3 + itb) - j) need) as [Hj|Hj]; [|done].
  unfold mkfs_adder.
  destruct (adder_head_checks _ _ _ _ _ _ _ _ Inv) as (-> & -> & ->).
  destruct (adder_pointers _ _ _ _ _ _ _ _ Inv) as (-> & -> & ->).
  rewrite Hreg. cbn [negb]. fold need.
  destruct (Z.ltb_spec DIRECT_MAX need); [lia|].
  rewrite (adder_first_free_inode _ _ _ _ _ _ _ _ Inv).
  destruct (Z.ltb_spec k ic); [|lia].
  destruct (Z.eqb_spec k UINT32_MAX) as [|_]; [side|].
  rewrite (adder_scan_free _ _ _ _ _ _ _ _ Inv).
  destruct (Z.eqb_spec need 0) as [|Hn0]; [lia|]. cbn [negb andb].
  rewrite len_seqZ by lia.
  destruct (Z.ltb_spec (Z.min need (tb - (3 + itb) - j)) need); [done|lia].
Qed.

(** The exit code of a run on a well-shaped image, for a source whose
    size is in the range where the block count is exact. *)
Lemma inv_exit_code m tb ic itb k j r c src path t_ino t_dir :
  image_inv m tb ic itb k j r c ->
  match src with
  | Some f => 0 <= st_size f <= 2 ^ 44 - BS
  | None => True
  end ->
  exit_code (mkfs_adder m src path t_ino t_dir) =
  match src with
  | None => 4
  | Some f =>
      let need := (st_size f + BS - 1) / BS in
      if negb (st_isreg f) then 4
      else if DIRECT_MAX * BS <? st_size f then 5
      else if ic <=? k then 6
      else if tb - (3 + itb) - j <? need then 6
      else if len (f_data f) <? st_size f then 4
      else if c <? 64 then 0
      else if (r <? DIRECT_MAX) && (need <? tb - (3 + itb) - j) then 0
      else 7
  end.
Proof.
  intros Inv Hsz. rewrite (inv_reject_code _ _ _ _ _ _ _ _ _ _ _ _ Inv).
  destruct src as [f|]; [|done]. cbv zeta.
  rewrite need_blocks_exact by side.
  set (need := (st_size f + BS - 1) / BS).
  destruct (st_isreg f) eqn:Hreg; cbn [negb]; [|done].
  assert (Hiff : (DIRECT_MAX <? need) = (DIRECT_MAX * BS <? st_size f)).
  { subst need. consts.
    destruct (Z.ltb_spec 12 ((st_size f + 4096 - 1) / 4096)),
      (Z.ltb_spec (12 * 4096) (st_size f)); try done; lia. }
  rewrite Hiff.
  destruct (Z.ltb_spec (DIRECT_MAX * BS) (st_size f)) as [Hb|Hb]; [done|].
  assert (H12 : need <= DIRECT_MAX) by (subst need; side).
  destruct (Z.leb_spec ic k) as [Hk|Hk]; [done|].
  destruct (Z.ltb_spec (tb - (3 + itb) - j) need) as [Hj|Hj]; [done|].
  assert (E : need_blocks (u64 (st_size f)) = need)
    by (apply need_blocks_exact; side).
  rewrite (adder_exit_code _ _ _ _ _ _ _ _ Inv f path t_ino t_dir)
    by (rewrite ?E; first [exact Hreg | by side]).
  rewrite wb_reads by (rewrite ?E; first [exact Hreg | by side]).
  rewrite E.
  destruct (Z.leb_spec (st_size f) (len (f_data f))),
    (Z.ltb_spec (len (f_data f)) (st_size f)); try lia; cbn [negb]; [|done].
  destruct (c <? 64); [done|].
  destruct (r <? DIRECT_MAX); [|done]. cbn [andb].
  destruct (Z.ltb_spec (j + need) (tb - (3 + itb))),
    (Z.ltb_spec need (tb - (3 + itb) - j)); try done; lia.
Qed.

(** X7: the exit code of the adder on an image the two programs produced,
    for any source whose size is at most 2^44 - 4096 bytes, is decided in
    this order: 4 when the source is missing or not a regular file; 5 when
    it is larger than 49152 bytes; 6 when the inode bitmap has no clear bit
    among the first inode_count; 6 when the data bitmap has fewer clear
    bits than the file needs blocks; 4 when the file is shorter than its
    size (a short read); 0 when the last block of the root directory has a
    free slot (the root size is not a multiple of 4096); otherwise the
    root must grow by one block: 0 when a free data block is left beyond
    those of the file, and 7 when none is. *)
Theorem reachable_exit_code img src path t_ino t_dir :
  reachable img ->
  match src with
  | Some f => 0 <= st_size f <= 2 ^ 44 - BS
  | None => True
  end ->
  let free_inodes := len (free_bits img BS (load img sb.inode_count 8)) in
  let free_blocks :=
    len (free_bits img (2 * BS) (load img sb.data_region_blocks 8)) in
  let root_size := load img (3 * BS + ino.size_bytes) 8 in
  exit_code (mkfs_adder img src path t_ino t_dir) =
  match src with
  | None => 4
  | Some f =>
      let need := (st_size f + BS - 1) / BS in
      if negb (st_isreg f) then 4
      else if DIRECT_MAX * BS <? st_size f then 5
      else if free_inodes =? 0 then 6
      else if free_blocks <? need then 6
      else if len (f_data f) <? st_size f then 4
      else if negb (root_size mod BS =? 0) then 0
      else if need <? free_blocks then 0
      else 7
  end.
Proof.
  intros Hr Hsz free_inodes free_blocks root_size.
  destruct (reachable_sound _ Hr) as (tb & ic & itb & k & j & r & c & S).
  pose proof (snd_inv _ _ _ _ _ _ _ _ S) as I.
  pose proof (inv_bounds _ _ _ _ _ _ _ _ I) as B.
  pose proof (inv_count _ _ _ _ _ _ _ _ I) as Hcount.
  pose proof (snd_ic _ _ _ _ _ _ _ _ S) as Hic.
  rewrite (inv_exit_code _ _ _ _ _ _ _ _ _ _ _ _ I Hsz).
  destruct src as [f|]; [|done]. cbv zeta.
  assert (E1 : free_inodes = ic - k).
  { unfold free_inodes. rewrite (inv_inode_count _ _ _ _ _ _ _ _ I).
    rewrite (free_bits_prefix img BS ic k)
      by (apply (inv_ibits _ _ _ _ _ _ _ _ I) || lia).
    apply len_seqZ. lia. }
  assert (E2 : free_blocks = tb - (3 + itb) - j).
  { unfold free_blocks. rewrite (inv_data_region_blocks _ _ _ _ _ _ _ _ I).
    rewrite (free_bits_prefix img (2 * BS) (tb - (3 + itb)) j)
      by (apply (inv_dbits _ _ _ _ _ _ _ _ I) || lia).
    apply len_seqZ. lia. }
  assert (E3 : negb (root_size mod BS =? 0) = (c <? 64)).
  { unfold root_size. rewrite (inv_size _ _ _ _ _ _ _ _ I).
    destruct (Z.eqb_spec (DIRENT_SIZE * (k + 1) mod BS) 0),
      (Z.ltb_spec c 64); try done; exfalso; side. }
  rewrite E1, E2, E3.
  assert (E4 : (r <? DIRECT_MAX) = true).
  { destruct (Z.ltb_spec r DIRECT_MAX); [done|side]. }
  rewrite E4. cbn [andb].
  destruct (Z.eqb_spec (ic - k) 0), (Z.leb_spec ic k); try lia; done.
Qed.

Lemma reachable_exit_code_witness :
  let img := builder_image small_cli 0 0 in
  let src := Some (file_of [104; 105]) in
  let free_inodes := len (free_bits img BS (load img sb.inode_count 8)) in
  let free_blocks :=
    len (free_bits img (2 * BS) (load img sb.data_region_blocks 8)) in
  let root_size := load img (3 * BS + ino.size_bytes) 8 in
  exit_code (mkfs_adder img src [97] 0 0) =
  match src with
  | None => 4
  | Some f =>
      let need := (st_size f + BS - 1) / BS in
      if negb (st_isreg f) then 4
      else if DIRECT_MAX * BS <? st_size f then 5
      else if free_inodes =? 0 then 6
      else if free_blocks <? need then 6
      else if len (f_data f) <? st_size f then 4
      else if negb (root_size mod BS =? 0) then 0
      else if need <? free_blocks then 0
      else 7
  end.
Proof.
  intros img src.
  pose proof small_image_reachable as R. fold img in R. clearbody img.
  apply (reachable_exit_code img src [97] 0 0 R).
  vm_compute. split; discriminate.
Defined.

(** ** The superblock checksum is neither read nor written *)




(** ** What a run that succeeds writes *)

Lemma step_times m tb ic itb k j r c f path t_ino t_dir out :
  image_inv m tb ic itb k j r c ->
  output (mkfs_adder m (Some f) path t_ino t_dir) = Some out ->
  load out (3 * BS + INODE_SIZE * k + ino.atime) 8 = u64 t_ino /\
  load out (3 * BS + INODE_SIZE * k + ino.mtime) 8 = u64 t_ino /\
  load out (3 * BS + INODE_SIZE * k + ino.ctime) 8 = u64 t_ino /\
  load out (3 * BS + INODE_SIZE * k + ino.uid) 4 = 0 /\
  load out (3 * BS + INODE_SIZE * k + ino.gid) 4 = 0 /\
  load out (3 * BS + ino.mtime) 8 = u64 t_dir /\
  load out (3 * BS + ino.ctime) 8 = u64 t_dir /\
  load out (3 * BS + ino.atime) 8 = load m (3 * BS + ino.atime) 8.
Proof.
  intros Inv Hout.
  destruct (adder_step_conds _ _ _ _ _ _ _ _ _ _ _ _ _ Inv Hout)
    as (H1 & H2 & H3 & H4 & _).
  eapply (adder_times _ _ _ _ _ _ _ _ Inv f path t_ino t_dir); eassumption.
Qed.

(** X9: a run of the adder that succeeds on an image the two programs
    produced takes the first clear bit [i] of the inode bitmap (first fit)
    and sets it, leaving the other inode bits alone; writes inode [i] as a
    regular file (mode 0100000) with one link, owner 0:0, the size that
    [stat] gave and the three times set to the first clock reading; adds
    one link and 64 bytes to the root inode and sets its mtime and ctime,
    not its atime, to the second clock reading; and stores the entry it
    built for the file in entry number [i + 1] of the root directory. *)
Theorem add_file_effects img f path t_ino t_dir out :
  reachable img ->
  output (mkfs_adder img (Some f) path t_ino t_dir) = Some out ->
  let i := new_ino_idx (mkfs_adder img (Some f) path t_ino t_dir) in
  let ino_a := 3 * BS + INODE_SIZE * i in
  let ic := load img sb.inode_count 8 in
  (1 <= i < ic /\ test_bit img BS i = 0 /\
   (forall i', 0 <= i' < i -> test_bit img BS i' = 1) /\
   test_bit out BS i = 1 /\
   (forall i', 0 <= i' < ic -> i' <> i ->
      test_bit out BS i' = test_bit img BS i')) /\
  (load out (ino_a + ino.mode) 2 = 0x8000 /\
   load out (ino_a + ino.links) 2 = 1 /\
   load out (ino_a + ino.uid) 4 = 0 /\
   load out (ino_a + ino.gid) 4 = 0 /\
   load out (ino_a + ino.size_bytes) 8 = u64 (st_size f) /\
   load out (ino_a + ino.atime) 8 = u64 t_ino /\
   load out (ino_a + ino.mtime) 8 = u64 t_ino /\
   load out (ino_a + ino.ctime) 8 = u64 t_ino) /\
  (load out (3 * BS + ino.mode) 2 = load img (3 * BS + ino.mode) 2 /\
   load out (3 * BS + ino.links) 2 = load img (3 * BS + ino.links) 2 + 1 /\
   load out (3 * BS + ino.size_bytes) 8 =
     load img (3 * BS + ino.size_bytes) 8 + DIRENT_SIZE /\
   load out (3 * BS + ino.mtime) 8 = u64 t_dir /\
   load out (3 * BS + ino.ctime) 8 = u64 t_dir /\
   load out (3 * BS + ino.atime) 8 = load img (3 * BS + ino.atime) 8) /\
  bytes out (root_slot out ((i + 1) / 64) ((i + 1) mod 64)) DIRENT_SIZE =
    adder_dirent (i + 1) path.
Proof.
  intros Hr Hout i ino_a ic.
  destruct (reachable_inv _ Hr) as (tb & ic' & itb & k & j & r & c & I).
  pose proof (step_added _ _ _ _ _ _ _ _ _ _ _ _ _ I Hout) as A.
  pose proof (add_inv _ _ _ _ _ _ _ _ _ _ A) as I'.
  destruct (adder_step_conds _ _ _ _ _ _ _ _ _ _ _ _ _ I Hout)
    as (H1 & H2 & H3 & H4 & H5).
  pose proof (inv_bounds _ _ _ _ _ _ _ _ I) as B.
  pose proof (inv_count _ _ _ _ _ _ _ _ I) as Hcount.
  destruct (step_times _ _ _ _ _ _ _ _ _ _ _ _ _ I Hout)
    as (T1 & T2 & T3 & T4 & T5 & T6 & T7 & T8).
  assert (Ei : i = k) by apply (add_ino_idx _ _ _ _ _ _ _ _ _ _ A).
  subst ino_a ic. rewrite Ei. clear Ei i.
  rewrite (inv_inode_count _ _ _ _ _ _ _ _ I).
  split; [|split; [|split]].
  - split; [lia|].
    split. { rewrite (inv_ibits _ _ _ _ _ _ _ _ I) by lia.
             destruct (Z.ltb_spec k k); [lia|done]. }
    split. { intros i' Hi'. rewrite (inv_ibits _ _ _ _ _ _ _ _ I) by lia.
             destruct (Z.ltb_spec i' k); [done|lia]. }
    split. { rewrite (inv_ibits _ _ _ _ _ _ _ _ I') by lia.
             destruct (Z.ltb_spec k (k + 1)); [done|lia]. }
    intros i' Hi' Hne. rewrite (inv_ibits _ _ _ _ _ _ _ _ I') by lia.
    rewrite (inv_ibits _ _ _ _ _ _ _ _ I) by lia.
    destruct (Z.ltb_spec i' (k + 1)), (Z.ltb_spec i' k); try done; lia.
  - split; [apply (add_mode _ _ _ _ _ _ _ _ _ _ A)|].
    split; [apply (add_links _ _ _ _ _ _ _ _ _ _ A)|].
    split; [exact T4|]. split; [exact T5|].
    split; [apply (add_size _ _ _ _ _ _ _ _ _ _ A)|].
    split; [exact T1|]. split; [exact T2|]. exact T3.
  - split. { rewrite (inv_root_mode _ _ _ _ _ _ _ _ I').
             by rewrite (inv_root_mode _ _ _ _ _ _ _ _ I). }
    split. { rewrite (inv_links _ _ _ _ _ _ _ _ I').
             by rewrite (inv_links _ _ _ _ _ _ _ _ I). }
    split. { rewrite (inv_size _ _ _ _ _ _ _ _ I').
             rewrite (inv_size _ _ _ _ _ _ _ _ I). side. }
    split; [exact T6|]. split; [exact T7|]. exact T8.
  - pose proof (step_dirent_new _ _ _ _ _ _ _ _ _ _ _ _ _ I Hout) as Dn.
    replace ((k + 1) / 64) with (if c <? 64 then r - 1 else r)
      by (destruct (Z.ltb_spec c 64); lia).
    replace ((k + 1) mod 64) with (if c <? 64 then c else 0)
      by (destruct (Z.ltb_spec c 64); lia).
    exact Dn.
Qed.

Lemma add_file_effects_witness :
  let img := builder_image small_cli 0 0 in
  let f := file_of [104; 105] in
  exists out, output (mkfs_adder img (Some f) [97] 0 0) = Some out /\
  let i := new_ino_idx (mkfs_adder img (Some f) [97] 0 0) in
  let ino_a := 3 * BS + INODE_SIZE * i in
  let ic := load img sb.inode_count 8 in
  (1 <= i < ic /\ test_bit img BS i = 0 /\
   (forall i', 0 <= i' < i -> test_bit img BS i' = 1) /\
   test_bit out BS i = 1 /\
   (forall i', 0 <= i' < ic -> i' <> i ->
      test_bit out BS i' = test_bit img BS i')) /\
  (load out (ino_a + ino.mode) 2 = 0x8000 /\
   load out (ino_a + ino.links) 2 = 1 /\
   load out (ino_a + ino.uid) 4 = 0 /\
   load out (ino_a + ino.gid) 4 = 0 /\
   load out (ino_a + ino.size_bytes) 8 = u64 (st_size f) /\
   load out (ino_a + ino.atime) 8 = u64 0 /\
   load out (ino_a + ino.mtime) 8 = u64 0 /\
   load out (ino_a + ino.ctime) 8 = u64 0) /\
  (load out (3 * BS + ino.mode) 2 = load img (3 * BS + ino.mode) 2 /\
   load out (3 * BS + ino.links) 2 = load img (3 * BS + ino.links) 2 + 1 /\
   load out (3 * BS + ino.size_bytes) 8 =
     load img (3 * BS + ino.size_bytes) 8 + DIRENT_SIZE /\
   load out (3 * BS + ino.mtime) 8 = u64 0 /\
   load out (3 * BS + ino.ctime) 8 = u64 0 /\
   load out (3 * BS + ino.atime) 8 = load img (3 * BS + ino.atime) 8) /\
  bytes out (root_slot out ((i + 1) / 64) ((i + 1) mod 64)) DIRENT_SIZE =
    adder_dirent (i + 1) [97].
Proof.
  intros img f.
  pose proof small_image_inv as I. pose proof small_image_reachable as R.
  fold img in I, R. clearbody img.
  subst f.
  destruct (small_add_succeeds img I) as [out Hout].
  exists out. split; [exact Hout|].
  exact (add_file_effects img (file_of [104; 105]) [97] 0 0 out R Hout).
Defined.

(** ** The content of a file that was added *)

Lemma step_data m tb ic itb k j r c f path t_ino t_dir out :
  image_inv m tb ic itb k j r c ->
  output (mkfs_adder m (Some f) path t_ino t_dir) = Some out ->
  0 <= st_size f <= DIRECT_MAX * BS -> st_size f <= len (f_data f) ->
  need_blocks (u64 (st_size f)) = (st_size f + BS - 1) / BS /\
  u64 (st_size f) = st_size f /\
  inode_blocks out (3 * BS + INODE_SIZE * k) =
  take (Z.to_nat (st_size f)) (f_data f) ++
  replicate (Z.to_nat ((st_size f + BS - 1) / BS * BS - st_size f)) 0.
Proof.
  intros Inv Hout Hs Hl.
  destruct (adder_step_conds _ _ _ _ _ _ _ _ _ _ _ _ _ Inv Hout)
    as (H1 & H2 & H3 & H4 & _).
  assert (E : need_blocks (u64 (st_size f)) = (st_size f + BS - 1) / BS)
    by (apply need_blocks_exact; side).
  split; [exact E|]. split; [apply u64_small; side|].
  rewrite <- E.
  eapply (adder_data_take _ _ _ _ _ _ _ _ Inv f path t_ino t_dir);
    eassumption.
Qed.

(** X10: when the adder succeeds on an image the two programs produced,
    for a regular file of at most 49152 bytes that holds at least the
    [st_size] bytes [stat] announced, the new inode records that size and
    reading the blocks of its direct pointers in order gives back the
    first [st_size] bytes of the file, followed by zeros up to the end of
    the last block. *)
Theorem add_file_content img f path t_ino t_dir out :
  reachable img ->
  0 <= st_size f <= DIRECT_MAX * BS -> st_size f <= len (f_data f) ->
  output (mkfs_adder img (Some f) path t_ino t_dir) = Some out ->
  let ino_a :=
    3 * BS +
    INODE_SIZE * new_ino_idx (mkfs_adder img (Some f) path t_ino t_dir) in
  let need := (st_size f + BS - 1) / BS in
  load out (ino_a + ino.size_bytes) 8 = st_size f /\
  len (inode_blocks out ino_a) = need * BS /\
  inode_blocks out ino_a =
    take (Z.to_nat (st_size f)) (f_data f) ++
    replicate (Z.to_nat (need * BS - st_size f)) 0.
Proof.
  intros Hr Hs Hl Hout ino_a need.
  destruct (reachable_inv _ Hr) as (tb & ic & itb & k & j & r & c & I).
  pose proof (step_added _ _ _ _ _ _ _ _ _ _ _ _ _ I Hout) as A.
  destruct (step_data _ _ _ _ _ _ _ _ _ _ _ _ _ I Hout Hs Hl)
    as (E1 & E2 & D).
  subst ino_a. rewrite (add_ino_idx _ _ _ _ _ _ _ _ _ _ A).
  fold need in D.
  split; [|split].
  - rewrite (add_size _ _ _ _ _ _ _ _ _ _ A). exact E2.
  - rewrite D. unfold len in *. rewrite length_app, length_take.
    rewrite length_replicate. subst need. side.
  - exact D.
Qed.

Lemma add_file_content_witness :
  let img := builder_image small_cli 0 0 in
  let f := file_of [104; 105] in
  exists out, output (mkfs_adder img (Some f) [97] 0 0) = Some out /\
  let ino_a :=
    3 * BS + INODE_SIZE * new_ino_idx (mkfs_adder img (Some f) [97] 0 0) in
  let need := (st_size f + BS - 1) / BS in
  load out (ino_a + ino.size_bytes) 8 = st_size f /\
  len (inode_blocks out ino_a) = need * BS /\
  inode_blocks out ino_a =
    take (Z.to_nat (st_size f)) (f_data f) ++
    replicate (Z.to_nat (need * BS - st_size f)) 0.
Proof.
  intros img f.
  pose proof small_image_inv as I. pose proof small_image_reachable as R.
  fold img in I, R. clearbody img. subst f.
  destruct (small_add_succeeds img I) as [out Hout].
  exists out. split; [exact Hout|].
  apply (add_file_content img (file_of [104; 105]) [97] 0 0 out R).
  - vm_compute. split; discriminate.
  - vm_compute. discriminate.
  - exact Hout.
Defined.

(** ** First fit in the data bitmap *)

Lemma take_seqZ a n k :
  0 <= k <= n -> take (Z.to_nat k) (seqZ a n) = seqZ a k.
Proof.
  intros Hk. replace n with (k + (n - k)) by lia.
  rewrite seqZ_app by lia.
  rewrite take_app_length'; [done|]. rewrite length_seqZ. lia.
Qed.

(** X11: a run of the adder that succeeds on an image the two programs
    produced allocates the first clear bits of the data bitmap, in
    ascending order: the file gets the first [need] of them, pointer by
    pointer, and when the root directory has to grow (its size was a
    multiple of 4096) the root gets the next one.  In the image written
    exactly those bits have been set in addition, and the pointers of the
    new inode past the [need]-th are null. *)
Theorem add_file_first_fit img f path t_ino t_dir out :
  reachable img ->
  output (mkfs_adder img (Some f) path t_ino t_dir) = Some out ->
  let res := mkfs_adder img (Some f) path t_ino t_dir in
  let drs := load img sb.data_region_start 8 in
  let drb := load img sb.data_region_blocks 8 in
  let need := need_blocks (u64 (st_size f)) in
  let grow := load img (3 * BS + ino.size_bytes) 8 mod BS =? 0 in
  let free := free_bits img (2 * BS) drb in
  db_idxs res = take (Z.to_nat need) free /\
  free_idx res = (if grow then free !! Z.to_nat need else None) /\
  (grow = true -> exists x, free_idx res = Some x /\
     direct_ptr out 0 (load img (3 * BS + ino.size_bytes) 8 / BS) = drs + x) /\
  (forall d, 0 <= d < DIRECT_MAX ->
     direct_ptr out (new_ino_idx res) d =
     match db_idxs res !! Z.to_nat d with
     | Some x => drs + x
     | None => 0
     end) /\
  (forall b, 0 <= b < drb ->
     test_bit out (2 * BS) b = 1 <->
     test_bit img (2 * BS) b = 1 \/ b ∈ allocated_blocks res).
Proof.
  intros Hr Hout res drs drb need grow free.
  destruct (reachable_sound _ Hr) as (tb & ic & itb & k & j & r & c & S).
  pose proof (snd_inv _ _ _ _ _ _ _ _ S) as I.
  pose proof (step_added _ _ _ _ _ _ _ _ _ _ _ _ _ I Hout) as A.
  pose proof (add_inv _ _ _ _ _ _ _ _ _ _ A) as I'.
  destruct (adder_step_conds _ _ _ _ _ _ _ _ _ _ _ _ _ I Hout)
    as (H1 & H2 & H3 & H4 & H5).
  pose proof (inv_bounds _ _ _ _ _ _ _ _ I) as B.
  pose proof (inv_count _ _ _ _ _ _ _ _ I) as Hcount.
  pose proof (snd_ic _ _ _ _ _ _ _ _ S) as Hic.
  fold need in H2, H4, H5, A, I'.
  assert (N : 0 <= need) by apply need_blocks_nonneg.
  assert (Efree : free = seqZ j (tb - (3 + itb) - j)).
  { unfold free, drb. rewrite (inv_data_region_blocks _ _ _ _ _ _ _ _ I).
    apply free_bits_prefix; [apply (inv_dbits _ _ _ _ _ _ _ _ I)|lia]. }
  assert (Egrow : grow = negb (c <? 64)).
  { unfold grow. rewrite (inv_size _ _ _ _ _ _ _ _ I).
    destruct (Z.eqb_spec (DIRENT_SIZE * (k + 1) mod BS) 0),
      (Z.ltb_spec c 64); try done; exfalso; side. }
  assert (Edb : db_idxs res = seqZ j need)
    by apply (add_db_idxs _ _ _ _ _ _ _ _ _ _ A).
  assert (Efi : free_idx res = if c <? 64 then None else Some (j + need))
    by apply (add_free_idx _ _ _ _ _ _ _ _ _ _ A).
  assert (Ek : new_ino_idx res = k)
    by apply (add_ino_idx _ _ _ _ _ _ _ _ _ _ A).
  subst drs drb.
  rewrite (inv_data_region_start _ _ _ _ _ _ _ _ I),
    (inv_data_region_blocks _ _ _ _ _ _ _ _ I).
  rewrite Edb, Efi, Ek, Efree, Egrow.
  split; [by rewrite take_seqZ by lia|]. split.
  { destruct (Z.ltb_spec c 64); cbn [negb]; [done|].
    destruct H5 as [|[_ ?]]; [lia|].
    rewrite lookup_seqZ_lt by lia. f_equal. lia. }
  split.
  { intros G. destruct (Z.ltb_spec c 64); [done|].
    exists (j + need). split; [done|].
    rewrite (inv_size _ _ _ _ _ _ _ _ I).
    replace (DIRENT_SIZE * (k + 1) / BS) with r by side.
    rewrite (step_root_direct _ _ _ _ _ _ _ _ _ _ _ _ _ I Hout)
      by (destruct H5; side).
    fold need. destruct (decide _) as [|Hn]; [lia|]. exfalso. apply Hn. lia. }
  split.
  { intros d Hd.
    pose proof (add_direct _ _ _ _ _ _ _ _ _ _ A d Hd) as X.
    fold need in X. unfold direct_ptr. rewrite X.
    destruct (Z.ltb_spec d need).
    - rewrite lookup_seqZ_lt by lia. lia.
    - rewrite lookup_seqZ_ge by lia. done. }
  intros b Hb.
  rewrite (inv_dbits _ _ _ _ _ _ _ _ I') by lia.
  rewrite (inv_dbits _ _ _ _ _ _ _ _ I) by lia.
  unfold allocated_blocks. rewrite Edb, Efi.
  rewrite elem_of_app, elem_of_seqZ.
  destruct (Z.ltb_spec c 64).
  - rewrite elem_of_nil.
    destruct (Z.ltb_spec b (j + need + 0)), (Z.ltb_spec b j);
      split; try done; try lia; intros [|[|]]; try done; lia.
  - rewrite list_elem_of_singleton.
    destruct (Z.ltb_spec b (j + need + 1)), (Z.ltb_spec b j);
      split; try done; try lia; intros [|[|]]; try done; lia.
Qed.

Lemma add_file_first_fit_witness :
  let img := builder_image small_cli 0 0 in
  let f := file_of [104; 105] in
  exists out, output (mkfs_adder img (Some f) [97] 0 0) = Some out /\
  let res := mkfs_adder img (Some f) [97] 0 0 in
  let drs := load img sb.data_region_start 8 in
  let drb := load img sb.data_region_blocks 8 in
  let need := need_blocks (u64 (st_size f)) in
  let grow := load img (3 * BS + ino.size_bytes) 8 mod BS =? 0 in
  let free := free_bits img (2 * BS) drb in
  db_idxs res = take (Z.to_nat need) free /\
  free_idx res = (if grow then free !! Z.to_nat need else None) /\
  (grow = true -> exists x, free_idx res = Some x /\
     direct_ptr out 0 (load img (3 * BS + ino.size_bytes) 8 / BS) = drs + x) /\
  (forall d, 0 <= d < DIRECT_MAX ->
     direct_ptr out (new_ino_idx res) d =
     match db_idxs res !! Z.to_nat d with
     | Some x => drs + x
     | None => 0
     end) /\
  (forall b, 0 <= b < drb ->
     test_bit out (2 * BS) b = 1 <->
     test_bit img (2 * BS) b = 1 \/ b ∈ allocated_blocks res).
Proof.
  intros img f.
  pose proof small_image_inv as I. pose proof small_image_reachable as R.
  fold img in I, R. clearbody img. subst f.
  destruct (small_add_succeeds img I) as [out Hout].
  exists out. split; [exact Hout|].
  exact (add_file_first_fit img (file_of [104; 105]) [97] 0 0 out R Hout).
Defined.

(** ** Sequences of runs *)

Lemma run_step m tb ic itb k j r c a out :
  image_sound m tb ic itb k j r c ->
  output (run_adder m a) = Some out ->
  exists f, a_src a = Some f /\
    added out (run_adder m a) tb ic itb k j r c (u64 (st_size f)) /\
    image_sound out tb ic itb (k + 1)
      (j + need_blocks (u64 (st_size f)) + (if c <? 64 then 0 else 1))
      (if c <? 64 then r else r + 1) (if c <? 64 then c + 1 else 1) /\
    output (mkfs_adder m (Some f) (a_path a) (a_t_ino a) (a_t_dir a)) =
      Some out /\
    new_ino_idx (mkfs_adder m (Some f) (a_path a) (a_t_ino a) (a_t_dir a)) =
      new_ino_idx (run_adder m a).
Proof.
  intros S Hout. pose proof (snd_inv _ _ _ _ _ _ _ _ S) as I.
  unfold run_adder in *.
  destruct (adder_step _ _ _ _ _ _ _ _ _ _ _ _ _ I Hout) as (f & E & A).
  exists f. split; [done|]. split; [done|].
  rewrite E in *. split; [by eapply sound_step|]. done.
Qed.

Lemma allocation_from m tb ic itb k j r c calls :
  image_sound m tb ic itb k j r c ->
  let rs := filter (fun res => succeeded res = true)
              (outcomes run_adder m calls) in
  map new_ino_idx rs = seqZ k (Z.of_nat (length rs)) /\
  concat (map allocated_blocks rs) =
    seqZ j (len (concat (map allocated_blocks rs))).
Proof.
  revert m k j r c. induction calls as [|a calls IH]; intros m k j r c S.
  { cbn. by rewrite !seqZ_nil by done. }
  cbn [outcomes]. cbv zeta. rewrite filter_cons.
  destruct (decide (succeeded (run_adder m a) = true)) as [Hs|Hs].
  - apply succeeded_output in Hs as [out Hout].
    rewrite (image_after_output _ _ _ Hout).
    destruct (run_step _ _ _ _ _ _ _ _ _ _ S Hout) as (f & _ & A & S' & _).
    specialize (IH _ _ _ _ _ S'). cbv zeta in IH. destruct IH as [IH1 IH2].
    set (rs := filter _ (outcomes run_adder out calls)) in *.
    set (need := need_blocks (u64 (st_size f))) in *.
    assert (N : 0 <= need) by apply need_blocks_nonneg.
    cbn [map concat]. split.
    + rewrite IH1. rewrite (add_ino_idx _ _ _ _ _ _ _ _ _ _ A).
      cbn [length]. rewrite (seqZ_cons k) by lia. f_equal. f_equal; lia.
    + unfold allocated_blocks at 1 3.
      rewrite (add_db_idxs _ _ _ _ _ _ _ _ _ _ A),
        (add_free_idx _ _ _ _ _ _ _ _ _ _ A). fold need.
      set (rest := concat (map allocated_blocks rs)) in *.
      pose proof (len_nonneg rest).
      set (n1 := need + (if c <? 64 then 0 else 1)).
      assert (Hn1 : 0 <= n1) by (unfold n1; destruct (c <? 64); lia).
      assert (E : seqZ j need ++
                  match (if c <? 64 then None else Some (j + need)) with
                  | Some x => [x] | None => [] end = seqZ j n1).
      { unfold n1. destruct (c <? 64).
        - by rewrite app_nil_r, Z.add_0_r.
        - rewrite seqZ_app by lia. done. }
      rewrite E.
      assert (L : len (seqZ j n1 ++ rest) = n1 + len rest).
      { unfold len. rewrite length_app, length_seqZ. lia. }
      rewrite L. rewrite seqZ_app by lia. f_equal.
      replace (j + n1) with (j + need + (if c <? 64 then 0 else 1))
        by (unfold n1; lia).
      exact IH2.
  - apply not_true_is_false in Hs. rewrite (image_after_failed _ _ Hs).
    apply (IH _ _ _ _ _ S).
Qed.

(** X12: starting from a freshly built image, whatever files a sequence
    of runs of the adder is asked to add, the runs that succeed receive
    the inode indices 1, 2, 3, ... in that order, with no gap and no
    reuse, and the data blocks they mark (each file's blocks, then the
    block the root directory grew by, if any) are the data-region indices
    1, 2, 3, ... in that order. *)
Theorem add_files_allocation c t_sb t_root img calls :
  mkfs_builder c t_sb t_root = (0, Some img) ->
  let rs := filter (fun res => succeeded res = true) (add_files img calls) in
  map new_ino_idx rs = seqZ 1 (Z.of_nat (length rs)) /\
  concat (map allocated_blocks rs) =
    seqZ 1 (len (concat (map allocated_blocks rs))).
Proof.
  intros H. apply mkfs_builder_some in H as [Hok ->].
  eapply allocation_from. by apply builder_sound.
Qed.

Lemma add_files_allocation_witness :
  let img := builder_image small_cli 0 0 in
  let calls := [call_of [104; 105] [97]; call_of [] [98]] in
  let rs := filter (fun res => succeeded res = true) (add_files img calls) in
  map new_ino_idx rs = seqZ 1 (Z.of_nat (length rs)) /\
  concat (map allocated_blocks rs) =
    seqZ 1 (len (concat (map allocated_blocks rs))).
Proof.
  intros img calls.
  apply (add_files_allocation small_cli 0 0 img calls).
  exact small_image_built.
Defined.

Lemma load_in_bytes_inode m a off n :
  0 <= a -> 0 <= off -> off + Z.of_nat n <= INODE_SIZE ->
  load m (a + off) n = load (bytes m a INODE_SIZE) off n.
Proof. intros. by rewrite load_in_bytes by lia. Qed.

Lemma final_image_cons m a calls :
  final_image m (a :: calls) =
  final_image (image_after m (run_adder m a)) calls.
Proof. reflexivity. Qed.

(** Later runs leave the inodes, the blocks and the directory entries of
    the files that are there alone. *)
Lemma final_keeps calls :
  forall m tb ic itb k j r c,
  image_sound m tb ic itb k j r c ->
  (forall i, 1 <= i < k ->
     bytes (final_image m calls) (3 * BS + INODE_SIZE * i) INODE_SIZE =
     bytes m (3 * BS + INODE_SIZE * i) INODE_SIZE /\
     inode_blocks (final_image m calls) (3 * BS + INODE_SIZE * i) =
     inode_blocks m (3 * BS + INODE_SIZE * i)) /\
  (forall d s, 0 <= d < r -> 0 <= s < 64 -> 64 * d + s <= k ->
     bytes (final_image m calls) (root_slot (final_image m calls) d s)
       DIRENT_SIZE =
     bytes m (root_slot m d s) DIRENT_SIZE).
Proof.
  induction calls as [|a calls IH]; intros m tb ic itb k j r c S; [done|].
  rewrite final_image_cons.
  destruct (succeeded (run_adder m a)) eqn:Hs.
  - apply succeeded_output in Hs as [out Hout].
    rewrite (image_after_output _ _ _ Hout).
    destruct (run_step _ _ _ _ _ _ _ _ _ _ S Hout)
      as (f & _ & _ & S' & Hout' & _).
    destruct (sound_step_keeps _ _ _ _ _ _ _ _ _ _ _ _ _ S Hout')
      as (_ & K1 & K2).
    destruct (IH _ _ _ _ _ _ _ _ S') as [J1 J2].
    pose proof (inv_r _ _ _ _ _ _ _ _ (snd_inv _ _ _ _ _ _ _ _ S)).
    split.
    + intros i Hi. destruct (J1 i ltac:(lia)) as [-> ->]. by apply K1.
    + intros d s Hd Hs Ht. rewrite J2; [by apply K2| |done|lia].
      destruct (c <? 64); lia.
  - rewrite (image_after_failed _ _ Hs). by eapply IH.
Qed.

Lemma content_from calls :
  forall m tb ic itb k j r c t a res f,
  image_sound m tb ic itb k j r c ->
  calls !! t = Some a -> outcomes run_adder m calls !! t = Some res ->
  succeeded res = true -> a_src a = Some f ->
  0 <= st_size f <= DIRECT_MAX * BS -> st_size f <= len (f_data f) ->
  let final := final_image m calls in
  let i := new_ino_idx res in
  k <= i /\
  load final (3 * BS + INODE_SIZE * i + ino.size_bytes) 8 = st_size f /\
  inode_blocks final (3 * BS + INODE_SIZE * i) =
    take (Z.to_nat (st_size f)) (f_data f) ++
    replicate (Z.to_nat ((st_size f + BS - 1) / BS * BS - st_size f)) 0 /\
  bytes final (root_slot final ((i + 1) / 64) ((i + 1) mod 64)) DIRENT_SIZE =
    adder_dirent (i + 1) (a_path a).
Proof.
  induction calls as [|a0 calls IH];
    intros m tb ic itb k j r c t a res f S Ha Hres Hs Hsrc Hsz Hlen;
    [done|].
  rewrite final_image_cons. cbn [outcomes] in Hres. cbv zeta in Hres.
  destruct t as [|t].
  - cbn in Ha, Hres. injection Ha as ->. injection Hres as <-.
    apply succeeded_output in Hs as [out Hout].
    rewrite (image_after_output _ _ _ Hout).
    destruct (run_step _ _ _ _ _ _ _ _ _ _ S Hout)
      as (f' & Hsrc' & A & S' & Hout' & Eidx).
    assert (f' = f) as -> by congruence.
    pose proof (snd_inv _ _ _ _ _ _ _ _ S) as I.
    pose proof (inv_bounds _ _ _ _ _ _ _ _ I) as B.
    pose proof (inv_count _ _ _ _ _ _ _ _ I) as Hcount.
    rewrite (add_ino_idx _ _ _ _ _ _ _ _ _ _ A).
    destruct (step_data _ _ _ _ _ _ _ _ _ _ _ _ _ I Hout' Hsz Hlen)
      as (E1 & E2 & D).
    pose proof (step_dirent_new _ _ _ _ _ _ _ _ _ _ _ _ _ I Hout') as Dn.
    destruct (final_keeps calls _ _ _ _ _ _ _ _ S') as [J1 J2].
    destruct (J1 k ltac:(lia)) as [Jb Jd].
    split; [lia|]. split; [|split].
    + rewrite (load_in_bytes_inode (final_image out calls)) by side.
      rewrite Jb. rewrite <- load_in_bytes_inode by side.
      rewrite (add_size _ _ _ _ _ _ _ _ _ _ A). exact E2.
    + rewrite Jd. exact D.
    + replace ((k + 1) / 64) with (if c <? 64 then r - 1 else r)
        by (destruct (Z.ltb_spec c 64); lia).
      replace ((k + 1) mod 64) with (if c <? 64 then c else 0)
        by (destruct (Z.ltb_spec c 64); lia).
      rewrite J2; [exact Dn|..]; destruct (Z.ltb_spec c 64); lia.
  - cbn in Ha, Hres.
    destruct (succeeded (run_adder m a0)) eqn:Hs0.
    + apply succeeded_output in Hs0 as [out Hout].
      rewrite (image_after_output _ _ _ Hout) in *.
      destruct (run_step _ _ _ _ _ _ _ _ _ _ S Hout)
        as (f0 & _ & _ & S' & _ & _).
      destruct (IH _ _ _ _ _ _ _ _ _ _ _ _ S' Ha Hres Hs Hsrc Hsz Hlen)
        as (Q1 & Q2).
      split; [lia|exact Q2].
    + rewrite (image_after_failed _ _ Hs0) in *.
      apply (IH _ _ _ _ _ _ _ _ _ _ _ _ S Ha Hres Hs Hsrc Hsz Hlen).
Qed.

(** X13: files survive the runs that follow.  Starting from a freshly
    built image and after any sequence of runs of the adder, for every run
    of the sequence that succeeded in adding a regular file of at most
    49152 bytes (holding at least the bytes [stat] announced), the final
    image still has, at the inode index that run allocated, the size of
    the file, behind its direct pointers the bytes of the file padded with
    zeros to a whole number of blocks, and in the root directory, at the
    entry of that inode number, the entry the run built for the file. *)
Theorem add_files_content c t_sb t_root img calls t a res f :
  mkfs_builder c t_sb t_root = (0, Some img) ->
  calls !! t = Some a -> add_files img calls !! t = Some res ->
  succeeded res = true -> a_src a = Some f ->
  0 <= st_size f <= DIRECT_MAX * BS -> st_size f <= len (f_data f) ->
  let final := final_image img calls in
  let i := new_ino_idx res in
  load final (3 * BS + INODE_SIZE * i + ino.size_bytes) 8 = st_size f /\
  inode_blocks final (3 * BS + INODE_SIZE * i) =
    take (Z.to_nat (st_size f)) (f_data f) ++
    replicate (Z.to_nat ((st_size f + BS - 1) / BS * BS - st_size f)) 0 /\
  bytes final (root_slot final ((i + 1) / 64) ((i + 1) mod 64)) DIRENT_SIZE =
    adder_dirent (i + 1) (a_path a).
Proof.
  intros H Ha Hres Hs Hsrc Hsz Hlen.
  apply mkfs_builder_some in H as [Hok ->].
  pose proof (builder_sound c t_sb t_root Hok) as S.
  destruct (content_from calls _ _ _ _ _ _ _ _ t a res f S Ha Hres Hs Hsrc
              Hsz Hlen) as (_ & Q).
  exact Q.
Qed.

Lemma add_files_content_witness :
  let img := builder_image small_cli 0 0 in
  let a := call_of [104; 105] [97] in
  let calls := [a; call_of [] [98]] in
  let final := final_image img calls in
  let i := new_ino_idx (run_adder img a) in
  load final (3 * BS + INODE_SIZE * i + ino.size_bytes) 8 = 2 /\
  inode_blocks final (3 * BS + INODE_SIZE * i) =
    take (Z.to_nat 2) [104; 105] ++
    replicate (Z.to_nat ((2 + BS - 1) / BS * BS - 2)) 0 /\
  bytes final (root_slot final ((i + 1) / 64) ((i + 1) mod 64)) DIRENT_SIZE =
    adder_dirent (i + 1) [97].
Proof.
  intros img a calls.
  pose proof small_image_inv as I. pose proof small_image_built as Hb.
  fold img in I, Hb. clearbody img.
  destruct (small_add_output img I) as [out Hout]. fold a in Hout.
  apply (add_files_content small_cli 0 0 img calls 0 a (run_adder img a)
           (file_of [104; 105]) Hb).
  - reflexivity.
  - reflexivity.
  - apply succeeded_output. by exists out.
  - reflexivity.
  - vm_compute. split; discriminate.
  - vm_compute. discriminate.
Defined.

(** ** The name of a new entry *)

Lemma base_name_split path :
  exists dir, path = dir ++ base_name path /\ (47 ∉ base_name path) /\
    (dir = [] \/ exists d, dir = d ++ [47]).
Proof.
  induction path as [|ch rest IH].
  { exists []. split; [done|]. split; [apply not_elem_of_nil|by left]. }
  cbn [base_name].
  destruct (existsb (Z.eqb 47) rest) eqn:E.
  - destruct IH as (dir & Hp & Hn & Hd).
    apply existsb_exists in E as (x & Hx & Hx47).
    apply Z.eqb_eq in Hx47. subst x. apply list_elem_of_In in Hx.
    destruct Hd as [-> | (d & ->)].
    + exfalso. apply Hn. by rewrite Hp in Hx.
    + exists ((ch :: d) ++ [47]). split; [|split; [done|]].
      * cbn [app]. f_equal. exact Hp.
      * right. by exists (ch :: d).
  - assert (Hr : 47 ∉ rest).
    { intros Hin. apply list_elem_of_In in Hin.
      assert (existsb (Z.eqb 47) rest = true) as X; [|congruence].
      apply existsb_exists. exists 47. split; [done|]. apply Z.eqb_refl. }
    destruct (Z.eqb_spec ch 47) as [->|Hne].
    + exists [47]. split; [done|]. split; [done|]. right. by exists [].
    + exists []. split; [done|]. split; [|by left].
      intros Hin. apply elem_of_cons in Hin as [?|?]; [congruence|done].
Qed.

Lemma strlen_len s : Forall (fun b => 1 <= b <= 255) s -> strlen s = len s.
Proof.
  induction 1 as [|b s Hb _ IH]; [done|].
  cbn [strlen]. destruct (Z.eqb_spec b 0); [lia|].
  rewrite IH, len_cons. done.
Qed.

Lemma print_str_padded n s k :
  Forall (fun b => 1 <= b <= 255) s -> (length s <= n)%nat ->
  print_str n (s ++ replicate k 0) = s.
Proof.
  intros H. revert n. induction H as [|b s Hb _ IH]; intros n Hn.
  - cbn [app]. destruct n, k; done.
  - destruct n as [|n]; [cbn [length] in Hn; lia|].
    cbn [app print_str]. destruct (Z.eqb_spec b 0); [lia|].
    f_equal. apply IH. cbn [length] in Hn. lia.
Qed.

Lemma bytes_memcpy_head m a n d :
  0 <= a -> a + n <= len m -> len d <= n ->
  bytes (memcpy m a d) a n = d ++ bytes m (a + len d) (n - len d).
Proof.
  intros Ha Hfit Hd. pose proof (len_nonneg d).
  apply list_eq. intros i.
  destruct (decide (Z.of_nat i < n)) as [Hi|Hi].
  - rewrite lookup_bytes by lia.
    destruct (decide (Z.of_nat i < len d)) as [Hid|Hid].
    + rewrite lookup_memcpy_in by lia.
      rewrite lookup_app_l by (unfold len in *; lia). f_equal. lia.
    + rewrite lookup_memcpy_ge by lia.
      rewrite lookup_app_r by (unfold len in *; lia).
      rewrite lookup_bytes by (unfold len in *; lia).
      f_equal. unfold len in *. lia.
  - unfold bytes at 1. rewrite lookup_take_ge by lia.
    symmetry. apply lookup_ge_None. rewrite length_app.
    unfold bytes, len in *. rewrite length_take, length_drop. lia.
Qed.

Lemma adder_dirent_name n path :
  Forall (fun b => 1 <= b <= 255) path ->
  bytes (adder_dirent n path) de.name 58 =
  take 58 (base_name path) ++
  replicate (58 - length (take 58 (base_name path))) 0.
Proof.
  intros Hp. unfold adder_dirent. cbv zeta.
  destruct (base_name_split path) as (dir & E & _).
  assert (Hb : Forall (fun b => 1 <= b <= 255) (base_name path)).
  { rewrite E in Hp. by apply Forall_app in Hp as [_ ?]. }
  rewrite (strlen_len _ Hb).
  set (base := base_name path) in *. clearbody base.
  set (namelen := Z.min (len base) 58).
  pose proof (len_nonneg base) as Hl.
  assert (En : bytes base 0 namelen = take 58 base).
  { unfold bytes. change (Z.to_nat 0) with 0%nat. rewrite drop_0.
    destruct (decide (len base <= 58)).
    - rewrite !take_ge by (unfold namelen, len in *; lia). done.
    - f_equal. unfold namelen. lia. }
  rewrite En. set (nm := take 58 base).
  assert (Hnm : len nm = namelen).
  { unfold nm, len, namelen. rewrite length_take. unfold len. lia. }
  assert (Hz : len (replicate 58 0) = 58) by done.
  assert (Ebuf : bytes (memcpy (replicate 58 0) 0 nm) 0 namelen = nm).
  { rewrite <- Hnm. apply bytes_memcpy_same; [lia|]. rewrite Hz. lia. }
  unfold new_dirent, dirent_checksum_finalize. cbv zeta.
  rewrite Ebuf.
  unfold store at 1. rewrite bytes_memcpy_disj by side.
  rewrite bytes_memcpy_head by (side; lia).
  f_equal. unfold store. peel_bytes.
  change (Z.to_nat DIRENT_SIZE) with (Z.to_nat 64).
  rewrite bytes_replicate by side.
  f_equal. unfold len in *. consts. lia.
Qed.

(** X14: the name the adder stores.  For a path of non-NUL bytes, the
    entry built for the new file holds the inode number, type 1, and as
    name the part of the path after its last '/' (the whole path when it
    has none), cut to 58 bytes and padded with zeros, so a name of 58
    bytes or more is stored with no terminating NUL; its last byte is the
    XOR of the 63 bytes before it. *)
Theorem add_file_name n path :
  0 <= n < 2 ^ 32 ->
  Forall (fun b => 1 <= b <= 255) path ->
  let e := adder_dirent n path in
  let name := take 58 (base_name path) in
  (exists dir, path = dir ++ base_name path /\
     (dir = [] \/ exists d, dir = d ++ [47])) /\
  (47 ∉ base_name path) /\
  len e = DIRENT_SIZE /\
  load e de.inode_no 4 = n /\
  load e de.type 1 = 1 /\
  bytes e de.name 58 = name ++ replicate (58 - length name) 0 /\
  load e de.checksum 1 = xor_bytes (bytes e 0 63).
Proof.
  intros Hn Hp e name.
  destruct (base_name_split path) as (dir & E & Hno & Hd).
  split; [by exists dir|]. split; [done|].
  unfold e, adder_dirent. cbv zeta.
  split; [apply len_new_dirent|].
  split; [rewrite new_dirent_inode_no; by apply u32_small|].
  split; [apply new_dirent_type|].
  split; [by apply adder_dirent_name|].
  unfold new_dirent. cbv zeta. apply dirent_checksum_finalize_ok. side.
Qed.

Lemma add_file_name_witness :
  let path := str "dir/sub/a.txt" in
  let e := adder_dirent 2 path in
  let name := take 58 (base_name path) in
  (exists dir, path = dir ++ base_name path /\
     (dir = [] \/ exists d, dir = d ++ [47])) /\
  (47 ∉ base_name path) /\
  len e = DIRENT_SIZE /\
  load e de.inode_no 4 = 2 /\
  load e de.type 1 = 1 /\
  bytes e de.name 58 = name ++ replicate (58 - length name) 0 /\
  load e de.checksum 1 = xor_bytes (bytes e 0 63).
Proof.
  apply (add_file_name 2 (str "dir/sub/a.txt")); [lia|].
  vm_compute. repeat constructor; discriminate.
Defined.

(** ** The lister on the images the programs produce *)

Lemma filter_seqZ_prefix (P : Z -> Prop) `{!forall x, Decision (P x)}
    (n : nat) i t :
  t <= i + Z.of_nat n ->
  (forall s, i <= s < i + Z.of_nat n -> P s <-> s < t) ->
  filter P (seqZ i (Z.of_nat n)) = seqZ i (t - i).
Proof.
  revert i. induction n as [|n IH]; intros i Ht HP.
  - rewrite (seqZ_nil i (t - i)) by lia. done.
  - rewrite seqZ_cons by lia.
    replace (Z.pred (Z.of_nat (S n))) with (Z.of_nat n) by lia.
    destruct (decide (i < t)) as [Hlt|Hge].
    + rewrite filter_cons_True by (apply HP; lia).
      rewrite (seqZ_cons i (t - i)) by lia. f_equal.
      rewrite IH; [f_equal; lia | lia | intros; apply HP; lia].
    + rewrite filter_cons_False by (rewrite HP; lia).
      rewrite IH; [| lia | intros; apply HP; lia].
      rewrite !seqZ_nil by lia. done.
Qed.

Lemma ls_entries_slots m blk (n : nat) i :
  0 <= blk -> 0 <= i -> blk + DIRENT_SIZE * (i + Z.of_nat n) <= len m ->
  ls_entries m (blk + DIRENT_SIZE * i) i n =
  map (entry_line m blk)
    (filter (fun s => load m (blk + DIRENT_SIZE * s) 4 <> 0)
       (seqZ i (Z.of_nat n))).
Proof.
  intros Hb. revert i. induction n as [|n IH]; intros i Hi Hfit; [done|].
  cbn [ls_entries]. unfold fread.
  rewrite len_bytes by side. rewrite Z.eqb_refl. cbn [negb].
  rewrite seqZ_cons by lia.
  replace (Z.pred (Z.of_nat (S n))) with (Z.of_nat n) by lia.
  replace (blk + DIRENT_SIZE * i + DIRENT_SIZE)
    with (blk + DIRENT_SIZE * (i + 1)) by lia.
  rewrite IH by lia.
  rewrite !load_in_bytes by side. rewrite bytes_bytes by side.
  change (blk + DIRENT_SIZE * i + de.inode_no)
    with (blk + DIRENT_SIZE * i + 0).
  rewrite Z.add_0_r.
  destruct (Z.eqb_spec (load m (blk + DIRENT_SIZE * i) 4) 0) as [E|E].
  - rewrite filter_cons_False by tauto. done.
  - rewrite filter_cons_True by done. cbn [map]. f_equal.
    unfold entry_line. cbv zeta.
    change (blk + DIRENT_SIZE * i + de.inode_no)
      with (blk + DIRENT_SIZE * i + 0).
    by rewrite Z.add_0_r.
Qed.

Lemma ls_sound m tb ic itb k j r c :
  image_sound m tb ic itb k j r c ->
  minivsfs_ls 2 (Some m) =
  (0, ls_header tb ic 3 (3 + itb) (3 + itb)
      :: ls_root (k + 1) (DIRENT_SIZE * (k + 1)) (direct_ptr m 0 0)
      :: map (entry_line m (BS * direct_ptr m 0 0))
           (seqZ 0 (Z.min (k + 1) 64))).
Proof.
  intros S. pose proof (snd_inv _ _ _ _ _ _ _ _ S) as I.
  destruct (sound_observe _ _ _ _ _ _ _ _ S)
    as (_ & _ & _ & _ & _ & _ & Hocc).
  pose proof (inv_len _ _ _ _ _ _ _ _ I) as L.
  pose proof (inv_geom _ _ _ _ _ _ _ _ I) as G.
  pose proof (inv_k _ _ _ _ _ _ _ _ I) as K.
  pose proof (inv_j _ _ _ _ _ _ _ _ I) as J.
  pose proof (inv_r _ _ _ _ _ _ _ _ I) as R.
  pose proof (inv_c _ _ _ _ _ _ _ _ I) as C.
  pose proof (inv_count _ _ _ _ _ _ _ _ I) as Hcount.
  pose proof (inv_direct_used _ _ _ _ _ _ _ _ I 0 ltac:(lia)) as P0.
  rewrite <- direct_ptr_root in P0.
  unfold minivsfs_ls, fread. cbv zeta.
  change (negb (2 =? 2)) with false. cbv iota.
  rewrite (len_bytes m 0 SB_SIZE) by side.
  rewrite Z.eqb_refl. cbn [negb].
  rewrite !(load_in_bytes m 0 SB_SIZE) by side.
  rewrite !Z.add_0_l.
  rewrite (inv_magic _ _ _ _ _ _ _ _ I), (inv_block_size _ _ _ _ _ _ _ _ I),
    (inv_total_blocks _ _ _ _ _ _ _ _ I), (inv_inode_count _ _ _ _ _ _ _ _ I),
    (inv_inode_table_start _ _ _ _ _ _ _ _ I),
    (inv_inode_table_blocks _ _ _ _ _ _ _ _ I),
    (inv_data_region_start _ _ _ _ _ _ _ _ I).
  rewrite !Z.eqb_refl. cbn [negb orb].
  change (to_long (u64 (3 * BS))) with (3 * BS).
  change (3 * BS <? 0) with false. cbv iota.
  rewrite (len_bytes m (3 * BS) INODE_SIZE) by side.
  rewrite Z.eqb_refl. cbn [negb].
  rewrite !(load_in_bytes m (3 * BS) INODE_SIZE) by side.
  rewrite (inv_links _ _ _ _ _ _ _ _ I), (inv_size _ _ _ _ _ _ _ _ I).
  rewrite <- direct_ptr_root.
  destruct (Z.eqb_spec (direct_ptr m 0 0) 0) as [E|_]; [exfalso; side|].
  rewrite (u32_small (direct_ptr m 0 0 * BS)) by side.
  destruct (Z.ltb_spec (direct_ptr m 0 0 * BS) 0) as [E|_]; [side|].
  rewrite (u64_small (3 + itb)) by side.
  do 3 f_equal.
  pose proof (ls_entries_slots m (BS * direct_ptr m 0 0) 64 0) as X.
  rewrite Z.mul_0_r, Z.add_0_r in X.
  rewrite (Z.mul_comm (direct_ptr m 0 0) BS).
  rewrite X by side. f_equal.
  rewrite (filter_seqZ_prefix _ 64 0 (Z.min (k + 1) 64)).
  - by rewrite Z.sub_0_r.
  - lia.
  - intros s Hs.
    destruct (decide (r = 1)) as [->|Hr].
    + destruct (decide (s < c)) as [Hsc|Hsc].
      * pose proof (proj2 (Hocc 0 s ltac:(lia) ltac:(lia)) ltac:(lia)) as Y.
        rewrite dirent_ino_slot in Y. unfold root_slot in Y. split; [lia|done].
      * pose proof (inv_last_free _ _ _ _ _ _ _ _ I s ltac:(lia)) as Y.
        change (1 - 1) with 0 in Y.
        rewrite dirent_ino_slot in Y. unfold root_slot in Y.
        split; [intros N; by destruct N|lia].
    + pose proof (proj2 (Hocc 0 s ltac:(lia) ltac:(lia)) ltac:(lia)) as Y.
      rewrite dirent_ino_slot in Y. unfold root_slot in Y. split; [lia|done].
Qed.

(** The first root directory block is, in every image, the first block of
    the data region, and its first two entries are those of the builder. *)
Lemma reachable_root0 img :
  reachable img ->
  exists tb ic itb k j r c,
    image_sound img tb ic itb k j r c /\
    direct_ptr img 0 0 = 3 + itb /\
    bytes img (root_slot img 0 0) DIRENT_SIZE = builder_dot /\
    bytes img (root_slot img 0 1) DIRENT_SIZE = builder_dotdot.
Proof.
  induction 1 as [c t_sb t_root img H | img a out _ IH Hout].
  - apply mkfs_builder_some in H as [Hok ->].
    pose proof (builder_sound c t_sb t_root Hok) as S.
    pose proof (builder_dot_bytes c t_sb t_root Hok) as D0.
    pose proof (builder_dotdot_bytes c t_sb t_root Hok) as D1.
    pose proof (snd_inv _ _ _ _ _ _ _ _ S) as I.
    set (B := builder_image c t_sb t_root) in *. clearbody B.
    assert (P0 : direct_ptr B 0 0 = 3 + inode_tbl_blks_of c).
    { rewrite direct_ptr_root.
      pose proof (inv_direct_used _ _ _ _ _ _ _ _ I 0 ltac:(lia)). lia. }
    do 7 eexists. split; [exact S|]. split; [exact P0|].
    unfold root_slot. rewrite P0. split.
    + rewrite Z.mul_0_r, Z.add_0_r. exact D0.
    + exact D1.
  - destruct IH as (tb & ic & itb & k & j & r & c & S & P0 & D0 & D1).
    pose proof (snd_inv _ _ _ _ _ _ _ _ S) as I.
    destruct (run_adder_output _ _ _ Hout _ _ _ _ _ _ _ I)
      as (f & _ & Hout').
    pose proof (inv_r _ _ _ _ _ _ _ _ I) as R.
    pose proof (inv_k _ _ _ _ _ _ _ _ I) as K.
    destruct (sound_step_keeps _ _ _ _ _ _ _ _ _ _ _ _ _ S Hout')
      as (_ & _ & Keep).
    do 7 eexists. split; [eapply sound_step; eassumption|].
    split.
    + rewrite (step_root_direct _ _ _ _ _ _ _ _ _ _ _ _ _ I Hout' 0)
        by side.
      destruct (decide _) as [[_ ?]|]; [lia|done].
    + split.
      * rewrite (Keep 0 0) by lia. exact D0.
      * rewrite (Keep 0 1) by lia. exact D1.
Qed.

(** X15: what the lister prints for an image the two programs produced.
    It exits with 0 after the geometry line (the inode table runs from
    block 3 to the start of the data region), the line of the root inode
    (its size is 64 bytes per link and its first block is the first block
    of the data region) and one line per entry of the first root directory
    block only: entry [s] for every [s] below the link count and below 64,
    so that files past the 62nd are not listed.  Entries 0 and 1 are "."
    and "..", of type 2 and inode number 1; entry [s >= 2] is of type 1
    and names inode number [s]. *)
Theorem ls_reachable img :
  reachable img ->
  let links := load img (3 * BS + ino.links) 2 in
  let drs := load img sb.data_region_start 8 in
  let name s :=
    print_str 58 (bytes img (root_slot img 0 s + de.name) 58) in
  minivsfs_ls 2 (Some img) =
    (0, ls_header (load img sb.total_blocks 8) (load img sb.inode_count 8)
          3 drs drs
        :: ls_root links (DIRENT_SIZE * links) drs
        :: map (fun s => ls_entry s (if s <? 2 then 1 else s)
                           (if s <? 2 then 2 else 1) (name s))
             (seqZ 0 (Z.min links 64))) /\
  name 0 = str "." /\ name 1 = str "..".
Proof.
  intros Hr links drs name.
  destruct (reachable_root0 _ Hr)
    as (tb & ic & itb & k & j & r & c & S & P0 & D0 & D1).
  pose proof (snd_inv _ _ _ _ _ _ _ _ S) as I.
  pose proof (inv_k _ _ _ _ _ _ _ _ I) as K.
  pose proof (inv_r _ _ _ _ _ _ _ _ I) as R.
  pose proof (inv_geom _ _ _ _ _ _ _ _ I) as G.
  pose proof (inv_len _ _ _ _ _ _ _ _ I) as L.
  pose proof (inv_j _ _ _ _ _ _ _ _ I) as J.
  pose proof (inv_direct_used _ _ _ _ _ _ _ _ I 0 ltac:(lia)) as U0.
  rewrite <- direct_ptr_root in U0.
  assert (Hname : forall s, 0 <= s < 64 ->
            bytes img (root_slot img 0 s + de.name) 58 =
            bytes (bytes img (root_slot img 0 s) DIRENT_SIZE) de.name 58).
  { intros s Hs. rewrite bytes_bytes; [done|unfold root_slot; side..]. }
  split; [|split].
  - rewrite (ls_sound _ _ _ _ _ _ _ _ S).
    subst links drs.
    rewrite (inv_links _ _ _ _ _ _ _ _ I), (inv_total_blocks _ _ _ _ _ _ _ _ I),
      (inv_inode_count _ _ _ _ _ _ _ _ I),
      (inv_data_region_start _ _ _ _ _ _ _ _ I), P0.
    do 3 f_equal.
    apply map_ext_in. intros s Hs.
    apply list_elem_of_In, elem_of_seqZ in Hs.
    unfold entry_line, name. cbv zeta.
    fold (direct_ptr img 0 0) in P0.
    assert (Es : BS * (3 + itb) + DIRENT_SIZE * s = root_slot img 0 s)
      by (unfold root_slot; by rewrite P0).
    rewrite Es. f_equal.
    + change (root_slot img 0 s + de.inode_no) with (root_slot img 0 s + 0).
      rewrite Z.add_0_r, <- dirent_ino_slot.
      destruct (Z.ltb_spec s 2).
      * assert (s = 0 \/ s = 1) as [-> | ->] by lia;
          [apply (inv_dot _ _ _ _ _ _ _ _ I)
          |apply (inv_dotdot _ _ _ _ _ _ _ _ I)].
      * apply (snd_entry _ _ _ _ _ _ _ _ S); lia.
    + rewrite (snd_type _ _ _ _ _ _ _ _ S 0 s) by lia.
      by rewrite Z.mul_0_r, Z.add_0_l.
  - unfold name. rewrite Hname by lia. rewrite D0. by vm_compute.
  - unfold name. rewrite Hname by lia. rewrite D1. by vm_compute.
Qed.

Lemma ls_reachable_witness :
  let img := builder_image small_cli 0 0 in
  let links := load img (3 * BS + ino.links) 2 in
  let drs := load img sb.data_region_start 8 in
  let name s :=
    print_str 58 (bytes img (root_slot img 0 s + de.name) 58) in
  minivsfs_ls 2 (Some img) =
    (0, ls_header (load img sb.total_blocks 8) (load img sb.inode_count 8)
          3 drs drs
        :: ls_root links (DIRENT_SIZE * links) drs
        :: map (fun s => ls_entry s (if s <? 2 then 1 else s)
                           (if s <? 2 then 2 else 1) (name s))
             (seqZ 0 (Z.min links 64))) /\
  name 0 = str "." /\ name 1 = str "..".
Proof.
  intros img. apply (ls_reachable img). exact small_image_reachable.
Defined.

Lemma entry_line_bytes m blk s :
  0 <= blk + DIRENT_SIZE * s ->
  entry_line m blk s =
  let e := bytes m (blk + DIRENT_SIZE * s) DIRENT_SIZE in
  ls_entry s (load e de.inode_no 4) (load e de.type 1)
    (print_str 58 (bytes e de.name 58)).
Proof.
  intros H. unfold entry_line. cbv zeta.
  rewrite !load_in_bytes by side. rewrite bytes_bytes by side. done.
Qed.

Lemma adder_dirent_line n path s :
  0 <= n < 2 ^ 32 ->
  Forall (fun b => 1 <= b <= 255) path ->
  let e := adder_dirent n path in
  ls_entry s (load e de.inode_no 4) (load e de.type 1)
    (print_str 58 (bytes e de.name 58)) =
  ls_entry s n 1 (take 58 (base_name path)).
Proof.
  intros Hn Hp e. subst e.
  rewrite (adder_dirent_name n path Hp).
  unfold adder_dirent. cbv zeta.
  rewrite new_dirent_inode_no, new_dirent_type, u32_small by done.
  f_equal. apply print_str_padded.
  - destruct (base_name_split path) as (dir & E & _).
    rewrite E in Hp. apply Forall_app in Hp as [_ Hb].
    by apply Forall_take.
  - rewrite length_take. lia.
Qed.

(** X16: an added file shows in the listing.  After a successful add of a
    file whose path has no NUL byte, on an image the two programs
    produced, the lister prints the same geometry line, a root line with
    one link and 64 bytes more, the same entry lines as before and, when
    the new inode index [i] is below 63, one more line: entry [i + 1],
    inode number [i + 1], type 1, named by the part of the path after its
    last '/' cut to 58 bytes.  From the 63rd file on the listing does not
    change. *)
Theorem add_then_ls img f path t_ino t_dir out :
  reachable img ->
  output (mkfs_adder img (Some f) path t_ino t_dir) = Some out ->
  Forall (fun b => 1 <= b <= 255) path ->
  let i := new_ino_idx (mkfs_adder img (Some f) path t_ino t_dir) in
  exists hdr first lines,
    minivsfs_ls 2 (Some img) =
      (0, hdr :: ls_root (i + 1) (DIRENT_SIZE * (i + 1)) first :: lines) /\
    minivsfs_ls 2 (Some out) =
      (0, hdr :: ls_root (i + 2) (DIRENT_SIZE * (i + 2)) first ::
          lines ++
          (if i + 1 <? 64
           then [ls_entry (i + 1) (i + 1) 1 (take 58 (base_name path))]
           else [])).
Proof.
  intros Hr Hout Hp i.
  destruct (reachable_sound _ Hr) as (tb & ic & itb & k & j & r & c & S).
  pose proof (snd_inv _ _ _ _ _ _ _ _ S) as I.
  pose proof (sound_step _ _ _ _ _ _ _ _ _ _ _ _ _ S Hout) as S'.
  pose proof (step_added _ _ _ _ _ _ _ _ _ _ _ _ _ I Hout) as A.
  pose proof (step_dirent_new _ _ _ _ _ _ _ _ _ _ _ _ _ I Hout) as New.
  pose proof (step_root_direct _ _ _ _ _ _ _ _ _ _ _ _ _ I Hout 0
                ltac:(side)) as P0.
  destruct (sound_step_keeps _ _ _ _ _ _ _ _ _ _ _ _ _ S Hout)
    as (_ & _ & Keep).
  pose proof (inv_k _ _ _ _ _ _ _ _ I) as K.
  pose proof (inv_r _ _ _ _ _ _ _ _ I) as R.
  pose proof (inv_c _ _ _ _ _ _ _ _ I) as C.
  pose proof (inv_geom _ _ _ _ _ _ _ _ I) as G.
  pose proof (snd_ic _ _ _ _ _ _ _ _ S) as Hic.
  pose proof (inv_count _ _ _ _ _ _ _ _ I) as Hcount.
  pose proof (inv_direct_used _ _ _ _ _ _ _ _ I 0 ltac:(lia)) as U0.
  rewrite <- direct_ptr_root in U0.
  destruct (decide _) as [[_ ?]|_] in P0; [lia|].
  subst i. rewrite (add_ino_idx _ _ _ _ _ _ _ _ _ _ A).
  clear A. set (res := mkfs_adder _ _ _ _ _) in *. clearbody res.
  rewrite (ls_sound _ _ _ _ _ _ _ _ S), (ls_sound _ _ _ _ _ _ _ _ S').
  rewrite P0.
  eexists _, _, _. split; [reflexivity|].
  replace (k + 1 + 1) with (k + 2) by lia.
  do 3 f_equal.
  assert (Old : forall s, 0 <= s < 64 -> s <= k ->
            entry_line out (BS * direct_ptr img 0 0) s =
            entry_line img (BS * direct_ptr img 0 0) s).
  { intros s Hs Hk.
    rewrite !entry_line_bytes by side. cbv zeta.
    pose proof (Keep 0 s ltac:(lia) ltac:(lia) ltac:(lia)) as E.
    unfold root_slot in E. rewrite P0 in E. by rewrite E. }
  destruct (Z.ltb_spec (k + 1) 64) as [Hlt|Hge].
  - assert (r = 1) as -> by lia. assert (c = k + 1) as -> by lia.
    destruct (Z.ltb_spec (k + 1) 64) as [_|?]; [|lia].
    change (1 - 1) with 0 in New.
    rewrite Z.min_l by lia. rewrite Z.min_l by lia.
    replace (k + 2) with ((k + 1) + 1) by lia.
    rewrite (seqZ_app 0 (k + 1) 1) by lia. rewrite map_app.
    f_equal.
    + apply map_ext_in. intros s Hs.
      apply list_elem_of_In, elem_of_seqZ in Hs. apply Old; lia.
    + rewrite Z.add_0_l. change (seqZ (k + 1) 1) with [k + 1].
      cbn [map]. f_equal.
      rewrite entry_line_bytes by side. cbv zeta.
      unfold root_slot in New. rewrite P0 in New. rewrite New.
      apply adder_dirent_line; [lia|done].
  - rewrite app_nil_r. rewrite !Z.min_r by lia.
    apply map_ext_in. intros s Hs.
    apply list_elem_of_In, elem_of_seqZ in Hs. apply Old; lia.
Qed.

Lemma small_add_path img path :
  image_inv img 45 128 4 1 1 1 2 ->
  exists out,
    output (mkfs_adder img (Some (file_of [104; 105])) path 0 0) = Some out.
Proof.
  intros I.
  apply (adder_succeeds_proper _ _ _ _ _ _ _ _ I (file_of [104; 105]) path 0 0).
  - change (need_blocks (u64 (st_size (file_of [104; 105])))) with 1. side.
  - lia.
  - change (need_blocks (u64 (st_size (file_of [104; 105])))) with 1. lia.
  - reflexivity.
  - reflexivity.
  - change (2 <= 49152). lia.
  - left. lia.
Qed.

Lemma add_then_ls_witness :
  let img := builder_image small_cli 0 0 in
  let f := file_of [104; 105] in
  let path := str "docs/hi.txt" in
  exists out, output (mkfs_adder img (Some f) path 0 0) = Some out /\
  let i := new_ino_idx (mkfs_adder img (Some f) path 0 0) in
  exists hdr first lines,
    minivsfs_ls 2 (Some img) =
      (0, hdr :: ls_root (i + 1) (DIRENT_SIZE * (i + 1)) first :: lines) /\
    minivsfs_ls 2 (Some out) =
      (0, hdr :: ls_root (i + 2) (DIRENT_SIZE * (i + 2)) first ::
          lines ++
          (if i + 1 <? 64
           then [ls_entry (i + 1) (i + 1) 1 (take 58 (base_name path))]
           else [])).
Proof.
  intros img f path.
  pose proof small_image_inv as I. pose proof small_image_reachable as R.
  fold img in I, R. clearbody img. subst f.
  destruct (small_add_path img path I) as [out Hout].
  exists out. split; [exact Hout|].
  apply (add_then_ls img (file_of [104; 105]) path 0 0 out R Hout).
  vm_compute. repeat constructor; discriminate.
Defined.

(** ** What the lister reads *)

Lemma ls_entries_ext f g (n : nat) pos i :
  0 <= pos ->
  (forall s, 0 <= s < Z.of_nat n ->
     bytes f (pos + DIRENT_SIZE * s) DIRENT_SIZE =
     bytes g (pos + DIRENT_SIZE * s) DIRENT_SIZE) ->
  ls_entries f pos i n = ls_entries g pos i n.
Proof.
  revert pos i. induction n as [|n IH]; intros pos i Hpos H; [done|].
  cbn [ls_entries]. unfold fread.
  pose proof (H 0 ltac:(lia)) as H0. rewrite Z.mul_0_r, Z.add_0_r in H0.
  rewrite H0.
  rewrite (IH (pos + DIRENT_SIZE) (i + 1)); [done|side|].
  intros s Hs. pose proof (H (s + 1) ltac:(lia)) as Hs1.
  replace (pos + DIRENT_SIZE * (s + 1))
    with (pos + DIRENT_SIZE + DIRENT_SIZE * s) in Hs1 by lia.
  exact Hs1.
Qed.

Lemma to_long_nonneg x :
  0 <= x < 2 ^ 64 -> ~ to_long x < 0 -> to_long x = x.
Proof.
  unfold to_long. intros H0 H. destruct (Z.ltb_spec x (2 ^ 63)); lia.
Qed.

Lemma ls_same f g :
  SB_SIZE <= len f -> SB_SIZE <= len g ->
  load f sb.magic 4 = load g sb.magic 4 ->
  load f sb.block_size 4 = load g sb.block_size 4 ->
  load f sb.total_blocks 8 = load g sb.total_blocks 8 ->
  load f sb.inode_count 8 = load g sb.inode_count 8 ->
  load f sb.inode_table_start 8 = load g sb.inode_table_start 8 ->
  load f sb.inode_table_blocks 8 = load g sb.inode_table_blocks 8 ->
  load f sb.data_region_start 8 = load g sb.data_region_start 8 ->
  let tbl := u64 (load f sb.inode_table_start 8 * BS) in
  bytes f tbl INODE_SIZE = bytes g tbl INODE_SIZE ->
  let blk := u32 (load f (tbl + ino.direct 0) 4 * BS) in
  bytes f blk BS = bytes g blk BS ->
  minivsfs_ls 2 (Some f) = minivsfs_ls 2 (Some g).
Proof.
  intros Lf Lg E1 E2 E3 E4 E5 E6 E7 tbl Hi blk Hb.
  assert (Ht : 0 <= tbl < 2 ^ 64) by (unfold tbl, u64; lia).
  assert (Hk : 0 <= blk) by (unfold blk, u32; lia).
  unfold minivsfs_ls, fread. cbv zeta.
  change (negb (2 =? 2)) with false. cbv iota.
  rewrite (len_bytes f 0 SB_SIZE), (len_bytes g 0 SB_SIZE) by side.
  rewrite Z.eqb_refl. cbn [negb].
  rewrite !(load_in_bytes f 0 SB_SIZE), !(load_in_bytes g 0 SB_SIZE) by side.
  rewrite !Z.add_0_l.
  rewrite <- E1, <- E2, <- E3, <- E4, <- E5, <- E6, <- E7.
  destruct (negb _ || negb _); [done|].
  fold tbl.
  destruct (Z.ltb_spec (to_long tbl) 0) as [|Hge]; [done|].
  rewrite (to_long_nonneg tbl) by lia.
  rewrite <- Hi.
  destruct (negb _); [done|].
  rewrite !(load_in_bytes f tbl INODE_SIZE) by side.
  destruct (_ =? 0); [done|].
  fold blk.
  destruct (blk <? 0); [done|].
  rewrite (ls_entries_ext f g 64 blk 0); [reflexivity|exact Hk|].
  intros s Hs.
  pose proof (bytes_bytes f blk BS (DIRENT_SIZE * s) DIRENT_SIZE) as X.
  pose proof (bytes_bytes g blk BS (DIRENT_SIZE * s) DIRENT_SIZE) as Y.
  rewrite <- X, <- Y by side. by rewrite Hb.
Qed.

(** X17: what the lister depends on.  Two files of at least 116 bytes give
    the same exit code and the same lines as soon as they agree on seven
    superblock fields (magic, block size, total blocks, inode count, start
    and size of the inode table, start of the data region), on the 128
    bytes at byte offset [inode_table_start * 4096] (computed in 64 bits)
    and on the 4096 bytes at byte offset [direct[0] * 4096] (computed in
    32 bits) of that inode.  The version, the checksums, the bitmaps, the
    other inodes, the other directory blocks and the length of the file
    play no part. *)
Theorem ls_reads_only f g :
  SB_SIZE <= len f -> SB_SIZE <= len g ->
  load f sb.magic 4 = load g sb.magic 4 ->
  load f sb.block_size 4 = load g sb.block_size 4 ->
  load f sb.total_blocks 8 = load g sb.total_blocks 8 ->
  load f sb.inode_count 8 = load g sb.inode_count 8 ->
  load f sb.inode_table_start 8 = load g sb.inode_table_start 8 ->
  load f sb.inode_table_blocks 8 = load g sb.inode_table_blocks 8 ->
  load f sb.data_region_start 8 = load g sb.data_region_start 8 ->
  let tbl := u64 (load f sb.inode_table_start 8 * BS) in
  bytes f tbl INODE_SIZE = bytes g tbl INODE_SIZE ->
  let blk := u32 (load f (tbl + ino.direct 0) 4 * BS) in
  bytes f blk BS = bytes g blk BS ->
  minivsfs_ls 2 (Some f) = minivsfs_ls 2 (Some g).
Proof. exact (ls_same f g). Qed.

Lemma ls_reads_only_witness :
  let f :=
    store (store (store (store (store (replicate 4300 0) sb.magic 4 MAGIC)
                           sb.block_size 4 BS) sb.inode_table_start 8 1)
             (BS + ino.links) 2 3) (BS + ino.direct 0) 4 1 in
  let g := store (store f sb.version 4 7) 200 1 9 in
  minivsfs_ls 2 (Some f) = minivsfs_ls 2 (Some g).
Proof.
  intros f g.
  apply (ls_reads_only f g); vm_compute;
    first [reflexivity | intros H; discriminate H].
Defined.

(** ** Command lines *)

Lemma pairs_ind (P : list (list Z) -> Prop) :
  P [] -> (forall a, P [a]) ->
  (forall a v rest, P rest -> P (a :: v :: rest)) ->
  forall l, P l.
Proof.
  intros H0 H1 H2 l.
  assert (H : P l /\ forall a, P (a :: l)); [|by destruct H].
  induction l as [|b l [IH1 IH2]]; [by split|].
  split; [apply IH2|]. intros a. by apply H2.
Qed.

(** The words of a command line made of (flag, value) pairs. *)
Lemma flat_cons (p : list Z * list Z) pairs :
  concat (map (fun p => [p.1; p.2]) (p :: pairs)) =
  p.1 :: p.2 :: concat (map (fun p => [p.1; p.2]) pairs).
Proof. reflexivity. Qed.


Lemma last_value_cons_ne flag a v (pairs : list (list Z * list Z)) :
  a <> flag ->
  last (map snd (filter (fun p => p.1 = flag) ((a, v) :: pairs))) =
  last (map snd (filter (fun p => p.1 = flag) pairs)).
Proof. intros H. by rewrite filter_cons_False by done. Qed.

Lemma streq_true a b : streq a b = true <-> a = b.
Proof. unfold streq. apply bool_decide_eq_true. Qed.




Lemma builder_cli_ok_iff c :
  builder_cli_ok c = true <->
  180 <= size_kib c <= 4096 /\ size_kib c mod 4 = 0 /\
  128 <= inodes c <= 512.
Proof.
  split; [apply cli_bounds|]. intros (H1 & H2 & H3).
  unfold builder_cli_ok.
  destruct (Z.ltb_spec (size_kib c) 180); [lia|].
  destruct (Z.ltb_spec 4096 (size_kib c)); [lia|].
  destruct (Z.eqb_spec (size_kib c mod 4) 0); [|lia].
  destruct (Z.ltb_spec (inodes c) 128); [lia|].
  destruct (Z.ltb_spec 512 (inodes c)); [lia|]. done.
Qed.

Lemma mkfs_builder_not_ok c t_sb t_root :
  builder_cli_ok c = false -> mkfs_builder c t_sb t_root = (2, None).
Proof. intros H. unfold mkfs_builder. by rewrite H. Qed.

Section BuilderMain.
Variable strtoul : list Z -> Z.

Lemma builder_parse_args_pairs pairs c :
  Forall (fun p => p.1 ∈ [str "--image"; str "--size-kib"; str "--inodes"])
    pairs ->
  let value flag := last (map snd (filter (fun p => p.1 = flag) pairs)) in
  builder_parse_args strtoul (concat (map (fun p => [p.1; p.2]) pairs)) c =
  Some {| image := match value (str "--image") with
                   | Some x => Some x | None => image c end;
          numbers :=
            {| size_kib := match value (str "--size-kib") with
                           | Some x => u32 (strtoul x)
                           | None => size_kib (numbers c) end;
               inodes := match value (str "--inodes") with
                         | Some x => u32 (strtoul x)
                         | None => inodes (numbers c) end |} |}.
Proof.
  intros H. revert c. induction H as [|[a v] pairs Ha _ IH]; intros c.
  - cbn. by destruct c as [? []].
  - cbv zeta in *. rewrite flat_cons. cbn [fst snd builder_parse_args].
    cbn [fst] in Ha.
    apply elem_of_cons in Ha as [->|Ha];
      [|apply elem_of_cons in Ha as [->|Ha];
        [|apply list_elem_of_singleton in Ha as ->]].
    + change (streq (str "--image") (str "--image")) with true. cbv iota.
      rewrite IH. cbn [image numbers size_kib inodes].
      rewrite filter_cons_True by done. cbn [map snd]. rewrite last_cons.
      rewrite !(last_value_cons_ne _ (str "--image")) by (by vm_compute).
      by destruct (last _).
    + change (streq (str "--size-kib") (str "--image")) with false.
      change (streq (str "--size-kib") (str "--size-kib")) with true.
      cbv iota.
      rewrite IH. cbn [image numbers size_kib inodes].
      rewrite (filter_cons_True (fun p => p.1 = str "--size-kib")) by done.
      cbn [map snd]. rewrite last_cons.
      rewrite !(last_value_cons_ne _ (str "--size-kib")) by (by vm_compute).
      by destruct (last (map snd (filter (fun p => p.1 = str "--size-kib") _))).
    + change (streq (str "--inodes") (str "--image")) with false.
      change (streq (str "--inodes") (str "--size-kib")) with false.
      change (streq (str "--inodes") (str "--inodes")) with true.
      cbv iota.
      rewrite IH. cbn [image numbers size_kib inodes].
      rewrite (filter_cons_True (fun p => p.1 = str "--inodes")) by done.
      cbn [map snd]. rewrite last_cons.
      rewrite !(last_value_cons_ne _ (str "--inodes")) by (by vm_compute).
      by destruct (last (map snd (filter (fun p => p.1 = str "--inodes") _))).
Qed.

Lemma builder_parse_args_shape args :
  forall c c', builder_parse_args strtoul args c = Some c' ->
  exists pairs,
    args = concat (map (fun p => [p.1; p.2]) pairs) /\
    Forall (fun p => p.1 ∈ [str "--image"; str "--size-kib"; str "--inodes"])
      pairs.
Proof.
  induction args as [|a|a v rest IH] using pairs_ind; intros c c' H.
  - exists []. by split.
  - discriminate H.
  - cbn [builder_parse_args] in H.
    destruct (streq a (str "--image")) eqn:E1;
      [|destruct (streq a (str "--size-kib")) eqn:E2;
        [|destruct (streq a (str "--inodes")) eqn:E3; [|discriminate H]]];
      destruct (IH _ _ H) as (pairs & -> & Hp);
      exists ((a, v) :: pairs); (split; [done|]);
      constructor; try done; cbn [fst].
    + apply streq_true in E1 as ->. rewrite !elem_of_cons. auto.
    + apply streq_true in E2 as ->. rewrite !elem_of_cons. auto.
    + apply streq_true in E3 as ->. rewrite !elem_of_cons. auto.
Qed.

Lemma builder_parse_cli_spec argv p c :
  builder_parse_cli strtoul argv = Some (p, c) <->
  exists prog pairs,
    let value flag := last (map snd (filter (fun p => p.1 = flag) pairs)) in
    let number flag :=
      match value flag with Some v => u32 (strtoul v) | None => 0 end in
    argv = prog :: concat (map (fun p => [p.1; p.2]) pairs) /\
    Forall (fun p => p.1 ∈ [str "--image"; str "--size-kib"; str "--inodes"])
      pairs /\
    value (str "--image") = Some p /\
    c = {| size_kib := number (str "--size-kib");
           inodes := number (str "--inodes") |} /\
    builder_cli_ok c = true.
Proof.
  unfold builder_parse_cli. split.
  - intros H.
    destruct (builder_parse_args strtoul (tail argv) _) as [c0|] eqn:E;
      [|discriminate H].
    destruct (builder_parse_args_shape _ _ _ E) as (pairs & Ht & Hp).
    rewrite Ht, (builder_parse_args_pairs pairs _ Hp) in E.
    cbv zeta in E. cbn [image numbers size_kib inodes] in E.
    destruct argv as [|prog args].
    { destruct pairs; [|discriminate Ht]. cbn in E.
      injection E as <-. discriminate H. }
    cbn [tail] in Ht. subst args.
    exists prog, pairs. cbv zeta. split; [done|]. split; [done|].
    injection E as <-.
    destruct (last (map snd (filter (fun p => p.1 = str "--image") pairs)));
      [|discriminate H].
    destruct (builder_cli_ok _) eqn:Hok; [|discriminate H].
    injection H as -> <-. done.
  - intros (prog & pairs & -> & Hp & Hi & -> & Hok).
    cbn [tail]. rewrite (builder_parse_args_pairs pairs _ Hp).
    cbv zeta. cbn [image numbers size_kib inodes]. rewrite Hi.
    cbv zeta in Hok. by rewrite Hok.
Qed.

(** X19: the builder from its command line.  With file creation taken to
    succeed, the builder exits with 0 or with 2, so its "Image too small"
    exit (code 3) is never taken.  It exits with 0 exactly when the words
    after the program name are (flag, value) pairs over [--image],
    [--size-kib] and [--inodes] (any order, last value wins), [--image]
    occurs, and the two numbers, read by [strtoul] and cut to 32 bits (0
    for a flag that does not occur), are a size in [180, 4096] that is a
    multiple of 4 and an inode count in [128, 512]; the image written then
    has [size * 1024] bytes. *)
Theorem builder_main_spec argv t_sb t_root :
  let res := builder_main strtoul argv t_sb t_root in
  (res = (2, None) \/ exists img, res = (0, Some img)) /\
  forall img, res = (0, Some img) <->
    exists prog pairs,
      let value flag :=
        last (map snd (filter (fun p => p.1 = flag) pairs)) in
      let number flag :=
        match value flag with Some v => u32 (strtoul v) | None => 0 end in
      let c := {| size_kib := number (str "--size-kib");
                  inodes := number (str "--inodes") |} in
      argv = prog :: concat (map (fun p => [p.1; p.2]) pairs) /\
      Forall
        (fun p => p.1 ∈ [str "--image"; str "--size-kib"; str "--inodes"])
        pairs /\
      value (str "--image") <> None /\
      180 <= size_kib c <= 4096 /\ size_kib c mod 4 = 0 /\
      128 <= inodes c <= 512 /\
      img = builder_image c t_sb t_root /\
      len img = 1024 * size_kib c.
Proof.
  intros res. subst res. unfold builder_main.
  destruct (builder_parse_cli strtoul argv) as [[p c]|] eqn:E.
  - apply builder_parse_cli_spec in E
      as (prog & pairs & -> & Hp & Hi & Hc & Hok).
    cbv zeta in Hc, Hok, Hi.
    rewrite (mkfs_builder_ok c t_sb t_root Hok).
    split; [right; by eexists|].
    pose proof (len_builder_image c t_sb t_root Hok) as L.
    pose proof (tb_eq c Hok) as T.
    pose proof (cli_bounds c Hok) as B.
    intros img. split.
    + intros H. injection H as <-.
      exists prog, pairs. cbv zeta. rewrite <- Hc.
      split; [done|]. split; [done|]. split; [by rewrite Hi|].
      split; [lia|]. split; [lia|]. split; [lia|]. split; [done|].
      rewrite L, T. consts. lia.
    + intros (prog' & pairs' & E' & Hp' & _ & _ & _ & _ & -> & _).
      cbv zeta.
      assert (pairs' = pairs) as ->; [|by rewrite <- Hc].
      injection E' as _ E'. clear -E'.
      revert pairs' E'. induction pairs as [|[a v] pairs IH];
        intros [|[a' v'] pairs'] E'; try done.
      rewrite !flat_cons in E'. cbn [fst snd] in E'.
      injection E' as -> -> E'. f_equal. by apply IH.
  - split; [by left|]. intros img. split; [discriminate|].
    intros (prog & pairs & -> & Hp & Hi & H1 & H2 & H3 & _ & _).
    cbv zeta in *. exfalso.
    destruct (last (map snd (filter (fun p => p.1 = str "--image") pairs)))
      as [p|] eqn:Ei; [|done].
    set (c := {| size_kib := _; inodes := _ |}) in *.
    assert (Y : builder_parse_cli strtoul
                  (prog :: concat (map (fun p => [p.1; p.2]) pairs)) =
                Some (p, c)).
    { apply builder_parse_cli_spec. exists prog, pairs. cbv zeta.
      split; [done|]. split; [done|]. split; [exact Ei|].
      split; [reflexivity|]. by apply builder_cli_ok_iff. }
    rewrite E in Y. discriminate Y.
Qed.
End BuilderMain.
